(** * LZMA decoder loop and encoder dictionaries (package lzma)

    A shallow embedding of [lzma/decoder.go] and [lzma/encoderdict.go].

    Conventions.
    - Go's fixed-width integers are [Z] with the wrap-around written out
      ([u32], [u64], [i64]); [int] is taken to be 64 bits wide.
    - A method with a pointer receiver becomes a state transformer; the
      state survives an error return, as the mutated object does in Go.
    - Types and methods of the package that live in other files (the range
      decoder, the probability and symbol codecs, the decoder dictionary,
      the circular buffers and the matcher) are parameters, gathered in
      type classes, so that every theorem holds for each implementation
      of them. *)

From Stdlib Require Import ZArith Lia List Bool.
From Stdlib Require Import Strings.String Strings.Byte.
From stdpp Require Import base list.
Import ListNotations.

Local Open Scope Z_scope.

(** ** Machine integers *)

Definition u32 (x : Z) : Z := x mod 2 ^ 32.
Definition u64 (x : Z) : Z := x mod 2 ^ 64.
Definition i64 (x : Z) : Z := (x + 2 ^ 63) mod 2 ^ 64 - 2 ^ 63.

(** [x << n] and [x >> n] on a [uint32] with a [uint] shift count. *)
Definition shl32 (x n : Z) : Z := u32 (Z.shiftl x n).
Definition shr32 (x n : Z) : Z := Z.shiftr x n.

Definition byteZ (c : byte) : Z := Z.of_N (Byte.to_N c).

(** ** Errors

    Go compares errors by identity.  The package's sentinel values are
    constructors of their own; [errors.New] and [fmt.Errorf] build values
    that are equal to no sentinel. *)

Inductive error : Type :=
| io_EOF
| eofDecoded
| errWrongTermination
| errUnexpectedEOS
| errors_New (msg : string).

Definition Error (e : error) : string :=
  match e with
  | io_EOF => "EOF"
  | eofDecoded => "EOF of decoded stream"
  | errWrongTermination => "range decoder doesn't support termination"
  | errUnexpectedEOS => "unexpected end of stream marker"
  | errors_New msg => msg
  end.

(** [fmt.Errorf("LZMA - %s", err)] *)
Definition Errorf_LZMA (e : error) : error :=
  errors_New ("LZMA - " ++ Error e)%string.

(** What a call yields: a value, a returned error, or a panic. *)
Inductive outcome (A : Type) : Type :=
| Ret (a : A)
| Fail (e : error)
| Panic (msg : string).
Arguments Ret {A} a.
Arguments Fail {A} e.
Arguments Panic {A} msg.

(** ** Constants *)

Definition states : Z := 12.
Definition maxPosBits : Z := 4.
Definition minLength : Z := 2.
Definition minDistance : Z := 1.
Definition noUnpackLen : Z := 2 ^ 64 - 1.

(** ** Data *)

Definition prob : Type := Z.

Record Properties : Type := mkProperties {
  LC : Z; LP : Z; PB : Z; DictLen : Z
}.

(** Modelled from the spec: the range decoder's state is [range] and
    [code] (both u32) over the compressed input still to be read; the
    struct is declared outside the files at hand. *)
Record rangeDecoder : Type := mkRangeDecoder {
  rd_br : list byte;
  rd_range : Z;
  rd_code : Z
}.

(** Modelled from the spec: [possiblyAtEnd] is the predicate [code == 0]
    of the range decoder; the method is declared outside the files at
    hand. *)
Definition possiblyAtEnd (r : rangeDecoder) : bool := rd_code r =? 0.

(** Modelled from the spec: an operation is a literal or a (length,
    distance) copy; a literal counts for one byte and a copy for its
    length.  The types [lit] and [rep] and their [Len] are declared
    outside the files at hand. *)
Inductive operation : Type :=
| lit (s : byte)
| rep (length distance : Z).

Definition Len (op : operation) : Z :=
  match op with
  | lit _ => 1
  | rep l _ => l
  end.

(** The rep history [rep [4]uint32]. *)
Record reps : Type := mkReps { rep0 : Z; rep1 : Z; rep2 : Z; rep3 : Z }.

(** ** The parts of the package declared in other files *)

(** The structs whose declarations are not at hand. *)
Class Shapes : Type := {
  literalCodec : Type;
  lengthCodec : Type;
  distCodec : Type;
  (** the fields of [decoderDict] besides [total], [eof] and [b] *)
  dictBuffer : Type
}.

(** [decoderDict]: the fields the decoder touches, and the rest. *)
Record decoderDict `{Shapes} : Type := mkDecoderDict {
  dd_buf : dictBuffer;
  total : Z;
  eof : bool;
  b : Z
}.

(** The methods whose bodies are not at hand.  A Go result [(v, err)] is
    the pair [(v, Some e)] or [(v, None)]; the receiver and the range
    decoder are returned as the call leaves them. *)
Class Methods `{Shapes} : Type := {
  (** [func (p *prob) Decode(d *rangeDecoder) (b uint32, err error)] *)
  prob_Decode :
    prob -> rangeDecoder -> (Z * option error) * prob * rangeDecoder;
  (** [litDecoder.Decode(rd, state, match, litState)] *)
  literalCodec_Decode :
    literalCodec -> rangeDecoder -> Z -> byte -> Z ->
    (byte * option error) * literalCodec * rangeDecoder;
  (** [lengthDecoder.Decode(rd, posState)] *)
  lengthCodec_Decode :
    lengthCodec -> rangeDecoder -> Z ->
    (Z * option error) * lengthCodec * rangeDecoder;
  (** [distDecoder.Decode(l, rd)] *)
  distCodec_Decode :
    distCodec -> Z -> rangeDecoder ->
    (Z * option error) * distCodec * rangeDecoder;
  (** [dict.readable()] *)
  readable : decoderDict -> Z;
  (** [dict.getByte(distance)] *)
  getByte : decoderDict -> Z -> byte;
  (** [dict.Read(p)], given [len(p)]: the bytes copied into [p] (their
      number is the count returned) and the error *)
  decoderDict_Read :
    decoderDict -> Z -> (list byte * option error) * decoderDict;
  (** [op.applyDecoderDict(dict)] *)
  applyDecoderDict : operation -> decoderDict -> option error * decoderDict
}.

Section Decoder.
Context {shapes : Shapes} {methods : Methods}.

Record Decoder : Type := mkDecoder {
  properties : Properties;
  unpackLen : Z;
  decodedLen : Z;
  dict : decoderDict;
  state : Z;
  posBitMask : Z;
  rd : rangeDecoder;
  isMatch : list prob;
  isRep : list prob;
  isRepG0 : list prob;
  isRepG1 : list prob;
  isRepG2 : list prob;
  isRepG0Long : list prob;
  reph : reps;
  litDecoder : literalCodec;
  lengthDecoder : lengthCodec;
  repLengthDecoder : lengthCodec;
  distDecoder : distCodec
}.

(** Field updates. *)
Definition set_decodedLen (v : Z) (d : Decoder) : Decoder :=
  mkDecoder (properties d) (unpackLen d) v (dict d) (state d)
    (posBitMask d) (rd d) (isMatch d) (isRep d) (isRepG0 d) (isRepG1 d)
    (isRepG2 d) (isRepG0Long d) (reph d) (litDecoder d) (lengthDecoder d)
    (repLengthDecoder d) (distDecoder d).
Definition set_dict (v : decoderDict) (d : Decoder) : Decoder :=
  mkDecoder (properties d) (unpackLen d) (decodedLen d) v (state d)
    (posBitMask d) (rd d) (isMatch d) (isRep d) (isRepG0 d) (isRepG1 d)
    (isRepG2 d) (isRepG0Long d) (reph d) (litDecoder d) (lengthDecoder d)
    (repLengthDecoder d) (distDecoder d).
Definition set_state (v : Z) (d : Decoder) : Decoder :=
  mkDecoder (properties d) (unpackLen d) (decodedLen d) (dict d) v
    (posBitMask d) (rd d) (isMatch d) (isRep d) (isRepG0 d) (isRepG1 d)
    (isRepG2 d) (isRepG0Long d) (reph d) (litDecoder d) (lengthDecoder d)
    (repLengthDecoder d) (distDecoder d).
Definition set_rd (v : rangeDecoder) (d : Decoder) : Decoder :=
  mkDecoder (properties d) (unpackLen d) (decodedLen d) (dict d) (state d)
    (posBitMask d) v (isMatch d) (isRep d) (isRepG0 d) (isRepG1 d)
    (isRepG2 d) (isRepG0Long d) (reph d) (litDecoder d) (lengthDecoder d)
    (repLengthDecoder d) (distDecoder d).
Definition set_isMatch (v : list prob) (d : Decoder) : Decoder :=
  mkDecoder (properties d) (unpackLen d) (decodedLen d) (dict d) (state d)
    (posBitMask d) (rd d) v (isRep d) (isRepG0 d) (isRepG1 d)
    (isRepG2 d) (isRepG0Long d) (reph d) (litDecoder d) (lengthDecoder d)
    (repLengthDecoder d) (distDecoder d).
Definition set_isRep (v : list prob) (d : Decoder) : Decoder :=
  mkDecoder (properties d) (unpackLen d) (decodedLen d) (dict d) (state d)
    (posBitMask d) (rd d) (isMatch d) v (isRepG0 d) (isRepG1 d)
    (isRepG2 d) (isRepG0Long d) (reph d) (litDecoder d) (lengthDecoder d)
    (repLengthDecoder d) (distDecoder d).
Definition set_isRepG0 (v : list prob) (d : Decoder) : Decoder :=
  mkDecoder (properties d) (unpackLen d) (decodedLen d) (dict d) (state d)
    (posBitMask d) (rd d) (isMatch d) (isRep d) v (isRepG1 d)
    (isRepG2 d) (isRepG0Long d) (reph d) (litDecoder d) (lengthDecoder d)
    (repLengthDecoder d) (distDecoder d).
Definition set_isRepG1 (v : list prob) (d : Decoder) : Decoder :=
  mkDecoder (properties d) (unpackLen d) (decodedLen d) (dict d) (state d)
    (posBitMask d) (rd d) (isMatch d) (isRep d) (isRepG0 d) v
    (isRepG2 d) (isRepG0Long d) (reph d) (litDecoder d) (lengthDecoder d)
    (repLengthDecoder d) (distDecoder d).
Definition set_isRepG2 (v : list prob) (d : Decoder) : Decoder :=
  mkDecoder (properties d) (unpackLen d) (decodedLen d) (dict d) (state d)
    (posBitMask d) (rd d) (isMatch d) (isRep d) (isRepG0 d) (isRepG1 d)
    v (isRepG0Long d) (reph d) (litDecoder d) (lengthDecoder d)
    (repLengthDecoder d) (distDecoder d).
Definition set_isRepG0Long (v : list prob) (d : Decoder) : Decoder :=
  mkDecoder (properties d) (unpackLen d) (decodedLen d) (dict d) (state d)
    (posBitMask d) (rd d) (isMatch d) (isRep d) (isRepG0 d) (isRepG1 d)
    (isRepG2 d) v (reph d) (litDecoder d) (lengthDecoder d)
    (repLengthDecoder d) (distDecoder d).
Definition set_rep (v : reps) (d : Decoder) : Decoder :=
  mkDecoder (properties d) (unpackLen d) (decodedLen d) (dict d) (state d)
    (posBitMask d) (rd d) (isMatch d) (isRep d) (isRepG0 d) (isRepG1 d)
    (isRepG2 d) (isRepG0Long d) v (litDecoder d) (lengthDecoder d)
    (repLengthDecoder d) (distDecoder d).
Definition set_litDecoder (v : literalCodec) (d : Decoder) : Decoder :=
  mkDecoder (properties d) (unpackLen d) (decodedLen d) (dict d) (state d)
    (posBitMask d) (rd d) (isMatch d) (isRep d) (isRepG0 d) (isRepG1 d)
    (isRepG2 d) (isRepG0Long d) (reph d) v (lengthDecoder d)
    (repLengthDecoder d) (distDecoder d).
Definition set_lengthDecoder (v : lengthCodec) (d : Decoder) : Decoder :=
  mkDecoder (properties d) (unpackLen d) (decodedLen d) (dict d) (state d)
    (posBitMask d) (rd d) (isMatch d) (isRep d) (isRepG0 d) (isRepG1 d)
    (isRepG2 d) (isRepG0Long d) (reph d) (litDecoder d) v
    (repLengthDecoder d) (distDecoder d).
Definition set_repLengthDecoder (v : lengthCodec) (d : Decoder) : Decoder :=
  mkDecoder (properties d) (unpackLen d) (decodedLen d) (dict d) (state d)
    (posBitMask d) (rd d) (isMatch d) (isRep d) (isRepG0 d) (isRepG1 d)
    (isRepG2 d) (isRepG0Long d) (reph d) (litDecoder d) (lengthDecoder d)
    v (distDecoder d).
Definition set_distDecoder (v : distCodec) (d : Decoder) : Decoder :=
  mkDecoder (properties d) (unpackLen d) (decodedLen d) (dict d) (state d)
    (posBitMask d) (rd d) (isMatch d) (isRep d) (isRepG0 d) (isRepG1 d)
    (isRepG2 d) (isRepG0Long d) (reph d) (litDecoder d) (lengthDecoder d)
    (repLengthDecoder d) v.

Definition set_eof (v : bool) (dd : decoderDict) : decoderDict :=
  mkDecoderDict _ (dd_buf dd) (total dd) v (b dd).

(** ** The decoder's state-and-error monad

    A method of [*Decoder] runs on the decoder and leaves it changed,
    whether it returns a value, returns an error or panics. *)

Definition M (A : Type) : Type := Decoder -> outcome A * Decoder.

Definition ret {A : Type} (a : A) : M A := fun d => (Ret a, d).

Definition bind {A B : Type} (m : M A) (k : A -> M B) : M B :=
  fun d =>
    match m d with
    | (Ret a, d') => k a d'
    | (Fail e, d') => (Fail e, d')
    | (Panic msg, d') => (Panic msg, d')
    end.

Definition fail {A : Type} (e : error) : M A := fun d => (Fail e, d).
Definition gets {A : Type} (f : Decoder -> A) : M A := fun d => (Ret (f d), d).
Definition modify (f : Decoder -> Decoder) : M unit := fun d => (Ret tt, f d).

Notation "'let*' x ':=' m 'in' k" := (bind m (fun x => k))
  (at level 10, x name, m at level 100, k at level 200).
Notation "m ';;' k" := (bind m (fun _ => k))
  (at level 100, k at level 200, right associativity).

(** A call [(v, err)] of an absent method, followed by
    [if err != nil { return nil, err }]. *)
Definition check {A : Type} (r : A * option error) : M A :=
  match r with
  | (_, Some e) => fail e
  | (a, None) => ret a
  end.

(** [tbl[i].Decode(d.rd)] on one of the decoder's probability arrays; an
    index beyond the array panics. *)
Definition decodeBit (tbl : Decoder -> list prob)
    (set_tbl : list prob -> Decoder -> Decoder) (i : Z) : M Z :=
  fun d =>
    match tbl d !! Z.to_nat i with
    | None => (Panic "index out of range", d)
    | Some p =>
        let '(r, p', rd') := prob_Decode p (rd d) in
        check r (set_rd rd' (set_tbl (<[Z.to_nat i := p']> (tbl d)) d))
    end.

(** ** State transitions *)

(** [updateStateLiteral] *)
Definition updateStateLiteral (d : Decoder) : Decoder :=
  if state d <? 4 then set_state 0 d
  else if state d <? 10 then set_state (u32 (state d - 3)) d
  else set_state (u32 (state d - 6)) d.

(** [updateStateMatch] *)
Definition updateStateMatch (d : Decoder) : Decoder :=
  if state d <? 7 then set_state 7 d else set_state 10 d.

(** [updateStateRep] *)
Definition updateStateRep (d : Decoder) : Decoder :=
  if state d <? 7 then set_state 8 d else set_state 11 d.

(** [updateStateShortRep] *)
Definition updateStateShortRep (d : Decoder) : Decoder :=
  if state d <? 7 then set_state 9 d else set_state 11 d.

(** ** Decoding one operation *)

(** The literal context computed by [decodeLiteral]:
    [((uint32(total) & ((1 << lp) - 1)) << lc) | (uint32(prevByte) >> (8 - lc))]
    with [lp, lc := uint(LP), uint(LC)]. *)
Definition litState (d : Decoder) : Z :=
  let prevByte := getByte (dict d) 1 in
  let lp := u64 (LP (properties d)) in
  let lc := u64 (LC (properties d)) in
  Z.lor
    (shl32 (Z.land (u32 (total (dict d))) (u32 (shl32 1 lp - 1))) lc)
    (shr32 (byteZ prevByte) (u64 (8 - lc))).

(** [decodeLiteral].  The counter [litCounter] and the debug print only
    feed the log and are left out. *)
Definition decodeLiteral : M operation :=
  fun d =>
    let litState := litState d in
    let match_ := getByte (dict d) (i64 (i64 (rep0 (reph d)) + 1)) in
    let '(r, c', rd') :=
      literalCodec_Decode (litDecoder d) (rd d) (state d) match_ litState in
    (let* s := check r in ret (lit s)) (set_rd rd' (set_litDecoder c' d)).

(** [d.lengthDecoder.Decode(d.rd, posState)] *)
Definition decodeLength (posState : Z) : M Z :=
  fun d =>
    let '(r, c', rd') := lengthCodec_Decode (lengthDecoder d) (rd d) posState in
    check r (set_rd rd' (set_lengthDecoder c' d)).

(** [d.repLengthDecoder.Decode(d.rd, posState)] *)
Definition decodeRepLength (posState : Z) : M Z :=
  fun d =>
    let '(r, c', rd') :=
      lengthCodec_Decode (repLengthDecoder d) (rd d) posState in
    check r (set_rd rd' (set_repLengthDecoder c' d)).

(** [d.rep[0], err = d.distDecoder.Decode(l, d.rd)] with its error check:
    [rep[0]] is assigned whatever the call returns, before the check. *)
Definition decodeDist (l : Z) : M unit :=
  fun d =>
    let '(r, c', rd') := distCodec_Decode (distDecoder d) l (rd d) in
    let rp := reph d in
    let d' :=
      set_rep (mkReps (fst r) (rep1 rp) (rep2 rp) (rep3 rp))
        (set_rd rd' (set_distDecoder c' d)) in
    match snd r with
    | Some e => (Fail e, d')
    | None => (Ret tt, d')
    end.

(** The branch of [decodeOp] under the comment [// simple match]. *)
Definition simpleMatch (posState : Z) : M operation :=
  modify (fun d =>
    let rp := reph d in
    set_rep (mkReps (rep0 rp) (rep0 rp) (rep1 rp) (rep2 rp)) d) ;;
  modify updateStateMatch ;;
  let* l := decodeLength posState in
  decodeDist l ;;
  let* d := gets id in
  if rep0 (reph d) =? 4294967295 then
    if negb (possiblyAtEnd (rd d)) then fail errWrongTermination
    else fail eofDecoded
  else
    ret (rep (i64 (i64 l + minLength))
             (i64 (i64 (rep0 (reph d)) + minDistance))).

(** The rest of [decodeOp], reached when [isRep] decodes a 1. *)
Definition repMatch (posState state2 : Z) : M operation :=
  let* st := gets state in
  let* b := decodeBit isRepG0 set_isRepG0 st in
  let* dist := gets (fun d => rep0 (reph d)) in
  let* dist :=
    if b =? 0 then
      (* rep match 0 *)
      let* b := decodeBit isRepG0Long set_isRepG0Long state2 in
      if b =? 0 then ret None else ret (Some dist)
    else
      let* st := gets state in
      let* b := decodeBit isRepG1 set_isRepG1 st in
      let* dist :=
        if b =? 0 then gets (fun d => rep1 (reph d))
        else
          let* st := gets state in
          let* b := decodeBit isRepG2 set_isRepG2 st in
          let* dist :=
            if b =? 0 then gets (fun d => rep2 (reph d))
            else
              let* dist := gets (fun d => rep3 (reph d)) in
              modify (fun d =>
                let rp := reph d in
                set_rep (mkReps (rep0 rp) (rep1 rp) (rep2 rp) (rep2 rp)) d) ;;
              ret dist in
          modify (fun d =>
            let rp := reph d in
            set_rep (mkReps (rep0 rp) (rep1 rp) (rep1 rp) (rep3 rp)) d) ;;
          ret dist in
      modify (fun d =>
        let rp := reph d in
        set_rep (mkReps (rep0 rp) (rep0 rp) (rep2 rp) (rep3 rp)) d) ;;
      modify (fun d =>
        let rp := reph d in
        set_rep (mkReps dist (rep1 rp) (rep2 rp) (rep3 rp)) d) ;;
      ret (Some dist) in
  match dist with
  | None =>
      (* short rep: returns from inside the rep-match-0 branch *)
      modify updateStateShortRep ;;
      let* r0 := gets (fun d => rep0 (reph d)) in
      ret (rep 1 (i64 (i64 r0 + minDistance)))
  | Some dist =>
      let* l := decodeRepLength posState in
      modify updateStateRep ;;
      ret (rep (i64 (i64 l + minLength)) (i64 (i64 dist + minDistance)))
  end.

(** [decodeOp].  The counter [opCounter] and the debug print only feed the
    log and are left out. *)
Definition decodeOp : M operation :=
  let* posState := gets (fun d => Z.land (u32 (total (dict d))) (posBitMask d)) in
  let* state2 := gets (fun d => Z.lor (shl32 (state d) maxPosBits) posState) in
  let* b := decodeBit isMatch set_isMatch state2 in
  if b =? 0 then
    (* literal *)
    let* op := decodeLiteral in
    modify updateStateLiteral ;;
    ret op
  else
    let* st := gets state in
    let* b := decodeBit isRep set_isRep st in
    if b =? 0 then simpleMatch posState
    else repMatch posState state2.

(** *** Naming the paths through [decodeOp] *)

(** [posState] and [state2] as [decodeOp] computes them on entry. *)
Definition posStateOf (d : Decoder) : Z :=
  Z.land (u32 (total (dict d))) (posBitMask d).
Definition state2Of (d : Decoder) : Z :=
  Z.lor (shl32 (state d) maxPosBits) (posStateOf d).

(** [decodeOp], started on [d], has decoded a non-zero bit from [isMatch]
    and the bit [bit] from [isRep], and stands at [d2]. *)
Definition pastIsRep (d : Decoder) (bit : Z) (d2 : Decoder) : Prop :=
  exists b1 d1,
    decodeBit isMatch set_isMatch (state2Of d) d = (Ret b1, d1) /\
    b1 <> 0 /\
    decodeBit isRep set_isRep (state d1) d1 = (Ret bit, d2).

(** The decoder as the simple-match branch has it when it calls the
    length decoder: history shifted, state updated. *)
Definition enterSimpleMatch (d2 : Decoder) : Decoder :=
  updateStateMatch
    (set_rep (mkReps (rep0 (reph d2)) (rep0 (reph d2)) (rep1 (reph d2))
                (rep2 (reph d2))) d2).

(** The decoder after [d.rep[0], err = d.distDecoder.Decode(l, d.rd)]
    returned the value [v], the codec [dc] and the range decoder [r]. *)
Definition afterDist (d4 : Decoder) (v : Z) (dc : distCodec)
    (r : rangeDecoder) : Decoder :=
  set_rep (mkReps v (rep1 (reph d4)) (rep2 (reph d4)) (rep3 (reph d4)))
    (set_rd r (set_distDecoder dc d4)).

(** The update of the history as the specification words it for the
    cases rep1, rep2 and rep3, given the candidate: the shifts
    [rep[2] <- rep[1]], [rep[1] <- rep[0]], [rep[0] <- candidate]. *)
Definition spec_shift (candidate : Z) (rp : reps) : reps :=
  mkReps candidate (rep0 rp) (rep1 rp) (rep3 rp).

(** ** Filling the dictionary *)

(** What one turn of a [for] loop does: go round again, or return. *)
Inductive flow (A : Type) : Type :=
| Next
| Done (r : A).
Arguments Next {A}.
Arguments Done {A} r.

(** The body of the loop of [fill]; [Ret tt] stands for [return nil]. *)
Definition fillBody (d : Decoder) : flow (outcome unit) * Decoder :=
  match decodeOp d with
  | (Fail e, d1) =>
      match e with
      | eofDecoded =>
          if negb (unpackLen d1 =? noUnpackLen)
             && negb (decodedLen d1 =? unpackLen d1)
          then (Done (Fail errUnexpectedEOS), d1)
          else (Done (Ret tt), set_dict (set_eof true (dict d1)) d1)
      | io_EOF =>
          (Done (Fail (errors_New "unexpected end of compressed stream")), d1)
      | _ => (Done (Fail e), d1)
      end
  | (Panic msg, d1) => (Done (Panic msg), d1)
  | (Ret op, d1) =>
      let n := u64 (decodedLen d1 + u64 (Len op)) in
      if n <? decodedLen d1 then
        (Done (Panic "negative op length or overflow of decodedLen"), d1)
      else if n >? unpackLen d1 then
        (Done (Fail (errors_New "decoded stream too long")),
         set_dict (set_eof true (dict d1)) d1)
      else
        let d2 := set_decodedLen n d1 in
        match applyDecoderDict op (dict d2) with
        | (Some e, dd) => (Done (Fail e), set_dict dd d2)
        | (None, dd) =>
            let d3 := set_dict dd d2 in
            if n =? unpackLen d3 then
              (Done (Ret tt), set_dict (set_eof true (dict d3)) d3)
            else (Next, d3)
        end
  end.

(** The loop [for d.dict.readable() < d.dict.b { ... }] run for at most
    [fuel] turns; [None] when the turns are used up, with the decoder as
    they leave it. *)
Fixpoint fillLoop (fuel : nat) (d : Decoder)
    : option (outcome unit) * Decoder :=
  match fuel with
  | O => (None, d)
  | S fuel' =>
      if readable (dict d) <? b (dict d) then
        match fillBody d with
        | (Next, d') => fillLoop fuel' d'
        | (Done r, d') => (Some r, d')
        end
      else (Some (Ret tt), d)
  end.

(** [fill] *)
Definition fill (fuel : nat) (d : Decoder) : option (outcome unit) * Decoder :=
  if eof (dict d) then (Some (Ret tt), d) else fillLoop fuel d.

(** The error of [fill] for an op that overshoots [unpackLen]. *)
Definition tooLong : error := errors_New "decoded stream too long".

(** ** Reading *)

(** What [Read] hands back: the bytes it put at the front of [p] (the
    count [n] is their number) with the error, or a panic. *)
Inductive readResult : Type :=
| Returned (data : list byte) (err : option error)
| Panicked (msg : string).

(** One turn of the loop of [Read]; [acc] holds [p[:n]].  [None] when
    [fill] used up its turns. *)
Definition readBody (fuel : nat) (lenp : Z) (acc : list byte) (d : Decoder)
    : option (flow readResult * list byte) * Decoder :=
  let n := Z.of_nat (length acc) in
  if lenp <? n then
    (Some (Done (Panicked "slice bounds out of range"), acc), d)
  else
    let '(r, dd) := decoderDict_Read (dict d) (lenp - n) in
    let d1 := set_dict dd d in
    let acc1 := acc ++ fst r in
    let n1 := n + Z.of_nat (length (fst r)) in
    match snd r with
    | Some io_EOF =>
        if n1 <=? 0 then (Some (Done (Returned [] (Some io_EOF)), acc1), d1)
        else (Some (Done (Returned acc1 None), acc1), d1)
    | Some e => (Some (Done (Returned acc1 (Some (Errorf_LZMA e))), acc1), d1)
    | None =>
        if n1 =? lenp then (Some (Done (Returned acc1 None), acc1), d1)
        else
          match fill fuel d1 with
          | (None, d2) => (None, d2)
          | (Some (Ret _), d2) => (Some (Next, acc1), d2)
          | (Some (Fail e), d2) =>
              (Some (Done (Returned acc1 (Some (Errorf_LZMA e))), acc1), d2)
          | (Some (Panic msg), d2) => (Some (Done (Panicked msg), acc1), d2)
          end
    end.

Fixpoint readLoop (fuel turns : nat) (lenp : Z) (acc : list byte)
    (d : Decoder) : option readResult * Decoder :=
  match turns with
  | O => (None, d)
  | S turns' =>
      match readBody fuel lenp acc d with
      | (None, d') => (None, d')
      | (Some (Done r, _), d') => (Some r, d')
      | (Some (Next, acc'), d') => readLoop fuel turns' lenp acc' d'
      end
  end.

(** [Read(p)] for a buffer of [lenp] bytes: at most [turns] turns of its
    loop, each call of [fill] with at most [fuel] turns of its own. *)
Definition Read (fuel turns : nat) (lenp : Z) (d : Decoder)
    : option readResult * Decoder :=
  readLoop fuel turns lenp [] d.

(** Where the errors that [Read] wraps come from: a read of the
    dictionary that returned an error other than [io.EOF], or a call of
    [fill] that returned an error. *)
Definition dictReadError (e : error) : Prop :=
  e <> io_EOF /\
  exists dd lenp bs dd', decoderDict_Read dd lenp = ((bs, Some e), dd').

Definition fillError (fuel : nat) (e : error) : Prop :=
  exists d d', fill fuel d = (Some (Fail e), d').

End Decoder.

Arguments Next {A}.
Arguments Done {A} r.

(** ** The encoder dictionaries *)

(** [b[i]]: an index beyond the slice panics. *)
Definition index (b : list byte) (i : nat) : outcome byte :=
  match b !! i with
  | Some c => Ret c
  | None => Panic "index out of range"
  end.

Definition andThen {A B : Type} (r : outcome A) (k : A -> outcome B)
    : outcome B :=
  match r with
  | Ret a => k a
  | Fail e => Fail e
  | Panic msg => Panic msg
  end.

(** Constants of the package that are declared in other files. *)
Class Limits : Type := {
  minDictCap : Z;
  maxDictCap : Z;
  maxMatchLen : Z
}.

(** The older dictionary, [type encoderDict struct]. *)
Module encoderDict.

(** [encoderBuffer] and the methods of it that the dictionary calls; the
    type is declared in another file.  A read leaves the buffer as it
    is. *)
Class BufferOps : Type := {
  encoderBuffer : Type;
  (** [buf.Pos()] *)
  buf_Pos : encoderBuffer -> Z;
  (** [buf.WordLen()] *)
  buf_WordLen : encoderBuffer -> Z;
  (** [buf.ReadByteAt(pos)] *)
  buf_ReadByteAt : encoderBuffer -> Z -> byte * option error;
  (** [buf.ReadAt(p, pos)], given [len(p)]: [p] after the call, and the
      error *)
  buf_ReadAt : encoderBuffer -> Z -> Z -> list byte * option error;
  (** [buf.matcher.Matches(word)] *)
  buf_matcher_Matches : encoderBuffer -> list byte -> list Z
}.

Section Dict.
Context {ops : BufferOps}.

Record t : Type := mk {
  buf : encoderBuffer;
  head : Z;
  zero : Z;
  capacity : Z
}.

Definition Pos (e : t) : Z := i64 (zero e + head e).

Definition Len (e : t) : Z :=
  if head e >=? capacity e then capacity e else head e.

Definition Buffered (e : t) : Z := i64 (buf_Pos (buf e) - Pos e).

Definition ByteAt (e : t) (distance : Z) : outcome byte :=
  if negb ((0 <? distance) && (distance <=? Len e)) then Ret x00
  else
    match buf_ReadByteAt (buf e) (i64 (Pos e - distance)) with
    | (_, Some err) => Panic ("ByteAt: error " ++ Error err)%string
    | (c, None) => Ret c
    end.

(** The loop of [Matches] over the matcher's positions. *)
Definition filterDistances (hpos n : Z) (positions : list Z) : list Z :=
  fold_left
    (fun distances pos =>
       let d := i64 (hpos - pos) in
       if (0 <? d) && (d <=? n) then distances ++ [d] else distances)
    positions [].

Definition Matches (e : t) : outcome (list Z) :=
  if Buffered e <? buf_WordLen (buf e) then Ret []
  else
    let hpos := Pos e in
    if buf_WordLen (buf e) <? 0 then Panic "makeslice: len out of range"
    else
      match buf_ReadAt (buf e) (buf_WordLen (buf e)) hpos with
      | (_, Some _) => Ret []
      | (p, None) =>
          let positions := buf_matcher_Matches (buf e) p in
          Ret (filterDistances hpos (Len e) positions)
      end.

End Dict.

(** *** The rest of the older dictionary *)

Section More.
Context {ops : BufferOps} {lim : Limits}.

(** Further methods of [encoderBuffer] whose bodies are in another file. *)
Class MoreOps : Type := {
  (** [buf.Cap()] *)
  buf_Cap : encoderBuffer -> Z;
  (** [buf.buffer.EqualBytes(x, y, max)] *)
  buf_EqualBytes : encoderBuffer -> Z -> Z -> Z -> Z
}.
Context {more : MoreOps}.

(** [_initEncoderDict]; [None] is the nil pointer. *)
Definition _initEncoderDict (dictCap : Z) (bf : option encoderBuffer)
    : outcome t :=
  match bf with
  | None => Panic "_initEncoderDict: buf must not be nil"
  | Some bf => Ret (mk bf 0 (buf_Pos bf) dictCap)
  end.

(** [initEncoderDict], for a buffer that is not nil. *)
Definition initEncoderDict (dictCap : Z) (bf : encoderBuffer) : outcome t :=
  if negb ((minDictCap <=? dictCap) && (dictCap <=? maxDictCap)) then
    Fail (errors_New "initEncoderDict: dictCap out of range")
  else if negb (dictCap <=? i64 (buf_Cap bf - maxMatchLen)) then
    Fail (errors_New "initEncoderDict: bufCap too small")
  else _initEncoderDict dictCap (Some bf).

Definition Reset (e : t) : t :=
  mk (buf e) 0 (buf_Pos (buf e)) (capacity e).

Definition Advance (e : t) (n : Z) : outcome t :=
  if negb ((0 <? n) && (n <=? Buffered e)) then
    Panic "Advance: n out of range"
  else Ret (mk (buf e) (i64 (head e + n)) (zero e) (capacity e)).

Definition Literal (e : t) : outcome byte :=
  match buf_ReadByteAt (buf e) (Pos e) with
  | (_, Some err) => Panic ("Literal: " ++ Error err)%string
  | (c, None) => Ret c
  end.

Definition MatchLen (e : t) (dist : Z) : Z :=
  if negb ((0 <? dist) && (dist <=? Len e)) then 0
  else
    let bd := Buffered e in
    buf_EqualBytes (buf e) (i64 (bd + dist)) bd maxMatchLen.

(** The positions do not wrap: the head is at or before the end of the
    data written to the buffer, and all of them fit an [int64]. *)
Definition inBounds (e : t) : Prop :=
  0 <= zero e /\ 0 <= head e /\
  zero e + head e <= buf_Pos (buf e) /\
  buf_Pos (buf e) < 2 ^ 63 /\
  0 <= capacity e.

End More.

End encoderDict.

(** The newer dictionary, [type EncoderDict struct]. *)
Module EncoderDict.

(** The circular [buffer]: the fields the dictionary reads.  The struct
    is declared in another file. *)
Record buffer : Type := mkBuffer {
  data : list byte;
  front : Z;
  rear : Z
}.

(** The methods of [buffer] the dictionary calls; their bodies are in
    another file. *)
Class BufferOps : Type := {
  (** [buf.Available()] *)
  buf_Available : buffer -> Z;
  (** [buf.Buffered()] *)
  buf_Buffered : buffer -> Z;
  (** [buf.Peek(p)], given [len(p)]: [p] after the call *)
  buf_Peek : buffer -> Z -> list byte
}.

(** [type matcher interface], without its [io.Writer] half and [Reset],
    which the methods below do not call. *)
Class matcher (T : Type) : Type := {
  m_WordLen : T -> Z;
  m_Pos : T -> Z;
  m_Matches : T -> list byte -> list Z
}.

Section Dict.
Context {ops : BufferOps} {T : Type} {mt : matcher T}.

Record t : Type := mk {
  buf : buffer;
  m : T;
  capacity : Z
}.

Definition Len (ed : t) : Z :=
  let n := m_Pos (m ed) in
  let a := buf_Available (buf ed) in
  if n >? a then a else n.

Definition DictLen (ed : t) : Z :=
  let n := m_Pos (m ed) in
  if n >? capacity ed then capacity ed else n.

Definition Pos (ed : t) : Z := m_Pos (m ed).

Definition ByteAt (ed : t) (distance : Z) : outcome byte :=
  if negb ((0 <? distance) && (distance <? Len ed)) then Ret x00
  else
    let i := i64 (rear (buf ed) - distance) in
    let i := if i <? 0 then i64 (i + Z.of_nat (length (data (buf ed)))) else i in
    if i <? 0 then Panic "index out of range"
    else
      match data (buf ed) !! Z.to_nat i with
      | Some c => Ret c
      | None => Panic "index out of range"
      end.

(** The loop of [Matches] over the matcher's positions. *)
Definition filterDistances (hpos n : Z) (positions : list Z) : list Z :=
  fold_left
    (fun distances pos =>
       let d := i64 (hpos - pos) in
       if (0 <? d) && (d <=? n) then distances ++ [d] else distances)
    positions [].

Definition Matches (ed : t) : outcome (list Z) :=
  let w := m_WordLen (m ed) in
  if buf_Buffered (buf ed) <? w then Ret []
  else if w <? 0 then Panic "makeslice: len out of range"
  else
    let p := buf_Peek (buf ed) w in
    let positions := m_Matches (m ed) p in
    let n := DictLen ed in
    let hpos := m_Pos (m ed) in
    Ret (filterDistances hpos n positions).

End Dict.

(** *** The rest of the newer dictionary *)

(** [io.Writer], with the state of the writer passed along. *)
Class Writer (W : Type) : Type := {
  w_Write : W -> list byte -> (Z * option error) * W
}.

Section More.
Context {ops : BufferOps} {T : Type} {mt : matcher T} {lim : Limits}.

Local Abbreviation t := (t (T:=T)).

(** Further parts of the package that are in other files. *)
Class MoreOps : Type := {
  (** [buf.Write(p)] *)
  buf_Write : buffer -> list byte -> (Z * option error) * buffer;
  (** [buf.EqualBytes(x, y, max)] *)
  buf_EqualBytes : buffer -> Z -> Z -> Z -> Z;
  (** [buf.Cap()] *)
  buf_Cap : buffer -> Z;
  (** the error value [errNoSpace] *)
  errNoSpace : error;
  (** [initBuffer(&buf, bufCap)] on a zero buffer *)
  initBuffer : Z -> buffer * option error;
  (** [newHashTable(dictCap, wordLen)] *)
  newHashTable : Z -> Z -> T * option error
}.
Context {more : MoreOps}.

(** [NewEncoderDict] *)
Definition NewEncoderDict (dictCap bufCap : Z) : outcome t :=
  if negb ((minDictCap <=? dictCap) && (dictCap <=? maxDictCap)) then
    Fail (errors_New "lzma.NewEncoderDict: dictCap out of range")
  else if negb (i64 (dictCap + maxMatchLen) <=? bufCap) then
    Fail (errors_New "lzma.NewEncoderDict: buffer capacit not sufficient")
  else
    match initBuffer bufCap with
    | (_, Some e) => Fail e
    | (bf, None) =>
        match newHashTable dictCap 4 with
        | (_, Some e) => Fail e
        | (tbl, None) => Ret (mk bf tbl dictCap)
        end
    end.

Definition Available (ed : t) : Z :=
  i64 (buf_Available (buf ed) - DictLen ed).

Definition Buffered (ed : t) : Z := buf_Buffered (buf ed).

Definition DictCap (ed : t) : Z := capacity ed.

Definition BufCap (ed : t) : Z := buf_Cap (buf ed).

(** [p[i:j]] of a slice whose capacity is its length. *)
Definition slice (p : list byte) (i j : Z) : outcome (list byte) :=
  if (0 <=? i) && (i <=? j) && (j <=? Z.of_nat (length p)) then
    Ret (take (Z.to_nat (j - i)) (drop (Z.to_nat i) p))
  else Panic "slice bounds out of range".

(** [Write]: the count and the error, and the dictionary afterwards. *)
Definition Write (ed : t) (p : list byte)
    : outcome (Z * option error) * t :=
  let n := Z.of_nat (length p) in
  let avail := Available ed in
  let cut :=
    if n >? avail then
      andThen (slice p 0 avail) (fun q => Ret (q, Some errNoSpace))
    else Ret (p, None) in
  match cut with
  | Ret (q, err) =>
      let '((n, werr), bf) := buf_Write (buf ed) q in
      let err := match werr with Some e => Some e | None => err end in
      (Ret (n, err), mk bf (m ed) (capacity ed))
  | Fail e => (Fail e, ed)
  | Panic msg => (Panic msg, ed)
  end.

(** [CopyN] into the writer [w]. *)
Definition CopyN {W : Type} `{Writer W} (ed : t) (w : W) (n : Z)
    : outcome (Z * option error) * W :=
  let ml := Len ed in
  let n := if n >? ml then ml else n in
  if n <=? 0 then (Ret (0, None), w)
  else
    let dt := data (buf ed) in
    let i := i64 (rear (buf ed) - i64 n) in
    if i >=? 0 then
      match slice dt i (rear (buf ed)) with
      | Ret q => let '((k, err), w1) := w_Write w q in (Ret (k, err), w1)
      | Fail e => (Fail e, w)
      | Panic msg => (Panic msg, w)
      end
    else
      let i := i64 (i + Z.of_nat (length dt)) in
      match slice dt i (Z.of_nat (length dt)) with
      | Ret q =>
          let '((k, err), w1) := w_Write w q in
          let written := k in
          match err with
          | Some e => (Ret (written, Some e), w1)
          | None =>
              match slice dt 0 (rear (buf ed)) with
              | Ret q2 =>
                  let '((k2, err2), w2) := w_Write w1 q2 in
                  (Ret (i64 (written + k2), err2), w2)
              | Fail e => (Fail e, w1)
              | Panic msg => (Panic msg, w1)
              end
          end
      | Fail e => (Fail e, w)
      | Panic msg => (Panic msg, w)
      end.

Definition Literal (ed : t) : outcome byte :=
  if rear (buf ed) =? front (buf ed) then Ret x00
  else if rear (buf ed) <? 0 then Panic "index out of range"
  else index (data (buf ed)) (Z.to_nat (rear (buf ed))).

Definition MatchLen (ed : t) (dist : Z) : Z :=
  if negb ((0 <? dist) && (dist <=? DictLen ed)) then 0
  else
    let bd := Buffered ed in
    buf_EqualBytes (buf ed) (i64 (bd + dist)) bd maxMatchLen.

(** The circular buffer is in order: [rear] is a position of [data], and
    what [Len] reports fits the buffer. *)
Definition ringOk (ed : t) : Prop :=
  0 <= rear (buf ed) <= Z.of_nat (length (data (buf ed))) /\
  Len ed <= Z.of_nat (length (data (buf ed))) /\
  Z.of_nat (length (data (buf ed))) < 2 ^ 62.

(** A writer that takes all it is given and reports so; [contents] is
    what it has taken. *)
Definition accepting {W : Type} `{Writer W} (contents : W -> list byte)
    : Prop :=
  forall w p,
    fst (w_Write w p) = (Z.of_nat (length p), None) /\
    contents (snd (w_Write w p)) = contents w ++ p.

End More.

End EncoderDict.

(** ** Concrete collaborators

    Small stand-ins for the absent parts, on which the definitions above
    run to a value.  The symbol decoders are scripted: each call takes the
    next byte of the compressed input as its result.  *)

Module Scripted.

(** Modelled from the spec: the decoder dictionary, whose type
    [decoderDict] and methods are in a file of the package that is not at
    hand.  It holds the bytes written so far and those not yet delivered
    to the reader; [byte_at] is 0 before the start of the stream; a copy
    at distance 0 or beyond the bytes written is refused; [Read] reports
    [io.EOF] once nothing is left and the sticky flag is set. *)
Record store : Type := mkStore {
  written : list byte;
  pending : list byte
}.

#[export] Instance shapes : Shapes := {|
  literalCodec := unit;
  lengthCodec := unit;
  distCodec := unit;
  dictBuffer := store
|}.

Definition next (r : rangeDecoder) : option (byte * rangeDecoder) :=
  match rd_br r with
  | [] => None
  | c :: rest => Some (c, mkRangeDecoder rest (rd_range r) (rd_code r))
  end.

Definition probDecode (p : prob) (r : rangeDecoder)
    : (Z * option error) * prob * rangeDecoder :=
  match next r with
  | None => ((0, Some io_EOF), p, r)
  | Some (c, r') => ((byteZ c mod 2, None), p, r')
  end.

Definition litDecode (c : unit) (r : rangeDecoder) (st : Z) (mb : byte)
    (ls : Z) : (byte * option error) * unit * rangeDecoder :=
  match next r with
  | None => ((x00, Some io_EOF), c, r)
  | Some (s, r') => ((s, None), c, r')
  end.

Definition lenDecode (c : unit) (r : rangeDecoder) (posState : Z)
    : (Z * option error) * unit * rangeDecoder :=
  match next r with
  | None => ((0, Some io_EOF), c, r)
  | Some (s, r') => ((byteZ s, None), c, r')
  end.

Definition distDecode (c : unit) (l : Z) (r : rangeDecoder)
    : (Z * option error) * unit * rangeDecoder :=
  match next r with
  | None => ((0, Some io_EOF), c, r)
  | Some (s, r') =>
      ((if byteZ s =? 255 then 4294967295 else byteZ s, None), c, r')
  end.

Definition byteAt (w : list byte) (distance : Z) : byte :=
  if (0 <? distance) && (distance <=? Z.of_nat (length w)) then
    nth (length w - Z.to_nat distance) w x00
  else x00.

Fixpoint copyMatch (n : nat) (dist : Z) (st : store) : store :=
  match n with
  | O => st
  | S n' =>
      let c := byteAt (written st) dist in
      copyMatch n' dist (mkStore (written st ++ [c]) (pending st ++ [c]))
  end.

Definition applyOp (op : operation) (dd : decoderDict)
    : option error * decoderDict :=
  match op with
  | lit s =>
      let st := dd_buf dd in
      (None,
       mkDecoderDict _ (mkStore (written st ++ [s]) (pending st ++ [s]))
         (total dd + 1) (eof dd) (b dd))
  | rep l dist =>
      if (dist <=? 0) || (dist >? Z.of_nat (length (written (dd_buf dd))))
      then (Some (errors_New "invalid distance"), dd)
      else
        (None,
         mkDecoderDict _ (copyMatch (Z.to_nat l) dist (dd_buf dd))
           (total dd + l) (eof dd) (b dd))
  end.

Definition dictRead (dd : decoderDict) (lenp : Z)
    : (list byte * option error) * decoderDict :=
  let st := dd_buf dd in
  let k := Z.to_nat lenp in
  let out := take k (pending st) in
  ((out,
    match out with
    | [] => if eof dd then Some io_EOF else None
    | _ => None
    end),
   mkDecoderDict _ (mkStore (written st) (drop k (pending st)))
     (total dd) (eof dd) (b dd)).

#[export] Instance methods : Methods := {|
  prob_Decode := probDecode;
  literalCodec_Decode := litDecode;
  lengthCodec_Decode := lenDecode;
  distCodec_Decode := distDecode;
  readable := fun dd => Z.of_nat (length (pending (dd_buf dd)));
  getByte := fun dd => byteAt (written (dd_buf dd));
  decoderDict_Read := dictRead;
  applyDecoderDict := applyOp
|}.

(** A decoder as [NewDecoder] leaves it, for properties (LC, LP, PB) =
    (3, 0, 2), over the compressed input [input]. *)
Definition probInit : prob := 1024.

Definition newDecoder (unpack : Z) (code : Z) (input : list byte)
    : Decoder :=
  mkDecoder (mkProperties 3 0 2 4096) unpack 0
    (mkDecoderDict _ (mkStore [] []) 0 false 1)
    0 3 (mkRangeDecoder input 4294967295 code)
    (repeat probInit 192) (repeat probInit 12) (repeat probInit 12)
    (repeat probInit 12) (repeat probInit 12) (repeat probInit 192)
    (mkReps 0 0 0 0) tt tt tt tt.

(** The compressed input holds the end-of-stream marker at once: a
    simple match whose distance decodes to 0xFFFFFFFF; five bytes were
    announced. *)
Definition atMarker : Decoder := newDecoder 5 0 [x01; x00; x00; xff].

(** One byte was announced, and the first op is a rep0 of length 2. *)
Definition overlong : Decoder := newDecoder 1 0 [x01; x01; x00; x01; x00].

(** The history is (10, 20, 30, 40) and the input takes the rep1 path:
    [isMatch], [isRep] and [isRepG0] decode 1, [isRepG1] decodes 0, and
    the length decoder returns 3. *)
Definition onRep1 : Decoder :=
  set_rep (mkReps 10 20 30 40) (newDecoder 100 0 [x01; x01; x01; x00; x03]).

(** In state 5 with "ab" in the dictionary; the literal codec, when
    called, returns "c". *)
Definition onLiteral : Decoder :=
  set_state 5
    (set_dict (mkDecoderDict _ (mkStore ["a"; "b"]%byte []) 2 false 1)
       (newDecoder 100 0 ["c"%byte])).

End Scripted.

(** Stand-ins for the buffers and the matcher of the encoder
    dictionaries. *)
Module Plain.

(** The older encoder buffer: every byte written so far, at its absolute
    position, and the positions the matcher reports. *)
Record enc : Type := mkEnc {
  bytes : list byte;
  hits : list Z
}.

Definition readByteAt (e : enc) (pos : Z) : byte * option error :=
  if (0 <=? pos) && (pos <? Z.of_nat (length (bytes e))) then
    (nth (Z.to_nat pos) (bytes e) x00, None)
  else (x00, Some (errors_New "position out of range")).

Definition readAt (e : enc) (n pos : Z) : list byte * option error :=
  if (0 <=? pos) && (pos + n <=? Z.of_nat (length (bytes e))) then
    (take (Z.to_nat n) (drop (Z.to_nat pos) (bytes e)), None)
  else (repeat x00 (Z.to_nat n), Some (errors_New "position out of range")).

#[export] Instance encOps : encoderDict.BufferOps := {|
  encoderDict.encoderBuffer := enc;
  encoderDict.buf_Pos := fun e => Z.of_nat (length (bytes e));
  encoderDict.buf_WordLen := fun _ => 4;
  encoderDict.buf_ReadByteAt := readByteAt;
  encoderDict.buf_ReadAt := readAt;
  encoderDict.buf_matcher_Matches := fun e _ => hits e
|}.

(** The circular buffer of the newer dictionary, one slot kept free. *)
Definition available (bf : EncoderDict.buffer) : Z :=
  let delta := EncoderDict.rear bf - 1 - EncoderDict.front bf in
  if delta <? 0 then delta + Z.of_nat (length (EncoderDict.data bf))
  else delta.

Definition buffered (bf : EncoderDict.buffer) : Z :=
  let delta := EncoderDict.front bf - EncoderDict.rear bf in
  if delta <? 0 then delta + Z.of_nat (length (EncoderDict.data bf))
  else delta.

Definition peek (bf : EncoderDict.buffer) (n : Z) : list byte :=
  let dt := EncoderDict.data bf in
  take (Z.to_nat n) (drop (Z.to_nat (EncoderDict.rear bf)) (dt ++ dt)).

#[export] Instance ringOps : EncoderDict.BufferOps := {|
  EncoderDict.buf_Available := available;
  EncoderDict.buf_Buffered := buffered;
  EncoderDict.buf_Peek := peek
|}.

(** A matcher of 4-byte words that stands at [t_pos] and reports the
    positions [t_hits]. *)
Record table : Type := mkTable {
  t_pos : Z;
  t_hits : list Z
}.

#[export] Instance tableMatcher : EncoderDict.matcher table := {|
  EncoderDict.m_WordLen := fun _ => 4;
  EncoderDict.m_Pos := t_pos;
  EncoderDict.m_Matches := fun t _ => t_hits t
|}.

(** The newer dictionary after "a" was written and the head advanced
    over it: one byte in the dictionary, nothing buffered. *)
Definition oneByte : EncoderDict.t :=
  EncoderDict.mk
    (EncoderDict.mkBuffer ["a"%byte; x00; x00; x00; x00; x00; x00; x00] 1 1)
    (mkTable 1 []) 4.

(** The newer dictionary after "abcdabcdabcd" was written and the head
    advanced over the first eight bytes; the matcher reports the
    positions 0 and 4, and two that the filter must drop. *)
Definition abcd : EncoderDict.t :=
  EncoderDict.mk
    (EncoderDict.mkBuffer
       ["a"; "b"; "c"; "d"; "a"; "b"; "c"; "d"; "a"; "b"; "c"; "d";
        x00; x00; x00; x00]%byte 12 8)
    (mkTable 8 [0; 4; 8; 12]) 8.

(** The older dictionary with one byte, "a", in it. *)
Definition oneByteOld : encoderDict.t :=
  encoderDict.mk (mkEnc ["a"%byte] []) 1 0 4.

(** The older dictionary in the same situation as [abcd]. *)
Definition abcdOld : encoderDict.t :=
  encoderDict.mk
    (mkEnc ["a"; "b"; "c"; "d"; "a"; "b"; "c"; "d"; "a"; "b"; "c"; "d"]%byte
       [0; 4; 8; 12])
    8 0 8.

End Plain.

(** * More of the decoder: construction and little-endian lengths *)

(** [x << n] on a [uint64]. *)
Definition shl64 (x n : Z) : Z := u64 (Z.shiftl x n).

(** [getUint64LE]; the bytes are read from [b[7]] down to [b[0]]. *)
Definition getUint64LE (b : list byte) : outcome Z :=
  andThen (index b 7) (fun b7 =>
  let x := shl64 (byteZ b7) 56 in
  andThen (index b 6) (fun b6 =>
  let x := Z.lor x (shl64 (byteZ b6) 48) in
  andThen (index b 5) (fun b5 =>
  let x := Z.lor x (shl64 (byteZ b5) 40) in
  andThen (index b 4) (fun b4 =>
  let x := Z.lor x (shl64 (byteZ b4) 32) in
  andThen (index b 3) (fun b3 =>
  let x := Z.lor x (shl64 (byteZ b3) 24) in
  andThen (index b 2) (fun b2 =>
  let x := Z.lor x (shl64 (byteZ b2) 16) in
  andThen (index b 1) (fun b1 =>
  let x := Z.lor x (shl64 (byteZ b1) 8) in
  andThen (index b 0) (fun b0 =>
  let x := Z.lor x (byteZ b0) in
  Ret x)))))))).

(** The number a byte sequence stands for, least significant byte
    first. *)
Fixpoint leValue (l : list byte) : Z :=
  match l with
  | [] => 0
  | c :: rest => byteZ c + 256 * leValue rest
  end.

(** [initProbSlice], the loop [for i := range p { p[i] = probInit }]. *)
Definition initProbSlice (init : prob) (p : list prob) : list prob :=
  fold_left (fun q i => <[i := init]> q) (seq 0 (length p)) p.

(** [var bufferLen = 64 * (1 << 10)] *)
Definition bufferLen : Z := 64 * Z.shiftl 1 10.

(** What [NewDecoder] calls and the files at hand do not define.  The
    buffered reader is the list of bytes still unread. *)
Class Constructors `{Shapes} : Type := {
  (** the constant [probInit] *)
  probInit : prob;
  (** [io.ErrUnexpectedEOF] *)
  io_ErrUnexpectedEOF : error;
  (** [readProperties(f)]: the properties, the error, the bytes left *)
  readProperties : list byte -> (Properties * option error) * list byte;
  (** [newDecoderDict(bufferLen, historyLen)] *)
  newDecoderDict : Z -> Z -> decoderDict * option error;
  (** [newRangeDecoder(f)] *)
  newRangeDecoder : list byte -> rangeDecoder * option error;
  (** [newLiteralCodec(lc, lp)] *)
  newLiteralCodec : Z -> Z -> literalCodec;
  (** [newLengthCodec()] *)
  newLengthCodec : lengthCodec;
  (** [newDistCodec()] *)
  newDistCodec : distCodec
}.

Section Construction.
Context {shapes : Shapes} {methods : Methods} {ctors : Constructors}.

(** [io.ReadFull(r, b)] of the standard library, for [len(b) = n]: the
    bytes read, the error ([io.EOF] when nothing could be read,
    [io.ErrUnexpectedEOF] when the input ended early), the bytes left. *)
Definition io_ReadFull (r : list byte) (n : nat)
    : (list byte * option error) * list byte :=
  if (n <=? length r)%nat then ((take n r, None), drop n r)
  else
    ((r ++ repeat x00 (n - length r),
      Some match r with [] => io_EOF | _ => io_ErrUnexpectedEOF end),
     []).

(** [readUint64LE] *)
Definition readUint64LE (r : list byte)
    : outcome (Z * option error) * list byte :=
  let '((bs, err), r') := io_ReadFull r 8 in
  match err with
  | Some e => (Ret (0, Some e), r')
  | None =>
      (andThen (getUint64LE bs) (fun x => Ret (x, None)), r')
  end.

(** [NewDecoder] over the input [r]. *)
Definition NewDecoder (r : list byte) : outcome Decoder :=
  let '((props, err), f) := readProperties r in
  match err with
  | Some e => Fail e
  | None =>
      let historyLen := i64 (DictLen props) in
      if historyLen <? 0 then
        Fail (errors_New "LZMA property DictLen exceeds maximum int value")
      else
        let '(ru, f) := readUint64LE f in
        andThen ru (fun xe =>
        match xe with
        | (_, Some e) => Fail e
        | (unpack, None) =>
            match newDecoderDict bufferLen historyLen with
            | (_, Some e) => Fail e
            | (dd, None) =>
                let mask := u32 (shl32 1 (u64 (PB props)) - 1) in
                match newRangeDecoder f with
                | (_, Some e) => Fail e
                | (rdec, None) =>
                    Ret (mkDecoder props unpack 0 dd 0 mask rdec
                           (initProbSlice probInit
                              (repeat 0 (Z.to_nat (Z.shiftl states maxPosBits))))
                           (initProbSlice probInit (repeat 0 (Z.to_nat states)))
                           (initProbSlice probInit (repeat 0 (Z.to_nat states)))
                           (initProbSlice probInit (repeat 0 (Z.to_nat states)))
                           (initProbSlice probInit (repeat 0 (Z.to_nat states)))
                           (initProbSlice probInit
                              (repeat 0 (Z.to_nat (Z.shiftl states maxPosBits))))
                           (mkReps 0 0 0 0)
                           (newLiteralCodec (LC props) (LP props))
                           newLengthCodec newLengthCodec newDistCodec)
                end
            end
        end)
  end.

End Construction.

Section Invariants.
Context {shapes : Shapes} {methods : Methods}.

(** The decoder is well formed: the state is one of the twelve, the
    position mask has at most [maxPosBits] bits, and the probability
    arrays have their declared sizes. *)
Definition wellFormed (d : Decoder) : Prop :=
  0 <= state d <= 11 /\
  0 <= posBitMask d <= 15 /\
  length (isMatch d) = 192%nat /\
  length (isRep d) = 12%nat /\
  length (isRepG0 d) = 12%nat /\
  length (isRepG1 d) = 12%nat /\
  length (isRepG2 d) = 12%nat /\
  length (isRepG0Long d) = 192%nat.

Definition isUint32 (x : Z) : Prop := 0 <= x < 2 ^ 32.

Definition repsTyped (rp : reps) : Prop :=
  isUint32 (rep0 rp) /\ isUint32 (rep1 rp) /\
  isUint32 (rep2 rp) /\ isUint32 (rep3 rp).

(** The length and distance codecs return a [uint32], as their Go
    signatures say. *)
Definition typedCodecs : Prop :=
  (forall c r ps, isUint32 (fst (fst (fst (lengthCodec_Decode c r ps))))) /\
  (forall c l r, isUint32 (fst (fst (fst (distCodec_Decode c l r))))).

(** The dictionary's [Read] keeps the contract of [io.Reader]: it copies
    no more bytes than the buffer holds. *)
Definition readsWithinBounds : Prop :=
  forall dd k,
    0 <= k ->
    Z.of_nat (length (fst (fst (decoderDict_Read dd k)))) <= k.

(** What the symbol decoders leave alone besides [frame]: the state, the
    history, the mask and the sizes of the arrays. *)
Definition steady (d d' : Decoder) : Prop :=
  state d' = state d /\
  reph d' = reph d /\
  posBitMask d' = posBitMask d /\
  length (isMatch d') = length (isMatch d) /\
  length (isRep d') = length (isRep d) /\
  length (isRepG0 d') = length (isRepG0 d) /\
  length (isRepG1 d') = length (isRepG1 d) /\
  length (isRepG2 d') = length (isRepG2 d) /\
  length (isRepG0Long d') = length (isRepG0Long d).

(** What holds all through a decoding run of a stream whose announced
    length is below 2^63. *)
Definition sound (d : Decoder) : Prop :=
  wellFormed d /\ repsTyped (reph d) /\
  0 <= decodedLen d <= unpackLen d /\ unpackLen d < 2 ^ 63.

End Invariants.

(** The message of the one [panic] that [fill] itself raises. *)
Definition overflowMsg : string :=
  "negative op length or overflow of decodedLen".

(** ** More concrete collaborators

    Stand-ins for the constructors that [NewDecoder] calls, for the
    constants and the remaining buffer methods of the encoder
    dictionaries, and for an [io.Writer]. *)

Module Samples.

(** Modelled from the spec: the header glue.  The property byte is
    [(PB * 5 + LP) * 9 + LC], rejected when [LC + LP > 4]; four bytes of
    [DictLen] follow, least significant first.  [readProperties] is in a
    file of the package that is not at hand. *)
Definition headerProperties (r : list byte)
    : (Properties * option error) * list byte :=
  match r with
  | p :: d0 :: d1 :: d2 :: d3 :: rest =>
      let v := byteZ p in
      let lc := v mod 9 in
      let lp := (v / 9) mod 5 in
      let pb := (v / 9) / 5 in
      if (4 <? pb) || (4 <? lc + lp) then
        ((mkProperties 0 0 0 0, Some (errors_New "invalid properties")), rest)
      else ((mkProperties lc lp pb (leValue [d0; d1; d2; d3]), None), rest)
  | _ => ((mkProperties 0 0 0 0, Some io_EOF), [])
  end.

(** Modelled from the spec: the range decoder starts by reading one pad
    byte, which must be 0, and four bytes of [code], most significant
    first; [range] is 0xFFFFFFFF.  [newRangeDecoder] is in a file of the
    package that is not at hand. *)
Definition startRangeDecoder (r : list byte) : rangeDecoder * option error :=
  match r with
  | pad :: c0 :: c1 :: c2 :: c3 :: rest =>
      if byteZ pad =? 0 then
        (mkRangeDecoder rest 4294967295 (leValue [c3; c2; c1; c0]), None)
      else (mkRangeDecoder r 0 0, Some (errors_New "first byte not zero"))
  | _ => (mkRangeDecoder r 0 0, Some io_EOF)
  end.

(** An empty dictionary store that asks for [bufCap] bytes at a time. *)
Definition emptyDecoderDict (bufCap historyLen : Z)
    : decoderDict (H:=Scripted.shapes) * option error :=
  (mkDecoderDict Scripted.shapes (Scripted.mkStore [] []) 0 false bufCap,
   None).

#[export] Instance ctors : Constructors (H:=Scripted.shapes) := {|
  probInit := Scripted.probInit;
  io_ErrUnexpectedEOF := errors_New "unexpected EOF";
  readProperties := headerProperties;
  newDecoderDict := emptyDecoderDict;
  newRangeDecoder := startRangeDecoder;
  newLiteralCodec := fun _ _ => tt;
  newLengthCodec := tt;
  newDistCodec := tt
|}.

(** A classic LZMA stream: properties (LC, LP, PB) = (3, 0, 2), a
    dictionary of 4096 bytes, five bytes announced, then the payload. *)
Definition classic : list byte :=
  [x5d; x00; x10; x00; x00;
   x05; x00; x00; x00; x00; x00; x00; x00;
   x00; x00; x00; x00; x00; x01; x01; x00].

(** The same stream cut off inside the announced length. *)
Definition cutShort : list byte :=
  [x5d; x00; x10; x00; x00; x05; x00; x00].

(** One byte was announced and the input decodes to the literal "a". *)
Definition oneLiteral : Decoder (shapes:=Scripted.shapes) :=
  Scripted.newDecoder 1 0 [x00; "a"%byte].

(** Two bytes were announced and the first op is a rep0 of length 2 at
    distance 1, which the empty dictionary refuses. *)
Definition refusedAtEnd : Decoder (shapes:=Scripted.shapes) :=
  Scripted.newDecoder 2 0 [x01; x01; x00; x01; x00].

(** The constants as the package sets them. *)
#[export] Instance limits : Limits := {|
  minDictCap := 4096;
  maxDictCap := 4294967295;
  maxMatchLen := 273
|}.

Fixpoint commonPrefix (a c : list byte) : nat :=
  match a, c with
  | x :: a', y :: c' =>
      if Byte.eqb x y then S (commonPrefix a' c') else O
  | _, _ => O
  end.

(** The number of bytes, at most [max], on which the bytes [x] back from
    the end of [bs] and the bytes [y] back from it agree. *)
Definition equalBytes (bs : list byte) (x y max : Z) : Z :=
  let n := Z.of_nat (length bs) in
  if (0 <? y) && (y <=? x) && (x <=? n) then
    Z.of_nat
      (commonPrefix
         (drop (Z.to_nat (n - x)) bs)
         (take (Z.to_nat max) (drop (Z.to_nat (n - y)) bs)))
  else 0.

(** The older encoder buffer, with room for 8192 bytes. *)
#[export] Instance encMore : encoderDict.MoreOps (ops:=Plain.encOps) :=
  @encoderDict.Build_MoreOps Plain.encOps
    (fun _ => 8192)
    (fun e => equalBytes (Plain.bytes e)).

Definition noSpace : error := errors_New "insufficient space".

(** Writing into the circular buffer: as many bytes as fit are stored
    from [front] on, wrapping at the end of [data]. *)
Definition write (bf : EncoderDict.buffer) (p : list byte)
    : (Z * option error) * EncoderDict.buffer :=
  let q := take (Z.to_nat (Plain.available bf)) p in
  let len := Z.of_nat (length (EncoderDict.data bf)) in
  let slot i := Z.to_nat ((EncoderDict.front bf + Z.of_nat i) mod len) in
  ((Z.of_nat (length q),
    if (length q <? length p)%nat then Some noSpace else None),
   EncoderDict.mkBuffer
     (fold_left (fun dt ic => <[slot (fst ic) := snd ic]> dt)
        (combine (seq 0 (length q)) q) (EncoderDict.data bf))
     ((EncoderDict.front bf + Z.of_nat (length q)) mod len)
     (EncoderDict.rear bf)).

(** The bytes of the circular buffer in the order written, ending at
    [front]. *)
Definition unrolled (bf : EncoderDict.buffer) : list byte :=
  let f := Z.to_nat (EncoderDict.front bf) in
  drop f (EncoderDict.data bf) ++ take f (EncoderDict.data bf).

#[export] Instance ringMore : EncoderDict.MoreOps (T:=Plain.table) := {|
  EncoderDict.buf_Write := write;
  EncoderDict.buf_EqualBytes := fun bf => equalBytes (unrolled bf);
  EncoderDict.buf_Cap :=
    fun bf => Z.of_nat (length (EncoderDict.data bf)) - 1;
  EncoderDict.errNoSpace := noSpace;
  EncoderDict.initBuffer :=
    fun cap =>
      (EncoderDict.mkBuffer (repeat x00 (Z.to_nat (cap + 1))) 0 0, None);
  EncoderDict.newHashTable := fun _ _ => (Plain.mkTable 0 [], None)
|}.

(** An [io.Writer] that appends what it is given to a list. *)
#[export] Instance sink : EncoderDict.Writer (list byte) := {|
  EncoderDict.w_Write := fun w p => ((Z.of_nat (length p), None), w ++ p)
|}.

(** An older dictionary over an empty buffer, as [_initEncoderDict]
    leaves it. *)
Definition emptyOld : encoderDict.t (ops:=Plain.encOps) :=
  encoderDict.mk (ops:=Plain.encOps) (Plain.mkEnc [] []) 0 0 4096.

End Samples.

(** * Properties of the decoder *)

Section DecoderFacts.
Context {shapes : Shapes} {methods : Methods}.

Notation "'let*' x ':=' m 'in' k" := (bind m (fun x => k))
  (at level 10, x name, m at level 100, k at level 200).
Notation "m ';;' k" := (bind m (fun _ => k))
  (at level 100, k at level 200, right associativity).

(** ** What decoding an operation leaves alone *)

(** The fields of the decoder that no symbol decoder writes. *)
Definition frame (d d' : Decoder) : Prop :=
  properties d' = properties d /\
  unpackLen d' = unpackLen d /\
  decodedLen d' = decodedLen d /\
  dict d' = dict d /\
  posBitMask d' = posBitMask d.

Definition keeps {A : Type} (m : M A) : Prop :=
  forall d, frame d (snd (m d)).

Lemma frame_refl d : frame d d.
Proof. repeat split. Qed.

Lemma frame_trans d1 d2 d3 : frame d1 d2 -> frame d2 d3 -> frame d1 d3.
Proof.
  unfold frame. intros (?&?&?&?&?) (?&?&?&?&?). repeat split; congruence.
Qed.

Lemma keeps_ret {A : Type} (a : A) : keeps (ret a).
Proof. intros d. apply frame_refl. Qed.

Lemma keeps_fail {A : Type} (e : error) : keeps (fail (A:=A) e).
Proof. intros d. apply frame_refl. Qed.

Lemma keeps_gets {A : Type} (f : Decoder -> A) : keeps (gets f).
Proof. intros d. apply frame_refl. Qed.

Lemma keeps_modify (f : Decoder -> Decoder) :
  (forall d, frame d (f d)) -> keeps (modify f).
Proof. intros Hf d. apply Hf. Qed.

Lemma keeps_bind {A B : Type} (m : M A) (k : A -> M B) :
  keeps m -> (forall a, keeps (k a)) -> keeps (bind m k).
Proof.
  intros Hm Hk d. unfold bind. specialize (Hm d).
  destruct (m d) as [[a|e|msg] d']; simpl in *; auto.
  eapply frame_trans; [exact Hm | apply Hk].
Qed.

Lemma keeps_check {A : Type} (r : A * option error) : keeps (check r).
Proof. destruct r as [a [e|]]; [apply keeps_fail | apply keeps_ret]. Qed.

Lemma keeps_decodeBit tbl set_tbl i :
  (forall v d, frame d (set_tbl v d)) ->
  keeps (decodeBit tbl set_tbl i).
Proof.
  intros Hset d. unfold decodeBit.
  destruct (tbl d !! Z.to_nat i) as [p|]; [|apply frame_refl].
  destruct (prob_Decode p (rd d)) as [[r p'] rd'].
  eapply frame_trans; [|apply keeps_check].
  eapply frame_trans; [apply Hset|]. repeat split.
Qed.

Lemma frame_set_state v d : frame d (set_state v d).
Proof. repeat split. Qed.

Lemma frame_set_rep v d : frame d (set_rep v d).
Proof. repeat split. Qed.

Lemma frame_updateStateLiteral d : frame d (updateStateLiteral d).
Proof.
  unfold updateStateLiteral.
  repeat match goal with |- context [if ?c then _ else _] => destruct c end;
    apply frame_set_state.
Qed.

Lemma frame_updateStateMatch d : frame d (updateStateMatch d).
Proof. unfold updateStateMatch. destruct (_ <? _); apply frame_set_state. Qed.

Lemma frame_updateStateRep d : frame d (updateStateRep d).
Proof. unfold updateStateRep. destruct (_ <? _); apply frame_set_state. Qed.

Lemma frame_updateStateShortRep d : frame d (updateStateShortRep d).
Proof. unfold updateStateShortRep. destruct (_ <? _); apply frame_set_state. Qed.

Lemma keeps_decodeLiteral : keeps decodeLiteral.
Proof.
  intros d. unfold decodeLiteral.
  destruct (literalCodec_Decode _ _ _ _ _) as [[r c'] rd'].
  eapply frame_trans; [|apply keeps_bind; [apply keeps_check | intros; apply keeps_ret]].
  repeat split.
Qed.

Lemma keeps_decodeLength ps : keeps (decodeLength ps).
Proof.
  intros d. unfold decodeLength.
  destruct (lengthCodec_Decode _ _ _) as [[r c'] rd'].
  eapply frame_trans; [|apply keeps_check]. repeat split.
Qed.

Lemma keeps_decodeRepLength ps : keeps (decodeRepLength ps).
Proof.
  intros d. unfold decodeRepLength.
  destruct (lengthCodec_Decode _ _ _) as [[r c'] rd'].
  eapply frame_trans; [|apply keeps_check]. repeat split.
Qed.

Lemma keeps_decodeDist l : keeps (decodeDist l).
Proof.
  intros d. unfold decodeDist.
  destruct (distCodec_Decode _ _ _) as [[r c'] rd'].
  destruct (snd r); repeat split.
Qed.

Ltac keeps_step :=
  match goal with
  | |- keeps (bind _ _) => apply keeps_bind; [|intros]
  | |- keeps (ret _) => apply keeps_ret
  | |- keeps (fail _) => apply keeps_fail
  | |- keeps (gets _) => apply keeps_gets
  | |- keeps (modify updateStateLiteral) =>
      apply keeps_modify, frame_updateStateLiteral
  | |- keeps (modify updateStateMatch) =>
      apply keeps_modify, frame_updateStateMatch
  | |- keeps (modify updateStateRep) =>
      apply keeps_modify, frame_updateStateRep
  | |- keeps (modify updateStateShortRep) =>
      apply keeps_modify, frame_updateStateShortRep
  | |- keeps (modify _) => apply keeps_modify; intros; apply frame_set_rep
  | |- keeps (decodeBit _ _ _) =>
      apply keeps_decodeBit; intros; repeat split
  | |- keeps decodeLiteral => apply keeps_decodeLiteral
  | |- keeps (decodeLength _) => apply keeps_decodeLength
  | |- keeps (decodeRepLength _) => apply keeps_decodeRepLength
  | |- keeps (decodeDist _) => apply keeps_decodeDist
  | |- keeps (if ?c then _ else _) => destruct c
  | |- keeps (match ?c with Some _ => _ | None => _ end) => destruct c
  end.

Lemma keeps_simpleMatch ps : keeps (simpleMatch ps).
Proof. unfold simpleMatch. repeat keeps_step. Qed.

Lemma keeps_repMatch ps s2 : keeps (repMatch ps s2).
Proof. unfold repMatch. repeat keeps_step. Qed.

Lemma keeps_decodeOp : keeps decodeOp.
Proof.
  unfold decodeOp. repeat keeps_step.
  - apply keeps_simpleMatch.
  - apply keeps_repMatch.
Qed.

Lemma decodeOp_frame d r d' : decodeOp d = (r, d') -> frame d d'.
Proof. intros E. pose proof (keeps_decodeOp d) as F. now rewrite E in F. Qed.

(** ** The state machine *)

(** C2.  For a state in [0, 11]: a literal sends states 0..3 to 0, states
    4..9 to state - 3 and states 10..11 to state - 6; a simple match sends
    states below 7 to 7 and the others to 10; a rep sends states below 7
    to 8 and the others to 11; a short rep sends states below 7 to 9 and
    the others to 11.  Each transition stays inside [0, 11], and the new
    state is a function of the old state and the kind of operation alone:
    two decoders in the same state move to the same state. *)
Theorem state_transitions (d d' : Decoder) :
  0 <= state d <= 11 ->
  (state d <= 3 -> state (updateStateLiteral d) = 0) /\
  (4 <= state d <= 9 -> state (updateStateLiteral d) = state d - 3) /\
  (10 <= state d -> state (updateStateLiteral d) = state d - 6) /\
  (state d < 7 ->
     state (updateStateMatch d) = 7 /\
     state (updateStateRep d) = 8 /\
     state (updateStateShortRep d) = 9) /\
  (7 <= state d ->
     state (updateStateMatch d) = 10 /\
     state (updateStateRep d) = 11 /\
     state (updateStateShortRep d) = 11) /\
  (0 <= state (updateStateLiteral d) <= 11 /\
   0 <= state (updateStateMatch d) <= 11 /\
   0 <= state (updateStateRep d) <= 11 /\
   0 <= state (updateStateShortRep d) <= 11) /\
  (state d' = state d ->
     state (updateStateLiteral d') = state (updateStateLiteral d) /\
     state (updateStateMatch d') = state (updateStateMatch d) /\
     state (updateStateRep d') = state (updateStateRep d) /\
     state (updateStateShortRep d') = state (updateStateShortRep d)).
Proof.
  intros Hs.
  unfold updateStateLiteral, updateStateMatch, updateStateRep,
    updateStateShortRep, u32.
  split; [|split; [|split; [|split; [|split; [|split]]]]].
  - intros. destruct (Z.ltb_spec (state d) 4); [reflexivity | lia].
  - intros. destruct (Z.ltb_spec (state d) 4); [lia|].
    destruct (Z.ltb_spec (state d) 10); [|lia].
    simpl. apply Z.mod_small. lia.
  - intros. destruct (Z.ltb_spec (state d) 4); [lia|].
    destruct (Z.ltb_spec (state d) 10); [lia|].
    simpl. apply Z.mod_small. lia.
  - intros. destruct (Z.ltb_spec (state d) 7); [auto | lia].
  - intros. destruct (Z.ltb_spec (state d) 7); [lia | auto].
  - destruct (Z.ltb_spec (state d) 4); destruct (Z.ltb_spec (state d) 10);
      destruct (Z.ltb_spec (state d) 7); simpl;
      rewrite ?Z.mod_small by lia; lia.
  - intros ->. destruct (state d <? 4), (state d <? 10), (state d <? 7);
      auto.
Qed.

(** ** The literal context *)

Lemma land_u32_low (t m : Z) :
  0 <= m < 2 ^ 32 -> Z.land (u32 t) m = Z.land t m.
Proof.
  intros Hm. unfold u32.
  rewrite <- Z.land_ones by lia.
  rewrite <- Z.land_assoc. f_equal.
  rewrite Z.land_comm, Z.land_ones by lia.
  apply Z.mod_small. lia.
Qed.

Lemma litState_arith (t lp lc pb : Z) :
  0 <= lp <= 4 -> 0 <= lc <= 8 ->
  Z.lor
    (shl32 (Z.land (u32 t) (u32 (shl32 1 (u64 lp) - 1))) (u64 lc))
    (shr32 pb (u64 (8 - u64 lc)))
  = Z.lor (Z.shiftl (Z.land t (Z.shiftl 1 lp - 1)) lc)
          (Z.shiftr pb (8 - lc)).
Proof.
  intros Hlp Hlc.
  assert (E64 : forall x, 0 <= x <= 8 -> u64 x = x).
  { intros x Hx. apply Z.mod_small. lia. }
  rewrite (E64 lp), (E64 lc), (E64 (8 - lc)) by lia.
  unfold shr32. f_equal.
  assert (Hp : 1 <= 2 ^ lp <= 16).
  { split; [pose proof (Z.pow_pos_nonneg 2 lp); lia|].
    change 16 with (2 ^ 4). apply Z.pow_le_mono_r; lia. }
  assert (E1 : shl32 1 lp = 2 ^ lp).
  { unfold shl32, u32. rewrite Z.shiftl_1_l. apply Z.mod_small. lia. }
  rewrite E1, Z.shiftl_1_l.
  assert (E2 : u32 (2 ^ lp - 1) = 2 ^ lp - 1).
  { apply Z.mod_small. lia. }
  rewrite E2, land_u32_low by lia.
  unfold shl32, u32. apply Z.mod_small.
  replace (2 ^ lp - 1) with (Z.ones lp) by (rewrite Z.ones_equiv; lia).
  rewrite Z.land_ones, Z.shiftl_mul_pow2 by lia.
  pose proof (Z.mod_pos_bound t (2 ^ lp) ltac:(lia)) as Hm.
  assert (Hc : 1 <= 2 ^ lc <= 256).
  { split; [pose proof (Z.pow_pos_nonneg 2 lc); lia|].
    change 256 with (2 ^ 8). apply Z.pow_le_mono_r; lia. }
  nia.
Qed.

(** C6.  [decodeLiteral] hands the literal codec the context
    [((total & ((1 << LP) - 1)) << LC) | (prev_byte >> (8 - LC))], with
    [prev_byte] the dictionary byte at distance 1, and as match byte the
    dictionary byte at distance [rep[0] + 1]; for every dictionary, every
    LC in [0, 8] and LP in [0, 4], and [rep[0]] a [uint32]. *)
Theorem decodeLiteral_context (d : Decoder) :
  0 <= LC (properties d) <= 8 ->
  0 <= LP (properties d) <= 4 ->
  0 <= rep0 (reph d) < 2 ^ 32 ->
  let lc := LC (properties d) in
  let lp := LP (properties d) in
  let prev_byte := byteZ (getByte (dict d) 1) in
  let lit_state :=
    Z.lor (Z.shiftl (Z.land (total (dict d)) (Z.shiftl 1 lp - 1)) lc)
          (Z.shiftr prev_byte (8 - lc)) in
  let match_byte := getByte (dict d) (rep0 (reph d) + 1) in
  decodeLiteral d =
    let '(r, c', rd') :=
      literalCodec_Decode (litDecoder d) (rd d) (state d) match_byte
        lit_state in
    (match r with
     | (_, Some e) => Fail e
     | (s, None) => Ret (lit s)
     end,
     set_rd rd' (set_litDecoder c' d)).
Proof.
  intros Hlc Hlp Hr lc lp prev_byte lit_state match_byte.
  unfold decodeLiteral, litState.
  rewrite litState_arith by assumption.
  fold lc lp prev_byte lit_state.
  assert (Ei : i64 (i64 (rep0 (reph d)) + 1) = rep0 (reph d) + 1).
  { unfold i64. rewrite (Z.mod_small (rep0 (reph d) + 2 ^ 63)) by lia.
    replace (rep0 (reph d) + 2 ^ 63 - 2 ^ 63 + 1 + 2 ^ 63)
      with (rep0 (reph d) + 1 + 2 ^ 63) by lia.
    rewrite Z.mod_small by lia. lia. }
  rewrite Ei. fold match_byte.
  destruct (literalCodec_Decode _ _ _ _ _) as [[[s [e|]] c'] rd'];
    reflexivity.
Qed.

(** ** Paths through [decodeOp] *)

Lemma decodeOp_simpleMatch (d d2 : Decoder) :
  pastIsRep d 0 d2 -> decodeOp d = simpleMatch (posStateOf d) d2.
Proof.
  intros (b1 & d1 & E1 & Hb1 & E2).
  unfold decodeOp, bind at 1 2 3, gets at 1 2. simpl.
  fold (posStateOf d). fold (state2Of d). unfold bind at 1. rewrite E1.
  apply Z.eqb_neq in Hb1. rewrite Hb1.
  unfold bind at 1 2, gets. simpl. rewrite E2. reflexivity.
Qed.

Lemma decodeOp_repMatch (d d2 : Decoder) (bit : Z) :
  pastIsRep d bit d2 -> bit <> 0 ->
  decodeOp d = repMatch (posStateOf d) (state2Of d) d2.
Proof.
  intros (b1 & d1 & E1 & Hb1 & E2) Hbit.
  unfold decodeOp, bind at 1 2 3, gets at 1 2. simpl.
  fold (posStateOf d). fold (state2Of d). unfold bind at 1. rewrite E1.
  apply Z.eqb_neq in Hb1. rewrite Hb1.
  unfold bind at 1 2, gets. simpl. rewrite E2.
  apply Z.eqb_neq in Hbit. rewrite Hbit. reflexivity.
Qed.

Lemma decodeBit_reph tbl set_tbl i d r d' :
  (forall v x, reph (set_tbl v x) = reph x) ->
  decodeBit tbl set_tbl i d = (r, d') -> reph d' = reph d.
Proof.
  intros Hset. unfold decodeBit.
  destruct (tbl d !! Z.to_nat i) as [p|]; [|intros [= _ <-]; reflexivity].
  destruct (prob_Decode p (rd d)) as [[[v [e|]] p'] rd'];
    intros [= _ <-]; simpl; apply Hset.
Qed.

Lemma pastIsRep_reph d bit d2 : pastIsRep d bit d2 -> reph d2 = reph d.
Proof.
  intros (b1 & d1 & E1 & _ & E2).
  apply decodeBit_reph in E1; [|reflexivity].
  apply decodeBit_reph in E2; [|reflexivity]. congruence.
Qed.

Lemma decodeLength_reph ps d r d' :
  decodeLength ps d = (r, d') -> reph d' = reph d.
Proof.
  unfold decodeLength.
  destruct (lengthCodec_Decode _ _ _) as [[[v [e|]] c'] rd'];
    intros [= _ <-]; reflexivity.
Qed.

Lemma decodeRepLength_reph ps d : reph (snd (decodeRepLength ps d)) = reph d.
Proof.
  unfold decodeRepLength.
  destruct (lengthCodec_Decode _ _ _) as [[[v [e|]] c'] rd']; reflexivity.
Qed.

Lemma updateStateMatch_reph d : reph (updateStateMatch d) = reph d.
Proof. unfold updateStateMatch. destruct (_ <? _); reflexivity. Qed.

Lemma updateStateRep_reph d : reph (updateStateRep d) = reph d.
Proof. unfold updateStateRep. destruct (_ <? _); reflexivity. Qed.

Lemma updateStateShortRep_reph d : reph (updateStateShortRep d) = reph d.
Proof. unfold updateStateShortRep. destruct (_ <? _); reflexivity. Qed.

Ltac bit_reph E R :=
  pose proof E as R; apply decodeBit_reph in R; [|reflexivity].

(** The simple-match branch once the distance codec has answered. *)
Lemma simpleMatch_run (ps : Z) (d2 d4 : Decoder) (l v : Z) (e : option error)
    (dc : distCodec) (r : rangeDecoder) :
  decodeLength ps (enterSimpleMatch d2) = (Ret l, d4) ->
  distCodec_Decode (distDecoder d4) l (rd d4) = ((v, e), dc, r) ->
  simpleMatch ps d2 =
    (match e with
     | Some err => Fail err
     | None =>
         if v =? 4294967295 then
           if negb (possiblyAtEnd r) then Fail errWrongTermination
           else Fail eofDecoded
         else Ret (rep (i64 (i64 l + minLength)) (i64 (i64 v + minDistance)))
     end,
     afterDist d4 v dc r).
Proof.
  intros EL ED.
  unfold simpleMatch, bind at 1 2 3, modify. simpl.
  fold (enterSimpleMatch d2). rewrite EL.
  unfold bind at 1, decodeDist. rewrite ED. simpl.
  fold (afterDist d4 v dc r).
  destruct e as [err|]; [reflexivity|].
  unfold bind, gets. simpl.
  destruct (v =? 4294967295); [|reflexivity].
  destruct (possiblyAtEnd r); reflexivity.
Qed.

(** ** The end-of-stream marker *)

Lemma fill_first_turn (fuel : nat) (d d' : Decoder) (r : outcome unit) :
  eof (dict d) = false ->
  readable (dict d) < b (dict d) ->
  fillBody d = (Done r, d') ->
  fill (S fuel) d = (Some r, d').
Proof.
  intros He Hr Hb. unfold fill. rewrite He. simpl.
  apply Z.ltb_lt in Hr. rewrite Hr, Hb. reflexivity.
Qed.

(** C1.  When, on the simple-match path of [decodeOp], the distance codec
    returns 0xFFFFFFFF (and no error), the value is an end-of-stream
    marker.  If the range decoder is not possibly at its end (its code is
    not 0), [decodeOp] and with it [fill] fail with [errWrongTermination].
    Otherwise [decodeOp] returns [eofDecoded], and [fill] fails with
    [errUnexpectedEOS] if [unpackLen] is not [noUnpackLen] and the decoded
    length differs from it, and else sets the dictionary's [eof] flag and
    returns nil. *)
Theorem eos_marker_handling (fuel : nat) (d d2 d4 : Decoder) (l : Z)
    (dc : distCodec) (r : rangeDecoder) :
  eof (dict d) = false ->
  readable (dict d) < b (dict d) ->
  pastIsRep d 0 d2 ->
  decodeLength (posStateOf d) (enterSimpleMatch d2) = (Ret l, d4) ->
  distCodec_Decode (distDecoder d4) l (rd d4) = ((4294967295, None), dc, r) ->
  let d5 := afterDist d4 4294967295 dc r in
  (rd_code r <> 0 ->
     decodeOp d = (Fail errWrongTermination, d5) /\
     fill (S fuel) d = (Some (Fail errWrongTermination), d5)) /\
  (rd_code r = 0 ->
     decodeOp d = (Fail eofDecoded, d5) /\
     (unpackLen d <> noUnpackLen -> decodedLen d <> unpackLen d ->
        fill (S fuel) d = (Some (Fail errUnexpectedEOS), d5)) /\
     (unpackLen d = noUnpackLen \/ decodedLen d = unpackLen d ->
        fill (S fuel) d = (Some (Ret tt), set_dict (set_eof true (dict d5)) d5) /\
        eof (dict (snd (fill (S fuel) d))) = true)).
Proof.
  intros He Hr Hp EL ED d5.
  pose proof (decodeOp_simpleMatch _ _ Hp) as E.
  rewrite (simpleMatch_run _ _ _ _ _ _ _ _ EL ED) in E.
  fold d5 in E. simpl in E. unfold possiblyAtEnd in E.
  split; intros Hc.
  - apply Z.eqb_neq in Hc. rewrite Hc in E. simpl in E.
    split; [exact E|].
    apply fill_first_turn; trivial. unfold fillBody. rewrite E. reflexivity.
  - apply Z.eqb_eq in Hc. rewrite Hc in E. simpl in E.
    destruct (decodeOp_frame _ _ _ E) as (_ & Hu & Hd & _).
    split; [exact E|]. split.
    + intros Hn Hne. apply fill_first_turn; trivial.
      unfold fillBody. rewrite E, Hu, Hd.
      apply Z.eqb_neq in Hn, Hne. rewrite Hn, Hne. reflexivity.
    + intros Hor.
      assert (F : fill (S fuel) d =
                    (Some (Ret tt), set_dict (set_eof true (dict d5)) d5)).
      { apply fill_first_turn; trivial.
        unfold fillBody. rewrite E, Hu, Hd.
        destruct Hor as [Hn | Heq].
        - apply Z.eqb_eq in Hn. rewrite Hn. reflexivity.
        - apply Z.eqb_eq in Heq. rewrite Heq.
          rewrite andb_false_r. reflexivity. }
      split; [exact F|]. rewrite F. reflexivity.
Qed.

(** ** Running the monad *)

Lemma bind_run {A B : Type} (m : M A) (k : A -> M B) (d d' : Decoder) (a : A) :
  m d = (Ret a, d') -> bind m k d = k a d'.
Proof. intros E. unfold bind. now rewrite E. Qed.

Lemma bind_gets {A B : Type} (f : Decoder -> A) (k : A -> M B) (d : Decoder) :
  bind (gets f) k d = k (f d) d.
Proof. reflexivity. Qed.

Lemma bind_modify {B : Type} (f : Decoder -> Decoder) (k : unit -> M B)
    (d : Decoder) :
  bind (modify f) k d = k tt (f d).
Proof. reflexivity. Qed.

Lemma bind_ret {A B : Type} (a : A) (k : A -> M B) (d : Decoder) :
  bind (ret a) k d = k a d.
Proof. reflexivity. Qed.

Lemma bind_assoc {A B C : Type} (m : M A) (k : A -> M B) (k' : B -> M C)
    (d : Decoder) :
  bind (bind m k) k' d = bind m (fun a => bind (k a) k') d.
Proof. unfold bind. destruct (m d) as [[a|e|msg] d']; reflexivity. Qed.

Ltac run :=
  repeat first
    [ rewrite bind_assoc
    | rewrite bind_gets
    | rewrite bind_modify
    | rewrite bind_ret
    | erewrite bind_run by eassumption ];
  cbv beta.

(** ** The rep history *)

(** The rep branches end in the length decoder and [updateStateRep],
    neither of which writes the history. *)
Lemma repMatch_tail (ps dist : Z) (x : Decoder) :
  reph (snd ((let* l := decodeRepLength ps in
              modify updateStateRep ;;
              ret (rep (i64 (i64 l + minLength))
                       (i64 (i64 dist + minDistance)))) x))
  = reph x.
Proof.
  unfold bind at 1.
  pose proof (decodeRepLength_reph ps x) as R.
  destruct (decodeRepLength ps x) as [[l|e|msg] d']; simpl in *; trivial.
  now rewrite updateStateRep_reph.
Qed.

Lemma repMatch_rep0 (ps s2 : Z) (d2 d3 d4 : Decoder) (bl : Z) :
  decodeBit isRepG0 set_isRepG0 (state d2) d2 = (Ret 0, d3) ->
  decodeBit isRepG0Long set_isRepG0Long s2 d3 = (Ret bl, d4) ->
  reph (snd (repMatch ps s2 d2)) = reph d2.
Proof.
  intros E0 El. bit_reph E0 R3. bit_reph El R4.
  unfold repMatch. run. simpl (0 =? 0). cbv iota. run.
  destruct (bl =? 0); run.
  - unfold ret. simpl. rewrite updateStateShortRep_reph. congruence.
  - rewrite repMatch_tail. congruence.
Qed.

Lemma repMatch_rep1 (ps s2 : Z) (d2 d3 d4 : Decoder) (b0 : Z) :
  decodeBit isRepG0 set_isRepG0 (state d2) d2 = (Ret b0, d3) ->
  b0 <> 0 ->
  decodeBit isRepG1 set_isRepG1 (state d3) d3 = (Ret 0, d4) ->
  reph (snd (repMatch ps s2 d2)) =
    mkReps (rep1 (reph d2)) (rep0 (reph d2)) (rep2 (reph d2))
      (rep3 (reph d2)).
Proof.
  intros E0 Hb0 E1. bit_reph E0 R3. bit_reph E1 R4.
  apply Z.eqb_neq in Hb0.
  unfold repMatch. run. rewrite Hb0. run. simpl (0 =? 0). cbv iota. run.
  rewrite repMatch_tail. simpl. rewrite R4, R3. reflexivity.
Qed.

Lemma repMatch_rep2 (ps s2 : Z) (d2 d3 d4 d5 : Decoder) (b0 b1 : Z) :
  decodeBit isRepG0 set_isRepG0 (state d2) d2 = (Ret b0, d3) ->
  b0 <> 0 ->
  decodeBit isRepG1 set_isRepG1 (state d3) d3 = (Ret b1, d4) ->
  b1 <> 0 ->
  decodeBit isRepG2 set_isRepG2 (state d4) d4 = (Ret 0, d5) ->
  reph (snd (repMatch ps s2 d2)) = spec_shift (rep2 (reph d2)) (reph d2).
Proof.
  intros E0 Hb0 E1 Hb1 E2. bit_reph E0 R3. bit_reph E1 R4. bit_reph E2 R5.
  apply Z.eqb_neq in Hb0, Hb1.
  unfold repMatch. run. rewrite Hb0. run. rewrite Hb1. run.
  simpl (0 =? 0). cbv iota. run.
  rewrite repMatch_tail. simpl. rewrite R5, R4, R3. reflexivity.
Qed.

Lemma repMatch_rep3 (ps s2 : Z) (d2 d3 d4 d5 : Decoder) (b0 b1 b2 : Z) :
  decodeBit isRepG0 set_isRepG0 (state d2) d2 = (Ret b0, d3) ->
  b0 <> 0 ->
  decodeBit isRepG1 set_isRepG1 (state d3) d3 = (Ret b1, d4) ->
  b1 <> 0 ->
  decodeBit isRepG2 set_isRepG2 (state d4) d4 = (Ret b2, d5) ->
  b2 <> 0 ->
  reph (snd (repMatch ps s2 d2)) =
    spec_shift (rep3 (reph d2))
      (mkReps (rep0 (reph d2)) (rep1 (reph d2)) (rep2 (reph d2))
         (rep2 (reph d2))).
Proof.
  intros E0 Hb0 E1 Hb1 E2 Hb2.
  bit_reph E0 R3. bit_reph E1 R4. bit_reph E2 R5.
  apply Z.eqb_neq in Hb0, Hb1, Hb2.
  unfold repMatch. run. rewrite Hb0. run. rewrite Hb1. run. rewrite Hb2.
  run.
  rewrite repMatch_tail. simpl. rewrite R5, R4, R3. reflexivity.
Qed.


(** C3, as the code has it.  On a simple match [rep[3]], [rep[2]], [rep[1]]
    receive the old [rep[2]], [rep[1]], [rep[0]] and [rep[0]] the value the
    distance codec returned.  On a short rep and on a rep0 with long
    length the history is unchanged.  When [isRepG1] decodes 0 the
    candidate is [rep[1]] and only [rep[1] <- rep[0]], [rep[0] <- candidate]
    are performed: [rep[2]] and [rep[3]] stay.  When [isRepG2] decodes 0
    the candidate is [rep[2]], otherwise it is [rep[3]] and [rep[3]]
    receives the old [rep[2]]; in these two cases the shifts
    [rep[2] <- rep[1]], [rep[1] <- rep[0]], [rep[0] <- candidate] follow. *)
Theorem rep_history_update (d d2 : Decoder) (bit : Z) :
  pastIsRep d bit d2 ->
  let rp := reph d in
  (* simple match *)
  (bit = 0 ->
   forall l d4 v e dc r,
     decodeLength (posStateOf d) (enterSimpleMatch d2) = (Ret l, d4) ->
     distCodec_Decode (distDecoder d4) l (rd d4) = ((v, e), dc, r) ->
     reph (snd (decodeOp d)) = mkReps v (rep0 rp) (rep1 rp) (rep2 rp)) /\
  (bit <> 0 ->
   forall b0 d3,
     decodeBit isRepG0 set_isRepG0 (state d2) d2 = (Ret b0, d3) ->
     (* short rep and rep0 with long length *)
     (b0 = 0 ->
      forall bl d4,
        decodeBit isRepG0Long set_isRepG0Long (state2Of d) d3 = (Ret bl, d4) ->
        reph (snd (decodeOp d)) = rp) /\
     (b0 <> 0 ->
      forall b1 d4,
        decodeBit isRepG1 set_isRepG1 (state d3) d3 = (Ret b1, d4) ->
        (* rep1 *)
        (b1 = 0 ->
         reph (snd (decodeOp d)) =
           mkReps (rep1 rp) (rep0 rp) (rep2 rp) (rep3 rp)) /\
        (b1 <> 0 ->
         forall b2 d5,
           decodeBit isRepG2 set_isRepG2 (state d4) d4 = (Ret b2, d5) ->
           (* rep2 *)
           (b2 = 0 ->
            reph (snd (decodeOp d)) = spec_shift (rep2 rp) rp) /\
           (* rep3 *)
           (b2 <> 0 ->
            reph (snd (decodeOp d)) =
              spec_shift (rep3 rp)
                (mkReps (rep0 rp) (rep1 rp) (rep2 rp) (rep2 rp)))))).
Proof.
  intros Hp rp. pose proof (pastIsRep_reph _ _ _ Hp) as R2. split.
  - intros -> l d4 v e dc r EL ED.
    rewrite (decodeOp_simpleMatch _ _ Hp).
    rewrite (simpleMatch_run _ _ _ _ _ _ _ _ EL ED). simpl.
    apply decodeLength_reph in EL.
    unfold enterSimpleMatch in EL. rewrite updateStateMatch_reph in EL.
    simpl in EL. rewrite EL. subst rp. rewrite <- R2. reflexivity.
  - intros Hbit b0 d3 E0.
    rewrite (decodeOp_repMatch _ _ _ Hp Hbit). subst rp. rewrite <- R2.
    split.
    + intros -> bl d4 El. eapply repMatch_rep0; eassumption.
    + intros Hb0 b1 d4 E1. split.
      * intros ->. eapply repMatch_rep1; eassumption.
      * intros Hb1 b2 d5 E2. split.
        -- intros ->. eapply repMatch_rep2; eassumption.
        -- intros Hb2. eapply repMatch_rep3; eassumption.
Qed.

(** ** The decoded length *)

Lemma fillBody_decodedLen (d d' : Decoder) (r : flow (outcome unit)) :
  fillBody d = (r, d') ->
  unpackLen d' = unpackLen d /\
  decodedLen d <= decodedLen d' /\
  (decodedLen d <= unpackLen d -> decodedLen d' <= unpackLen d).
Proof.
  unfold fillBody.
  destruct (decodeOp d) as [[op|e|msg] d1] eqn:E;
    destruct (decodeOp_frame _ _ _ E) as (_ & Hu & Hd & _).
  - set (n := u64 (decodedLen d1 + u64 (Len op))).
    destruct (Z.ltb_spec n (decodedLen d1)).
    { intros [= _ <-]. lia. }
    destruct (n >? unpackLen d1) eqn:Hgt.
    { intros [= _ <-]. simpl. lia. }
    assert (n <= unpackLen d1)
      by (rewrite Z.gtb_ltb in Hgt; apply Z.ltb_ge in Hgt; lia).
    destruct (applyDecoderDict op (dict (set_decodedLen n d1)))
      as [[e|] dd].
    { intros [= _ <-]. simpl. lia. }
    destruct (n =? unpackLen _); intros [= _ <-]; simpl; lia.
  - destruct e; try (intros [= _ <-]; lia).
    destruct (_ && _); intros [= _ <-]; simpl; lia.
  - intros [= _ <-]. lia.
Qed.

Lemma fillLoop_decodedLen (fuel : nat) (d : Decoder) :
  let d' := snd (fillLoop fuel d) in
  unpackLen d' = unpackLen d /\
  decodedLen d <= decodedLen d' /\
  (decodedLen d <= unpackLen d -> decodedLen d' <= unpackLen d).
Proof.
  revert d. induction fuel as [|fuel IH]; intros d; simpl.
  - lia.
  - destruct (readable (dict d) <? b (dict d)); simpl; [|lia].
    destruct (fillBody d) as [[|r] d1] eqn:E;
      destruct (fillBody_decodedLen _ _ _ E) as (Hu & Hm & Hb); simpl.
    + specialize (IH d1). simpl in IH. rewrite Hu in IH. lia.
    + lia.
Qed.

Lemma fill_rejects (fuel : nat) (d d1 : Decoder) (op : operation) :
  eof (dict d) = false ->
  readable (dict d) < b (dict d) ->
  decodedLen d <= unpackLen d ->
  decodeOp d = (Ret op, d1) ->
  unpackLen d < u64 (decodedLen d + u64 (Len op)) ->
  fill (S fuel) d =
    (Some (Fail tooLong), set_dict (set_eof true (dict d1)) d1).
Proof.
  intros He Hr Hle E Hn.
  apply fill_first_turn; trivial. unfold fillBody. rewrite E.
  destruct (decodeOp_frame _ _ _ E) as (_ & Hu & Hd & _).
  rewrite Hu, Hd.
  destruct (Z.ltb_spec (u64 (decodedLen d + u64 (Len op))) (decodedLen d));
    [lia|].
  apply Z.gt_lt_iff, Z.gtb_gt in Hn. rewrite Hn. reflexivity.
Qed.

Lemma fillLoop_reaches_unpackLen (fuel : nat) (d : Decoder) :
  decodedLen d < unpackLen d ->
  fst (fillLoop fuel d) = Some (Ret tt) ->
  decodedLen (snd (fillLoop fuel d)) = unpackLen d ->
  eof (dict (snd (fillLoop fuel d))) = true.
Proof.
  revert d. induction fuel as [|fuel IH]; intros d Hlt; simpl.
  - discriminate.
  - destruct (readable (dict d) <? b (dict d)); simpl; [|lia].
    destruct (fillBody d) as [[|r] d1] eqn:E.
    + destruct (fillBody_decodedLen _ _ _ E) as (Hu & _ & _).
      rewrite <- Hu. apply IH.
      revert E. unfold fillBody.
      destruct (decodeOp d) as [[op|e|msg] d0] eqn:E0.
      * destruct (decodeOp_frame _ _ _ E0) as (_ & Hu0 & Hd0 & _).
        set (n := u64 (decodedLen d0 + u64 (Len op))).
        destruct (n <? decodedLen d0); [discriminate|].
        destruct (n >? unpackLen d0) eqn:Hgt; [discriminate|].
        rewrite Z.gtb_ltb in Hgt. apply Z.ltb_ge in Hgt.
        destruct (applyDecoderDict op (dict (set_decodedLen n d0)))
          as [[e|] dd]; [discriminate|].
        simpl. destruct (Z.eqb_spec n (unpackLen d0)); [discriminate|].
        intros [= <-]. simpl. lia.
      * destruct e; try discriminate. destruct (_ && _); discriminate.
      * discriminate.
    + simpl. intros [= ->]. revert E. unfold fillBody.
      destruct (decodeOp d) as [[op|e|msg] d0] eqn:E0.
      * destruct (_ <? _); [discriminate|].
        destruct (_ >? _); [discriminate|].
        destruct (applyDecoderDict _ _) as [[e|] dd]; [discriminate|].
        destruct (_ =? _); [|discriminate].
        intros [= <-]. reflexivity.
      * destruct e; try discriminate.
        destruct (_ && _); [discriminate|].
        intros [= <-]. reflexivity.
      * discriminate.
Qed.

(** C4.  The decoded length never decreases over [fill], whatever the
    number of turns of its loop, and if it is at most [unpackLen] before
    it stays so.  An op whose length takes the total (the code's 64-bit
    sum, which is the plain sum unless it overflows) past [unpackLen]
    makes [fill] fail with "decoded stream too long".  An op that takes
    the total to [unpackLen] exactly is applied to the dictionary; [fill]
    then sets the [eof] flag and returns nil, unless applying the op
    failed: then [fill] passes that error on with the decoded length
    already at [unpackLen], and leaves the dictionary, its [eof] flag
    included, as the failed call left it.  Whenever [fill] returns nil
    with the decoded length risen to [unpackLen], the [eof] flag is
    set. *)
Theorem decodedLen_monotone_bounded (fuel : nat) (d : Decoder) :
  decodedLen d <= unpackLen d ->
  (let d' := snd (fill fuel d) in
   unpackLen d' = unpackLen d /\
   decodedLen d <= decodedLen d' <= unpackLen d) /\
  (forall op d1,
     eof (dict d) = false ->
     readable (dict d) < b (dict d) ->
     decodeOp d = (Ret op, d1) ->
     let n := u64 (decodedLen d + u64 (Len op)) in
     (0 <= decodedLen d -> 0 <= Len op -> decodedLen d + Len op < 2 ^ 64 ->
      n = decodedLen d + Len op) /\
     (unpackLen d < n ->
      fst (fill (S fuel) d) = Some (Fail tooLong) /\
      decodedLen (snd (fill (S fuel) d)) = decodedLen d) /\
     (n = unpackLen d ->
      forall oe dd,
        applyDecoderDict op (dict d) = (oe, dd) ->
        fst (fill (S fuel) d)
          = Some match oe with None => Ret tt | Some e => Fail e end /\
        decodedLen (snd (fill (S fuel) d)) = unpackLen d /\
        (oe = None -> eof (dict (snd (fill (S fuel) d))) = true) /\
        (oe <> None -> dict (snd (fill (S fuel) d)) = dd))) /\
  (decodedLen d < unpackLen d ->
   fst (fill fuel d) = Some (Ret tt) ->
   decodedLen (snd (fill fuel d)) = unpackLen d ->
   eof (dict (snd (fill fuel d))) = true).
Proof.
  intros Hle. split; [|split].
  - unfold fill. destruct (eof (dict d)); simpl; [lia|].
    pose proof (fillLoop_decodedLen fuel d) as F. simpl in F. lia.
  - intros op d1 He Hr E n.
    destruct (decodeOp_frame _ _ _ E) as (_ & Hu & Hd & Hdict & _).
    split; [|split].
    + intros Hnn Hl Hs. subst n. unfold u64.
      rewrite (Z.mod_small (Len op)) by lia. apply Z.mod_small. lia.
    + intros Hn. rewrite (fill_rejects fuel d d1 op); trivial.
      simpl. auto.
    + intros Hn oe dd Ha.
      assert (F : fill (S fuel) d =
        (Some match oe with None => Ret tt | Some e => Fail e end,
         match oe with
         | None =>
             set_dict (set_eof true dd) (set_dict dd (set_decodedLen n d1))
         | Some _ => set_dict dd (set_decodedLen n d1)
         end)).
      { apply fill_first_turn; trivial. unfold fillBody. rewrite E.
        rewrite Hu, Hd. fold n.
        destruct (Z.ltb_spec n (decodedLen d)); [lia|].
        destruct (n >? unpackLen d) eqn:Hgt; [apply Z.gtb_gt in Hgt; lia|].
        simpl. rewrite Hdict, Ha. destruct oe as [e|]; [reflexivity|].
        simpl. rewrite Hu.
        apply Z.eqb_eq in Hn. rewrite Hn. reflexivity. }
      rewrite F. destruct oe as [e|]; simpl.
      * split; [reflexivity|]. split; [exact Hn|].
        split; [discriminate | intros _; reflexivity].
      * split; [reflexivity|]. split; [exact Hn|].
        split; [intros _; reflexivity|].
        intros H. exfalso. apply H. reflexivity.
  - intros Hlt. unfold fill. destruct (eof (dict d)); simpl; [lia|].
    apply fillLoop_reaches_unpackLen. exact Hlt.
Qed.

(** C10.  When [fill] rejects an op because the decoded length plus the
    op's length exceeds [unpackLen], the op is not applied: the dictionary
    is the one [decodeOp] was called on, buffer and [total] included, with
    only its [eof] flag set; this holds for every implementation of
    [applyDecoderDict]. *)
Theorem rejected_op_not_applied (fuel : nat) (d d1 : Decoder)
    (op : operation) :
  eof (dict d) = false ->
  readable (dict d) < b (dict d) ->
  decodedLen d <= unpackLen d ->
  decodeOp d = (Ret op, d1) ->
  unpackLen d < u64 (decodedLen d + u64 (Len op)) ->
  let d' := snd (fill (S fuel) d) in
  fst (fill (S fuel) d) = Some (Fail tooLong) /\
  unpackLen d <> noUnpackLen /\
  dict d' = set_eof true (dict d) /\
  dd_buf (dict d') = dd_buf (dict d) /\
  total (dict d') = total (dict d) /\
  decodedLen d' = decodedLen d.
Proof.
  intros He Hr Hle E Hn d'. subst d'.
  rewrite (fill_rejects fuel d d1 op); trivial.
  destruct (decodeOp_frame _ _ _ E) as (_ & Hu & Hd & Hdict & _).
  simpl. rewrite Hdict. repeat split; trivial.
  pose proof (Z.mod_pos_bound (decodedLen d + u64 (Len op)) (2 ^ 64)
                ltac:(lia)) as Hb.
  unfold u64 in Hn at 1. unfold noUnpackLen. lia.
Qed.

(** ** Reading *)

(** A turn of the loop of [Read] in which the dictionary's [Read] returns
    an error. *)
Lemma readBody_dict_error (fuel : nat) (lenp : Z) (acc bs : list byte)
    (d : Decoder) (e : error) (dd : decoderDict) :
  Z.of_nat (length acc) <= lenp ->
  decoderDict_Read (dict d) (lenp - Z.of_nat (length acc))
    = ((bs, Some e), dd) ->
  readBody fuel lenp acc d =
    (Some
       (Done
          match e with
          | io_EOF =>
              match acc ++ bs with
              | [] => Returned [] (Some io_EOF)
              | _ => Returned (acc ++ bs) None
              end
          | _ => Returned (acc ++ bs) (Some (Errorf_LZMA e))
          end,
        acc ++ bs),
     set_dict dd d).
Proof.
  intros Hn E. unfold readBody.
  destruct (Z.ltb_spec lenp (Z.of_nat (length acc))); [lia|].
  rewrite E. simpl.
  destruct e; try reflexivity.
  rewrite <- Nat2Z.inj_add, <- length_app.
  destruct (acc ++ bs) as [|c rest]; [reflexivity|].
  destruct (Z.leb_spec (Z.of_nat (length (c :: rest))) 0) as [Hl|];
    [simpl in Hl; lia | reflexivity].
Qed.

(** A turn of the loop of [Read] in which [fill] returns an error. *)
Lemma readBody_fill_error (fuel : nat) (lenp : Z) (acc bs : list byte)
    (d d2 : Decoder) (e : error) (dd : decoderDict) :
  Z.of_nat (length acc) <= lenp ->
  decoderDict_Read (dict d) (lenp - Z.of_nat (length acc))
    = ((bs, None), dd) ->
  Z.of_nat (length (acc ++ bs)) <> lenp ->
  fill fuel (set_dict dd d) = (Some (Fail e), d2) ->
  readBody fuel lenp acc d =
    (Some (Done (Returned (acc ++ bs) (Some (Errorf_LZMA e))), acc ++ bs),
     d2).
Proof.
  intros Hn E Hne F. unfold readBody.
  destruct (Z.ltb_spec lenp (Z.of_nat (length acc))); [lia|].
  rewrite E. simpl.
  rewrite <- Nat2Z.inj_add, <- length_app.
  apply Z.eqb_neq in Hne. rewrite Hne, F. reflexivity.
Qed.

(** What a turn that ends [Read] can return. *)
Lemma readBody_returns (fuel : nat) (lenp : Z) (acc acc' data : list byte)
    (d d' : Decoder) (e : error) :
  readBody fuel lenp acc d = (Some (Done (Returned data (Some e)), acc'), d') ->
  (e = io_EOF /\ data = []) \/
  (exists e0,
     e = Errorf_LZMA e0 /\ (dictReadError e0 \/ fillError fuel e0)).
Proof.
  unfold readBody.
  destruct (lenp <? Z.of_nat (length acc)); [discriminate|].
  destruct (decoderDict_Read (dict d) (lenp - Z.of_nat (length acc)))
    as [[bs oe] dd] eqn:E.
  simpl.
  destruct oe as [e0|].
  - assert (Hw : e0 <> io_EOF -> dictReadError e0).
    { intros Hne. split; [exact Hne|]. eauto. }
    destruct e0;
      try (intros [= <- <- _ _]; right; eexists; split; [reflexivity|];
           left; apply Hw; discriminate).
    destruct (_ <=? 0); intros [= ? ? ? ?]; subst; auto.
  - destruct (_ =? lenp); [discriminate|].
    destruct (fill fuel (set_dict dd d)) as [[[u|e0|msg]|] d2] eqn:F;
      try discriminate.
    intros [= <- <- _ _]. right. exists e0. split; [reflexivity|].
    right. exists (set_dict dd d), d2. exact F.
Qed.

Lemma readLoop_returns (fuel turns : nat) (lenp : Z) (acc data : list byte)
    (d d' : Decoder) (e : error) :
  readLoop fuel turns lenp acc d = (Some (Returned data (Some e)), d') ->
  (e = io_EOF /\ data = []) \/
  (exists e0,
     e = Errorf_LZMA e0 /\ (dictReadError e0 \/ fillError fuel e0)).
Proof.
  revert acc d. induction turns as [|turns IH]; intros acc d; simpl.
  - discriminate.
  - destruct (readBody fuel lenp acc d) as [[[[|r] acc']|] d1] eqn:E.
    + apply IH.
    + intros [= -> <-]. eapply readBody_returns. exact E.
    + discriminate.
Qed.

Lemma readLoop_last_turn (fuel turns : nat) (lenp : Z) (acc acc' : list byte)
    (d d' : Decoder) (r : readResult) :
  readBody fuel lenp acc d = (Some (Done r, acc'), d') ->
  readLoop fuel (S turns) lenp acc d = (Some r, d').
Proof. intros E. simpl. now rewrite E. Qed.

(** C7.  [Read] returns [io.EOF] only together with zero bytes; every
    other error it returns is an error of the dictionary's [Read] or of
    [fill] wrapped with the prefix "LZMA - ".  Wherever its loop stands,
    with [acc] copied so far: when the dictionary's [Read] reports
    [io.EOF], [Read] returns [io.EOF] if no byte was copied and else the
    bytes copied with a nil error; another error of the dictionary's
    [Read], and an error of [fill], is returned wrapped. *)
Theorem Read_error_discipline (fuel : nat) (lenp : Z) :
  (forall turns d data e d',
     Read fuel turns lenp d = (Some (Returned data (Some e)), d') ->
     (e = io_EOF /\ data = []) \/
     (exists e0,
        e = Errorf_LZMA e0 /\
        Error e = ("LZMA - " ++ Error e0)%string /\
        (dictReadError e0 \/ fillError fuel e0))) /\
  (forall turns acc bs d dd,
     Z.of_nat (length acc) <= lenp ->
     decoderDict_Read (dict d) (lenp - Z.of_nat (length acc))
       = ((bs, Some io_EOF), dd) ->
     (acc ++ bs = [] ->
      readLoop fuel (S turns) lenp acc d
        = (Some (Returned [] (Some io_EOF)), set_dict dd d)) /\
     (acc ++ bs <> [] ->
      readLoop fuel (S turns) lenp acc d
        = (Some (Returned (acc ++ bs) None), set_dict dd d))) /\
  (forall turns acc bs d dd e,
     Z.of_nat (length acc) <= lenp ->
     decoderDict_Read (dict d) (lenp - Z.of_nat (length acc))
       = ((bs, Some e), dd) ->
     e <> io_EOF ->
     readLoop fuel (S turns) lenp acc d
       = (Some (Returned (acc ++ bs) (Some (Errorf_LZMA e))),
          set_dict dd d)) /\
  (forall turns acc bs d dd e d2,
     Z.of_nat (length acc) <= lenp ->
     decoderDict_Read (dict d) (lenp - Z.of_nat (length acc))
       = ((bs, None), dd) ->
     Z.of_nat (length (acc ++ bs)) <> lenp ->
     fill fuel (set_dict dd d) = (Some (Fail e), d2) ->
     readLoop fuel (S turns) lenp acc d
       = (Some (Returned (acc ++ bs) (Some (Errorf_LZMA e))), d2)).
Proof.
  split; [|split; [|split]].
  - intros turns d data e d' E. unfold Read in E.
    apply readLoop_returns in E.
    destruct E as [E | (e0 & -> & P)]; [left; exact E | right].
    exists e0. auto.
  - intros turns acc bs d dd Hn E.
    pose proof (readBody_dict_error fuel _ _ _ _ _ _ Hn E) as B.
    split; [intros Hnil | intros Hne].
    + rewrite Hnil in B. exact (readLoop_last_turn _ turns _ _ _ _ _ _ B).
    + destruct (acc ++ bs) as [|c rest]; [congruence|].
      exact (readLoop_last_turn _ turns _ _ _ _ _ _ B).
  - intros turns acc bs d dd e Hn E Hne.
    pose proof (readBody_dict_error fuel _ _ _ _ _ _ Hn E) as B.
    destruct e; [congruence|..];
      exact (readLoop_last_turn _ turns _ _ _ _ _ _ B).
  - intros turns acc bs d dd e d2 Hn E Hne F.
    eapply readLoop_last_turn.
    apply (readBody_fill_error _ _ _ _ _ _ _ _ Hn E Hne F).
Qed.

(** ** After an error *)

Lemma fill_at_eof (fuel : nat) (d : Decoder) :
  eof (dict d) = true -> fill fuel d = (Some (Ret tt), d).
Proof. intros He. unfold fill. now rewrite He. Qed.

(** C8, as the code has it.  The decoder keeps no record of an error it
    returned.  Once [fill] has rejected an op with "decoded stream too
    long" the dictionary's [eof] flag is set: every later [fill] returns
    nil without decoding, and a later [Read] whose dictionary read
    reports [io.EOF] returns [io.EOF] with zero bytes, or the bytes read
    with a nil error, not the earlier error. *)
Theorem Read_after_rejection (fuel : nat) (d d1 : Decoder) (op : operation) :
  eof (dict d) = false ->
  readable (dict d) < b (dict d) ->
  decodedLen d <= unpackLen d ->
  decodeOp d = (Ret op, d1) ->
  unpackLen d < u64 (decodedLen d + u64 (Len op)) ->
  let d' := snd (fill (S fuel) d) in
  fst (fill (S fuel) d) = Some (Fail tooLong) /\
  eof (dict d') = true /\
  (forall fuel', fill fuel' d' = (Some (Ret tt), d')) /\
  (forall fuel' turns lenp bs dd,
     0 <= lenp ->
     decoderDict_Read (dict d') lenp = ((bs, Some io_EOF), dd) ->
     Read fuel' (S turns) lenp d' =
       (Some match bs with
             | [] => Returned [] (Some io_EOF)
             | _ => Returned bs None
             end,
        set_dict dd d')).
Proof.
  intros He Hr Hle E Hn d'. subst d'.
  rewrite (fill_rejects fuel d d1 op); trivial. simpl.
  split; [reflexivity|]. split; [reflexivity|]. split.
  - intros fuel'. apply fill_at_eof. reflexivity.
  - intros fuel' turns lenp bs dd Hl ER.
    unfold Read. simpl readLoop.
    rewrite (readBody_dict_error fuel' lenp [] bs _ io_EOF dd);
      [reflexivity | simpl; lia |].
    simpl length. rewrite Z.sub_0_r. exact ER.
Qed.

End DecoderFacts.

(** * Properties of the encoder dictionaries *)

Section OldDict.
Context {ops : encoderDict.BufferOps}.

Lemma encoderDict_filterDistances_range (hpos n : Z) (positions : list Z) :
  Forall (fun d => 0 < d <= n) (encoderDict.filterDistances hpos n positions).
Proof.
  unfold encoderDict.filterDistances.
  assert (G : forall acc,
    Forall (fun d => 0 < d <= n) acc ->
    Forall (fun d => 0 < d <= n)
      (fold_left
         (fun distances pos =>
            let d := i64 (hpos - pos) in
            if (0 <? d) && (d <=? n) then distances ++ [d] else distances)
         positions acc)).
  { induction positions as [|pos rest IH]; intros acc Hacc; simpl.
    - exact Hacc.
    - apply IH.
      destruct (Z.ltb_spec 0 (i64 (hpos - pos)));
        destruct (Z.leb_spec (i64 (hpos - pos)) n); simpl; trivial.
      apply Forall_app. split; [exact Hacc|].
      constructor; [lia | constructor]. }
  apply G. constructor.
Qed.

(** The older [ByteAt] accepts every distance from 1 up to [Len()]
    included, and reads the buffer [distance] positions before the
    head. *)
Lemma encoderDict_ByteAt_in_range (e : encoderDict.t) (distance : Z) :
  0 < distance <= encoderDict.Len e ->
  encoderDict.ByteAt e distance =
    match encoderDict.buf_ReadByteAt (encoderDict.buf e)
            (i64 (encoderDict.Pos e - distance)) with
    | (_, Some err) => Panic ("ByteAt: error " ++ Error err)%string
    | (c, None) => Ret c
    end.
Proof.
  intros [H1 H2]. unfold encoderDict.ByteAt.
  apply Z.ltb_lt in H1. apply Z.leb_le in H2. now rewrite H1, H2.
Qed.

Lemma encoderDict_ByteAt_outside (e : encoderDict.t) (distance : Z) :
  distance <= 0 \/ encoderDict.Len e < distance ->
  encoderDict.ByteAt e distance = Ret x00.
Proof.
  intros Hd. unfold encoderDict.ByteAt.
  destruct (Z.ltb_spec 0 distance);
    destruct (Z.leb_spec distance (encoderDict.Len e)); simpl;
    trivial; lia.
Qed.

End OldDict.

Section NewDict.
Context {ops : EncoderDict.BufferOps} {T : Type} {mt : EncoderDict.matcher T}.

Lemma EncoderDict_filterDistances_range (hpos n : Z) (positions : list Z) :
  Forall (fun d => 0 < d <= n) (EncoderDict.filterDistances hpos n positions).
Proof.
  unfold EncoderDict.filterDistances.
  assert (G : forall acc,
    Forall (fun d => 0 < d <= n) acc ->
    Forall (fun d => 0 < d <= n)
      (fold_left
         (fun distances pos =>
            let d := i64 (hpos - pos) in
            if (0 <? d) && (d <=? n) then distances ++ [d] else distances)
         positions acc)).
  { induction positions as [|pos rest IH]; intros acc Hacc; simpl.
    - exact Hacc.
    - apply IH.
      destruct (Z.ltb_spec 0 (i64 (hpos - pos)));
        destruct (Z.leb_spec (i64 (hpos - pos)) n); simpl; trivial.
      apply Forall_app. split; [exact Hacc|].
      constructor; [lia | constructor]. }
  apply G. constructor.
Qed.

(** The newer [ByteAt] below [Len()]: the byte of the circular buffer
    [distance] slots behind [rear]. *)
Lemma EncoderDict_ByteAt_below_Len (ed : EncoderDict.t (T:=T)) (distance : Z) :
  0 < distance < EncoderDict.Len ed ->
  EncoderDict.ByteAt ed distance =
    let i := i64 (EncoderDict.rear (EncoderDict.buf ed) - distance) in
    let i :=
      if i <? 0
      then i64 (i + Z.of_nat (length (EncoderDict.data (EncoderDict.buf ed))))
      else i in
    if i <? 0 then Panic "index out of range"
    else
      match EncoderDict.data (EncoderDict.buf ed) !! Z.to_nat i with
      | Some c => Ret c
      | None => Panic "index out of range"
      end.
Proof.
  intros [H1 H2]. unfold EncoderDict.ByteAt.
  apply Z.ltb_lt in H1, H2. now rewrite H1, H2.
Qed.

Lemma EncoderDict_ByteAt_outside (ed : EncoderDict.t (T:=T)) (distance : Z) :
  distance <= 0 \/ EncoderDict.Len ed <= distance ->
  EncoderDict.ByteAt ed distance = Ret x00.
Proof.
  intros Hd. unfold EncoderDict.ByteAt.
  destruct (Z.ltb_spec 0 distance);
    destruct (Z.ltb_spec distance (EncoderDict.Len ed)); simpl;
    trivial; lia.
Qed.

End NewDict.

(** C5.  The older dictionary's [ByteAt] serves the distances 1 to
    [Len()] inclusive.  The newer dictionary's [ByteAt] guards with
    [distance < Len()]: at [distance = Len()] it returns 0 whatever the
    buffer holds.  With the single byte "a" in the dictionary, [Len()] is
    1 and the byte one slot behind the head is "a"; the older [ByteAt(1)]
    returns it, the newer [ByteAt(1)] returns 0. *)
Theorem EncoderDict_ByteAt_excludes_Len :
  (forall (ops : EncoderDict.BufferOps) (T : Type)
          (mt : EncoderDict.matcher T) (ed : EncoderDict.t),
     EncoderDict.ByteAt ed (EncoderDict.Len ed) = Ret x00) /\
  (EncoderDict.Len (ops:=Plain.ringOps) (mt:=Plain.tableMatcher)
     Plain.oneByte = 1 /\
   EncoderDict.data (EncoderDict.buf Plain.oneByte)
     !! Z.to_nat (EncoderDict.rear (EncoderDict.buf Plain.oneByte) - 1)
     = Some "a"%byte /\
   EncoderDict.ByteAt (ops:=Plain.ringOps) (mt:=Plain.tableMatcher)
     Plain.oneByte 1 = Ret x00) /\
  (encoderDict.Len (ops:=Plain.encOps) Plain.oneByteOld = 1 /\
   encoderDict.ByteAt (ops:=Plain.encOps) Plain.oneByteOld 1
     = Ret "a"%byte).
Proof.
  split; [|split].
  - intros ops T mt ed. apply EncoderDict_ByteAt_outside. lia.
  - repeat split.
  - repeat split.
Qed.

(** C9.  For both dictionaries every distance that [Matches] returns is
    greater than 0 and at most the dictionary length ([Len()] for the
    older type, [DictLen()] for the newer), and [Matches] returns nil
    when fewer bytes are buffered ahead of the head than the matcher's
    word length. *)
Theorem Matches_distances_in_range :
  (forall (ops : encoderDict.BufferOps) (e : encoderDict.t),
     (encoderDict.Buffered e < encoderDict.buf_WordLen (encoderDict.buf e) ->
      encoderDict.Matches e = Ret []) /\
     (forall ds,
        encoderDict.Matches e = Ret ds ->
        Forall (fun d => 0 < d <= encoderDict.Len e) ds)) /\
  (forall (ops : EncoderDict.BufferOps) (T : Type)
          (mt : EncoderDict.matcher T) (ed : EncoderDict.t),
     (EncoderDict.buf_Buffered (EncoderDict.buf ed)
        < EncoderDict.m_WordLen (EncoderDict.m ed) ->
      EncoderDict.Matches ed = Ret []) /\
     (forall ds,
        EncoderDict.Matches ed = Ret ds ->
        Forall (fun d => 0 < d <= EncoderDict.DictLen ed) ds)).
Proof.
  split.
  - intros ops e. split.
    + intros Hb. unfold encoderDict.Matches.
      apply Z.ltb_lt in Hb. now rewrite Hb.
    + intros ds. unfold encoderDict.Matches.
      destruct (_ <? _); [intros [= <-]; constructor|].
      destruct (_ <? 0); [discriminate|].
      destruct (encoderDict.buf_ReadAt _ _ _) as [p [err|]];
        intros [= <-]; [constructor|].
      apply encoderDict_filterDistances_range.
  - intros ops T mt ed. split.
    + intros Hb. unfold EncoderDict.Matches.
      apply Z.ltb_lt in Hb. now rewrite Hb.
    + intros ds. unfold EncoderDict.Matches.
      destruct (_ <? _); [intros [= <-]; constructor|].
      destruct (_ <? 0); [discriminate|].
      intros [= <-]. apply EncoderDict_filterDistances_range.
Qed.

(** * Further properties *)

(** ** Arithmetic of the machine integers *)

Lemma i64_small (x : Z) : - 2 ^ 63 <= x < 2 ^ 63 -> i64 x = x.
Proof. intros Hx. unfold i64. rewrite Z.mod_small by lia. lia. Qed.

Lemma i64_sub_self (x : Z) : i64 (x - i64 x) = 0.
Proof.
  unfold i64.
  replace (x - ((x + 2 ^ 63) mod 2 ^ 64 - 2 ^ 63) + 2 ^ 63)
    with (2 ^ 63 + (x + 2 ^ 63 - (x + 2 ^ 63) mod 2 ^ 64)) by lia.
  rewrite (Z.div_mod (x + 2 ^ 63) (2 ^ 64)) at 1 by lia.
  replace (2 ^ 63 + (2 ^ 64 * ((x + 2 ^ 63) / 2 ^ 64) + (x + 2 ^ 63) mod 2 ^ 64
                     - (x + 2 ^ 63) mod 2 ^ 64))
    with (2 ^ 63 + ((x + 2 ^ 63) / 2 ^ 64) * 2 ^ 64) by lia.
  rewrite Z.mod_add by lia. reflexivity.
Qed.

Lemma land_le_r (a m : Z) : 0 <= a -> 0 <= m -> Z.land a m <= m.
Proof.
  intros Ha Hm.
  rewrite <- (Z2N.id a), <- (Z2N.id m) by assumption.
  rewrite <- N2Z.inj_land. apply N2Z.inj_le, N.land_le_r.
Qed.

Lemma lor_disjoint_add (m n y : Z) :
  0 <= n -> 0 <= y < 2 ^ n -> Z.lor (m * 2 ^ n) y = m * 2 ^ n + y.
Proof.
  intros Hn Hy.
  rewrite <- Z.add_lor_land.
  assert (E : Z.land (m * 2 ^ n) y = 0).
  { apply Z.bits_inj'. intros k Hk.
    rewrite Z.land_spec, Z.bits_0.
    destruct (Z.lt_ge_cases k n) as [Hlt | Hge].
    - rewrite Z.mul_pow2_bits_low by assumption. reflexivity.
    - destruct (Z.eq_dec y 0) as [-> | Hne].
      + rewrite Z.bits_0. apply andb_false_r.
      + rewrite (Z.bits_above_log2 y k), andb_false_r; [reflexivity | lia |].
        apply Z.log2_lt_pow2; [lia|].
        apply Z.lt_le_trans with (2 ^ n); [lia|].
        apply Z.pow_le_mono_r; lia. }
  rewrite E. lia.
Qed.

(** ** The decoder never indexes out of range *)

Section DecoderRuns.
Context {shapes : Shapes} {methods : Methods}.

Lemma steady_refl d : steady d d.
Proof. repeat split. Qed.

Lemma steady_trans d1 d2 d3 : steady d1 d2 -> steady d2 d3 -> steady d1 d3.
Proof.
  unfold steady. intros (?&?&?&?&?&?&?&?&?) (?&?&?&?&?&?&?&?&?).
  repeat split; congruence.
Qed.

Lemma bind_inv {A B : Type} (m : M A) (k : A -> M B) d r d' :
  bind m k d = (r, d') ->
  (exists a d1, m d = (Ret a, d1) /\ k a d1 = (r, d')) \/
  (exists e, m d = (Fail e, d') /\ r = Fail e) \/
  (exists msg, m d = (Panic msg, d') /\ r = Panic msg).
Proof.
  unfold bind. destruct (m d) as [[a|e|msg] d1].
  - intros E. left. eauto.
  - intros [= <- <-]. right. left. eauto.
  - intros [= <- <-]. right. right. eauto.
Qed.

Lemma decodeBit_steady tbl set_tbl i d r d' :
  (forall v x rr, length v = length (tbl x) ->
                  steady x (set_rd rr (set_tbl v x))) ->
  decodeBit tbl set_tbl i d = (r, d') ->
  steady d d' /\
  ((Z.to_nat i < length (tbl d))%nat -> forall msg, r <> Panic msg).
Proof.
  intros Hset. unfold decodeBit.
  destruct (tbl d !! Z.to_nat i) as [p|] eqn:L.
  - destruct (prob_Decode p (rd d)) as [[[v [e|]] p'] rd'];
      intros [= <- <-]; (split; [apply Hset, length_insert | discriminate]).
  - intros [= <- <-]. split; [apply steady_refl|].
    intros Hlt. apply lookup_ge_None in L. lia.
Qed.

Lemma decodeLiteral_steady d r d' :
  decodeLiteral d = (r, d') ->
  steady d d' /\ (forall msg, r <> Panic msg) /\
  (forall op, r = Ret op -> exists s, op = lit s).
Proof.
  unfold decodeLiteral.
  destruct (literalCodec_Decode _ _ _ _ _) as [[[s [e|]] c'] rd'];
    intros [= <- <-]; (split; [repeat split|]); split;
    try discriminate.
  intros op [= <-]. eauto.
Qed.

Lemma decodeLength_steady ps d r d' :
  decodeLength ps d = (r, d') ->
  steady d d' /\ (forall msg, r <> Panic msg) /\
  (typedCodecs -> forall l, r = Ret l -> isUint32 l).
Proof.
  unfold decodeLength.
  pose proof (fun T : typedCodecs => proj1 T (lengthDecoder d) (rd d) ps) as Ty.
  destruct (lengthCodec_Decode _ _ _) as [[[v [e|]] c'] rd'];
    intros [= <- <-]; (split; [repeat split|]); split;
    try discriminate.
  intros T l [= <-]. apply (Ty T).
Qed.

Lemma decodeRepLength_steady ps d r d' :
  decodeRepLength ps d = (r, d') ->
  steady d d' /\ (forall msg, r <> Panic msg) /\
  (typedCodecs -> forall l, r = Ret l -> isUint32 l).
Proof.
  unfold decodeRepLength.
  pose proof (fun T : typedCodecs => proj1 T (repLengthDecoder d) (rd d) ps) as Ty.
  destruct (lengthCodec_Decode _ _ _) as [[[v [e|]] c'] rd'];
    intros [= <- <-]; (split; [repeat split|]); split;
    try discriminate.
  intros T l [= <-]. apply (Ty T).
Qed.

(** The distance decoder writes [rep[0]] and nothing else of the history. *)
Lemma decodeDist_spec l d r d' :
  decodeDist l d = (r, d') ->
  steady d (set_rep (reph d) d') /\
  rep1 (reph d') = rep1 (reph d) /\
  rep2 (reph d') = rep2 (reph d) /\
  rep3 (reph d') = rep3 (reph d) /\
  (forall msg, r <> Panic msg) /\
  (typedCodecs -> isUint32 (rep0 (reph d'))).
Proof.
  unfold decodeDist.
  pose proof (fun T : typedCodecs => proj2 T (distDecoder d) l (rd d)) as Ty.
  destruct (distCodec_Decode _ _ _) as [[[v [e|]] c'] rd'];
    intros [= <- <-]; simpl;
    (split; [repeat split|]); do 3 (split; [reflexivity|]);
    (split; [discriminate|]); intros T; apply (Ty T).
Qed.




Lemma state2_in_range (d : Decoder) :
  wellFormed d -> (Z.to_nat (state2Of d) < 192)%nat.
Proof.
  intros (Hs & Hm & _).
  unfold state2Of, posStateOf, shl32, maxPosBits.
  assert (Hp : 0 <= Z.land (u32 (total (dict d))) (posBitMask d) <= 15).
  { assert (H32 : 0 < 2 ^ 32) by lia.
    pose proof (Z.mod_pos_bound (total (dict d)) (2 ^ 32) H32).
    split.
    - apply Z.land_nonneg. right. lia.
    - etransitivity; [apply land_le_r; unfold u32; lia | lia]. }
  rewrite Z.shiftl_mul_pow2 by lia.
  unfold u32 at 1. rewrite (Z.mod_small (state d * 2 ^ 4)) by lia.
  rewrite lor_disjoint_add by lia. lia.
Qed.


Ltac walk H :=
  repeat first
    [ rewrite bind_assoc in H
    | rewrite bind_gets in H
    | rewrite bind_modify in H
    | rewrite bind_ret in H ];
  cbv beta in H; unfold id in H.

Ltac split_bind H E :=
  let a := fresh "a" in
  let d1 := fresh "d" in
  let err := fresh "err" in
  let msg := fresh "msg" in
  apply bind_inv in H;
  destruct H as [(a & d1 & E & H) | [(err & E & ->) | (msg & E & ->)]].

Ltac leaf H := unfold ret, fail in H; injection H as <- <-.

Ltac tidy :=
  repeat match goal with
         | H : _ /\ _ |- _ => destruct H
         | H : (_ =? _) = true |- _ => apply Z.eqb_eq in H
         | H : (_ =? _) = false |- _ => apply Z.eqb_neq in H
         | H : ?x = ?x |- _ => clear H
         | H : reph ?x = _ |- _ => is_var x; rewrite H in *; clear H
         | H : Ret _ = Ret _ |- _ => injection H as H
         end;
  simpl in *.

Ltac wf_solve :=
  unfold wellFormed, steady, repsTyped, isUint32,
    updateStateLiteral, updateStateMatch, updateStateRep,
    updateStateShortRep, u32, minLength, minDistance in *;
  repeat match goal with
         | H : context [?a <? ?b] |- _ => destruct (Z.ltb_spec a b)
         | |- context [?a <? ?b] => destruct (Z.ltb_spec a b)
         end;
  simpl in *; tidy;
  repeat split; intros; repeat split; tidy;
  try discriminate; try congruence;
  repeat match goal with
         | T : typedCodecs -> _, H : typedCodecs |- _ => specialize (T H)
         | T : forall l, Ret ?a = Ret l -> _ |- _ => specialize (T a eq_refl)
         end;
  tidy;
  rewrite ?Z.mod_small by lia;
  repeat match goal with
         | |- context [i64 ?x] => rewrite (i64_small x) by lia
         end;
  try lia.

Ltac prim_step H lem S T :=
  let E := fresh "E" in
  let NP := fresh "NP" in
  split_bind H E; apply lem in E; destruct E as (S & NP & T);
  [ clear NP | clear NP | exfalso; eapply NP; reflexivity ].

Ltac bit_step H S :=
  let E := fresh "E" in
  let NP := fresh "NP" in
  split_bind H E;
  (apply decodeBit_steady in E;
   [| intros ? ? ? ?; repeat split; simpl; assumption]);
  destruct E as (S & NP);
  [ clear NP | clear NP
  | exfalso; eapply NP; [|reflexivity]; wf_solve ].

Lemma simpleMatch_spec ps d r d' :
  wellFormed d ->
  simpleMatch ps d = (r, d') ->
  wellFormed d' /\ (forall msg, r <> Panic msg) /\
  match r with
  | Ret (lit _) => False
  | Ret (rep _ _) => 7 <= state d'
  | _ => True
  end /\
  (typedCodecs -> repsTyped (reph d) ->
   repsTyped (reph d') /\
   match r with
   | Ret (rep l dist) => 2 <= l <= 2 ^ 32 + 1 /\ 1 <= dist <= 2 ^ 32
   | _ => True
   end).
Proof.
  intros Hwf H. unfold simpleMatch in H. walk H.
  prim_step H decodeLength_steady S1 T1; [|wf_solve].
  walk H. split_bind H E2;
    apply decodeDist_spec in E2;
    destruct E2 as (S2 & R1 & R2 & R3 & NP & T2);
    [| wf_solve | exfalso; eapply NP; reflexivity].
  walk H.
  destruct (rep0 (reph d1) =? 4294967295) eqn:Hm.
  - destruct (negb (possiblyAtEnd (rd d1))); leaf H; wf_solve.
  - leaf H. wf_solve.
Qed.

Lemma repMatch_spec ps s2 d r d' :
  wellFormed d ->
  (Z.to_nat s2 < 192)%nat ->
  repMatch ps s2 d = (r, d') ->
  wellFormed d' /\ (forall msg, r <> Panic msg) /\
  match r with
  | Ret (lit _) => False
  | Ret (rep _ _) => 7 <= state d'
  | _ => True
  end /\
  (typedCodecs -> repsTyped (reph d) ->
   repsTyped (reph d') /\
   match r with
   | Ret (rep l dist) => 1 <= l <= 2 ^ 32 + 1 /\ 1 <= dist <= 2 ^ 32
   | _ => True
   end).
Proof.
  intros Hwf Hs2 H. unfold repMatch in H. walk H.
  bit_step H S0; [|wf_solve]. walk H.
  destruct (a =? 0).
  - walk H. bit_step H Sl; [|wf_solve]. walk H.
    destruct (a0 =? 0); walk H.
    + leaf H. wf_solve.
    + prim_step H decodeRepLength_steady S5 T5; [|wf_solve].
      walk H. leaf H. wf_solve.
  - walk H. bit_step H S1; [|wf_solve]. walk H.
    destruct (a0 =? 0); walk H.
    + prim_step H decodeRepLength_steady S5 T5; [|wf_solve].
      walk H. leaf H. wf_solve.
    + bit_step H S2; [|wf_solve]. walk H.
      destruct (a1 =? 0); walk H.
      * prim_step H decodeRepLength_steady S5 T5; [|wf_solve].
        walk H. leaf H. wf_solve.
      * prim_step H decodeRepLength_steady S5 T5; [|wf_solve].
        walk H. leaf H. wf_solve.
Qed.


Lemma steady_wellFormed d d' : steady d d' -> wellFormed d -> wellFormed d'.
Proof. intros S W. wf_solve. Qed.

Lemma decodeOp_spec d r d' :
  wellFormed d ->
  decodeOp d = (r, d') ->
  wellFormed d' /\ (forall msg, r <> Panic msg) /\
  match r with
  | Ret (lit _) => state d' <= 6 /\ reph d' = reph d
  | Ret (rep _ _) => 7 <= state d'
  | _ => True
  end /\
  (typedCodecs -> repsTyped (reph d) ->
   repsTyped (reph d') /\
   match r with
   | Ret (rep l dist) => 1 <= l <= 2 ^ 32 + 1 /\ 1 <= dist <= 2 ^ 32
   | _ => True
   end).
Proof.
  intros Hwf H. pose proof (state2_in_range d Hwf) as Hs2.
  unfold decodeOp in H. rewrite 2 bind_gets in H. cbv beta in H.
  fold (posStateOf d) in H. fold (state2Of d) in H.
  set (s2 := state2Of d) in *. set (ps := posStateOf d) in *.
  clearbody s2 ps.
  bit_step H S0; [|wf_solve].
  destruct (a =? 0).
  - walk H.
    prim_step H decodeLiteral_steady S1 T1; [|wf_solve].
    destruct (T1 _ eq_refl) as [s ->]. clear T1.
    walk H. leaf H. wf_solve.
  - walk H. bit_step H S1; [|wf_solve].
    pose proof (steady_wellFormed _ _ S0 Hwf) as W0.
    pose proof (steady_wellFormed _ _ S1 W0) as W1.
    assert (R : reph d1 = reph d).
    { destruct S0 as (_ & R0 & _), S1 as (_ & R1 & _). congruence. }
    destruct (a0 =? 0).
    + destruct (simpleMatch_spec _ _ _ _ W1 H) as (W & NP & K & T).
      split; [exact W|]. split; [exact NP|]. split.
      * destruct r as [[s|l dist]|e|msg]; trivial. contradiction.
      * intros Ty Rt. rewrite <- R in Rt. destruct (T Ty Rt) as [Rt' Sh].
        split; [exact Rt'|].
        destruct r as [[s|l dist]|e|msg]; trivial. lia.
    + assert (Hs2' : (Z.to_nat s2 < 192)%nat) by exact Hs2.
      destruct (repMatch_spec _ _ _ _ _ W1 Hs2' H) as (W & NP & K & T).
      split; [exact W|]. split; [exact NP|]. split.
      * destruct r as [[s|l dist]|e|msg]; trivial. contradiction.
      * intros Ty Rt. rewrite <- R in Rt. exact (T Ty Rt).
Qed.




Lemma wellFormed_set_dict dd d : wellFormed d -> wellFormed (set_dict dd d).
Proof. intros W. exact W. Qed.

Lemma wellFormed_set_decodedLen n d :
  wellFormed d -> wellFormed (set_decodedLen n d).
Proof. intros W. exact W. Qed.

Lemma fillBody_wellFormed d r d' :
  wellFormed d ->
  fillBody d = (r, d') ->
  wellFormed d' /\
  (forall msg, r = Done (Panic msg) -> msg = overflowMsg).
Proof.
  intros W. unfold fillBody.
  destruct (decodeOp d) as [[op|e|msg] d1] eqn:E;
    destruct (decodeOp_spec _ _ _ W E) as (W1 & NP & _).
  - set (n := u64 (decodedLen d1 + u64 (Len op))).
    destruct (n <? decodedLen d1).
    { intros [= <- <-]. split; [exact W1|]. now intros msg [= <-]. }
    destruct (n >? unpackLen d1).
    { intros [= <- <-]. split; [exact W1 | discriminate]. }
    destruct (applyDecoderDict op (dict (set_decodedLen n d1))) as [[e|] dd].
    { intros [= <- <-]. split; [exact W1 | discriminate]. }
    destruct (n =? _); intros [= <- <-]; (split; [exact W1 | discriminate]).
  - destruct e; try (intros [= <- <-]; split; [exact W1 | discriminate]).
    destruct (_ && _); intros [= <- <-]; (split; [exact W1 | discriminate]).
  - exfalso. eapply NP. reflexivity.
Qed.

Lemma fillLoop_wellFormed fuel d :
  wellFormed d ->
  wellFormed (snd (fillLoop fuel d)) /\
  (forall msg, fst (fillLoop fuel d) = Some (Panic msg) -> msg = overflowMsg).
Proof.
  revert d. induction fuel as [|fuel IH]; intros d W; simpl.
  - split; [exact W | discriminate].
  - destruct (readable (dict d) <? b (dict d)); [|split; [exact W | discriminate]].
    destruct (fillBody d) as [[|r] d1] eqn:E;
      destruct (fillBody_wellFormed _ _ _ W E) as (W1 & P).
    + apply IH, W1.
    + split; [exact W1|]. simpl. intros msg [= ->]. now apply P.
Qed.

Lemma fill_wellFormed fuel d :
  wellFormed d ->
  wellFormed (snd (fill fuel d)) /\
  (forall msg, fst (fill fuel d) = Some (Panic msg) -> msg = overflowMsg).
Proof.
  intros W. unfold fill. destruct (eof (dict d)).
  - split; [exact W | discriminate].
  - apply fillLoop_wellFormed, W.
Qed.

Lemma fillBody_sound d r d' :
  typedCodecs -> sound d ->
  fillBody d = (r, d') ->
  sound d' /\ (forall msg, r <> Done (Panic msg)).
Proof.
  intros Ty (W & Rt & Hd & Hu). unfold fillBody.
  destruct (decodeOp d) as [[op|e|msg] d1] eqn:E;
    destruct (decodeOp_spec _ _ _ W E) as (W1 & NP & _ & T);
    destruct (T Ty Rt) as (Rt1 & Sh);
    destruct (decodeOp_frame _ _ _ E) as (_ & Fu & Fd & _).
  - set (n := u64 (decodedLen d1 + u64 (Len op))).
    assert (Hl : 1 <= Len op <= 2 ^ 32 + 1).
    { destruct op as [s|l dist]; simpl; lia. }
    assert (Hn : n = decodedLen d + Len op).
    { subst n. unfold u64. rewrite (Z.mod_small (Len op)) by lia.
      rewrite Fd. apply Z.mod_small. lia. }
    destruct (Z.ltb_spec n (decodedLen d1)); [lia|].
    destruct (n >? unpackLen d1) eqn:Hgt.
    { intros [= <- <-]. split; [|discriminate].
      repeat split; simpl; trivial; try apply W1; try apply Rt1; lia. }
    rewrite Z.gtb_ltb in Hgt. apply Z.ltb_ge in Hgt.
    destruct (applyDecoderDict op (dict (set_decodedLen n d1))) as [[e|] dd].
    { intros [= <- <-]. split; [|discriminate].
      repeat split; simpl; trivial; try apply W1; try apply Rt1; lia. }
    destruct (n =? _); intros [= <- <-]; (split; [|discriminate]);
      repeat split; simpl; trivial; try apply W1; try apply Rt1; lia.
  - assert (S1 : sound d1).
    { repeat split; trivial; try apply W1; try apply Rt1; lia. }
    destruct e; try (intros [= <- <-]; split; [exact S1 | discriminate]).
    destruct (_ && _); intros [= <- <-]; (split; [|discriminate]);
      [exact S1 | exact S1].
  - exfalso. eapply NP. reflexivity.
Qed.


Lemma fillLoop_sound fuel d :
  typedCodecs -> sound d ->
  sound (snd (fillLoop fuel d)) /\
  (forall msg, fst (fillLoop fuel d) <> Some (Panic msg)).
Proof.
  intros Ty. revert d. induction fuel as [|fuel IH]; intros d S; simpl.
  - split; [exact S | discriminate].
  - destruct (readable (dict d) <? b (dict d)); [|split; [exact S | discriminate]].
    destruct (fillBody d) as [[|r] d1] eqn:E;
      destruct (fillBody_sound _ _ _ Ty S E) as (S1 & P).
    + apply IH, S1.
    + split; [exact S1|]. simpl. intros msg [= ->]. now apply (P msg).
Qed.

Lemma fill_sound fuel d :
  typedCodecs -> sound d ->
  sound (snd (fill fuel d)) /\
  (forall msg, fst (fill fuel d) <> Some (Panic msg)).
Proof.
  intros Ty S. unfold fill. destruct (eof (dict d)).
  - split; [exact S | discriminate].
  - now apply fillLoop_sound.
Qed.

Lemma fillLoop_nil fuel d :
  fst (fillLoop fuel d) = Some (Ret tt) ->
  let d' := snd (fillLoop fuel d) in
  eof (dict d') = true \/ b (dict d') <= readable (dict d').
Proof.
  revert d. induction fuel as [|fuel IH]; intros d; simpl.
  - discriminate.
  - destruct (Z.ltb_spec (readable (dict d)) (b (dict d))); [|right; simpl; lia].
    destruct (fillBody d) as [[|r] d1] eqn:E.
    + apply IH.
    + simpl. intros [= ->]. left. revert E. unfold fillBody.
      destruct (decodeOp d) as [[op|e|msg] d0].
      * destruct (_ <? _); [discriminate|].
        destruct (_ >? _); [discriminate|].
        destruct (applyDecoderDict _ _) as [[e|] dd]; [discriminate|].
        destruct (_ =? _); [|discriminate].
        intros [= <-]. reflexivity.
      * destruct e; try discriminate.
        destruct (_ && _); [discriminate|].
        intros [= <-]. reflexivity.
      * discriminate.
Qed.

Lemma sound_set_dict dd d : sound d -> sound (set_dict dd d).
Proof. intros S. exact S. Qed.

Lemma readBody_kept fuel lenp acc d res d' :
  readsWithinBounds ->
  Z.of_nat (length acc) <= lenp ->
  readBody fuel lenp acc d = (Some res, d') ->
  Z.of_nat (length (snd res)) <= lenp /\
  match fst res with
  | Done (Returned data _) => Z.of_nat (length data) <= lenp
  | Done (Panicked msg) =>
      exists dd, fst (fill fuel (set_dict dd d)) = Some (Panic msg)
  | Next => True
  end.
Proof.
  intros Hc Hn. unfold readBody.
  destruct (Z.ltb_spec lenp (Z.of_nat (length acc))); [lia|].
  pose proof (Hc (dict d) (lenp - Z.of_nat (length acc)) ltac:(lia)) as Hk.
  destruct (decoderDict_Read (dict d) (lenp - Z.of_nat (length acc)))
    as [[bs oe] dd].
  simpl in *.
  assert (Hl : Z.of_nat (length (acc ++ bs)) <= lenp).
  { rewrite length_app. lia. }
  destruct oe as [e|].
  - destruct e; try (intros [= <- <-]; simpl; split; assumption).
    destruct (_ <=? 0); intros [= <- <-]; simpl; (split; [assumption|]);
      [simpl; lia | assumption].
  - destruct (_ =? lenp).
    { intros [= <- <-]. simpl. split; assumption. }
    destruct (fill fuel (set_dict dd d)) as [[[u|e|msg]|] d2] eqn:F;
      try discriminate; intros [= <- <-]; simpl; (split; [assumption|]);
      trivial.
    exists dd. now rewrite F.
Qed.

Lemma readBody_sound fuel lenp acc d res d' :
  typedCodecs -> sound d ->
  readBody fuel lenp acc d = (res, d') ->
  sound d' /\
  (forall msg acc', res = Some (Done (Panicked msg), acc') ->
                    msg = "slice bounds out of range"%string
                    /\ lenp < Z.of_nat (length acc)).
Proof.
  intros Ty S. unfold readBody.
  destruct (Z.ltb_spec lenp (Z.of_nat (length acc))).
  { intros [= <- <-]. split; [exact S|]. intros msg acc' [= <- _]. auto. }
  destruct (decoderDict_Read (dict d) (lenp - Z.of_nat (length acc)))
    as [[bs oe] dd].
  simpl.
  pose proof (sound_set_dict dd d S) as S1.
  destruct oe as [e|].
  - destruct e; try (intros [= <- <-]; split; [exact S1 | discriminate]).
    destruct (_ <=? 0); intros [= <- <-]; (split; [exact S1 | discriminate]).
  - destruct (_ =? lenp).
    { intros [= <- <-]. split; [exact S1 | discriminate]. }
    destruct (fill_sound fuel _ Ty S1) as (S2 & NP).
    destruct (fill fuel (set_dict dd d)) as [[[u|e|msg]|] d2] eqn:F;
      intros [= <- <-]; simpl in *;
      try (split; [exact S2 | discriminate]).
    exfalso. now apply (NP msg).
Qed.

Lemma readLoop_kept fuel turns lenp acc d r d' :
  readsWithinBounds ->
  Z.of_nat (length acc) <= lenp ->
  readLoop fuel turns lenp acc d = (Some r, d') ->
  match r with
  | Returned data _ => Z.of_nat (length data) <= lenp
  | Panicked msg => exists d0, fst (fill fuel d0) = Some (Panic msg)
  end.
Proof.
  intros Hc. revert acc d. induction turns as [|turns IH]; intros acc d Hn;
    simpl.
  - discriminate.
  - destruct (readBody fuel lenp acc d) as [[[fl acc']|] d1] eqn:E;
      [|discriminate].
    destruct (readBody_kept _ _ _ _ _ _ Hc Hn E) as (Hl & K). simpl in *.
    destruct fl as [|r0].
    + apply IH, Hl.
    + intros [= -> <-]. destruct r as [data err|msg]; [exact K|].
      destruct K as [dd K]. eauto.
Qed.

Lemma readLoop_sound fuel turns lenp acc d :
  typedCodecs -> readsWithinBounds -> sound d ->
  Z.of_nat (length acc) <= lenp ->
  sound (snd (readLoop fuel turns lenp acc d)) /\
  (forall msg, fst (readLoop fuel turns lenp acc d) <> Some (Panicked msg)).
Proof.
  intros Ty Hc. revert acc d.
  induction turns as [|turns IH]; intros acc d S Hn; simpl.
  - split; [exact S | discriminate].
  - destruct (readBody fuel lenp acc d) as [[[fl acc']|] d1] eqn:E.
    + destruct (readBody_sound _ _ _ _ _ _ Ty S E) as (S1 & P).
      destruct (readBody_kept _ _ _ _ _ _ Hc Hn E) as (Hl & _).
      simpl in Hl. destruct fl as [|r0].
      * apply IH; assumption.
      * split; [exact S1|]. simpl. intros msg [= ->].
        destruct (P msg acc' eq_refl). lia.
    + destruct (readBody_sound _ _ _ _ _ _ Ty S E) as (S1 & _).
      split; [exact S1 | discriminate].
Qed.

Lemma readBody_wellFormed fuel lenp acc d res d' :
  wellFormed d ->
  readBody fuel lenp acc d = (res, d') ->
  wellFormed d' /\
  (forall msg acc', res = Some (Done (Panicked msg), acc') ->
                    msg = overflowMsg \/ lenp < Z.of_nat (length acc)).
Proof.
  intros W. unfold readBody.
  destruct (Z.ltb_spec lenp (Z.of_nat (length acc))).
  { intros [= <- <-]. split; [exact W|]. intros msg acc' _. now right. }
  destruct (decoderDict_Read (dict d) (lenp - Z.of_nat (length acc)))
    as [[bs oe] dd].
  simpl.
  pose proof (wellFormed_set_dict dd d W) as W1.
  destruct oe as [e|].
  - destruct e; try (intros [= <- <-]; split; [exact W1 | discriminate]).
    destruct (_ <=? 0); intros [= <- <-]; (split; [exact W1 | discriminate]).
  - destruct (_ =? lenp).
    { intros [= <- <-]. split; [exact W1 | discriminate]. }
    destruct (fill_wellFormed fuel _ W1) as (W2 & P).
    destruct (fill fuel (set_dict dd d)) as [[[u|e|msg]|] d2] eqn:F;
      intros [= <- <-]; simpl in *;
      try (split; [exact W2 | discriminate]).
    split; [exact W2|]. intros msg0 acc' [= <- _]. left. now apply P.
Qed.

Lemma readLoop_wellFormed fuel turns lenp acc d :
  readsWithinBounds -> wellFormed d ->
  Z.of_nat (length acc) <= lenp ->
  wellFormed (snd (readLoop fuel turns lenp acc d)) /\
  (forall msg, fst (readLoop fuel turns lenp acc d) = Some (Panicked msg) ->
               msg = overflowMsg).
Proof.
  intros Hc. revert acc d.
  induction turns as [|turns IH]; intros acc d W Hn; simpl.
  - split; [exact W | discriminate].
  - destruct (readBody fuel lenp acc d) as [[[fl acc']|] d1] eqn:E.
    + destruct (readBody_wellFormed _ _ _ _ _ _ W E) as (W1 & P).
      destruct (readBody_kept _ _ _ _ _ _ Hc Hn E) as (Hl & _).
      simpl in Hl. destruct fl as [|r0].
      * apply IH; assumption.
      * split; [exact W1|]. simpl. intros msg [= ->].
        destruct (P msg acc' eq_refl); [assumption | lia].
    + destruct (readBody_wellFormed _ _ _ _ _ _ W E) as (W1 & _).
      split; [exact W1 | discriminate].
Qed.

(** X1.  On a well-formed decoder (state at most 11, position mask at
    most 15, probability arrays of their declared sizes) [decodeOp] never
    panics: every index into [isMatch], [isRep], [isRepG0], [isRepG1],
    [isRepG2] and [isRepG0Long] is in range.  The decoder it leaves,
    whether it returns an op or an error, is well formed again. *)
Theorem decodeOp_never_panics d r d' :
  wellFormed d ->
  decodeOp d = (r, d') ->
  wellFormed d' /\ forall msg, r <> Panic msg.
Proof.
  intros W E. destruct (decodeOp_spec _ _ _ W E) as (W' & NP & _).
  split; assumption.
Qed.

(** X2.  When the length and distance codecs return [uint32] values and
    the rep history holds [uint32] values, so does the history after
    [decodeOp].  A literal leaves the history as it was and the state at
    most 6; a match has a length between 1 and 2^32 + 1 and a distance
    between 1 and 2^32, and leaves the state at 7 or more. *)
Theorem decodeOp_op_in_range d r d' :
  typedCodecs -> wellFormed d -> repsTyped (reph d) ->
  decodeOp d = (r, d') ->
  repsTyped (reph d') /\
  match r with
  | Ret (lit _) => reph d' = reph d /\ state d' <= 6
  | Ret (rep l dist) =>
      1 <= l <= 2 ^ 32 + 1 /\ 1 <= dist <= 2 ^ 32 /\ 7 <= state d'
  | _ => True
  end.
Proof.
  intros Ty W Rt E.
  destruct (decodeOp_spec _ _ _ W E) as (_ & _ & K & T).
  destruct (T Ty Rt) as (Rt' & Sh).
  split; [exact Rt'|].
  destruct r as [[s|l dist]|e|msg]; trivial.
  - destruct K. split; assumption.
  - destruct Sh. repeat split; trivial; lia.
Qed.

(** X3.  [fill] keeps a well-formed decoder well formed, and the only
    panic it can end in is its own guard "negative op length or overflow
    of decodedLen". *)
Theorem fill_panics_only_on_overflow fuel d :
  wellFormed d ->
  wellFormed (snd (fill fuel d)) /\
  (forall msg, fst (fill fuel d) = Some (Panic msg) -> msg = overflowMsg).
Proof. apply fill_wellFormed. Qed.

(** X4.  When the announced length is below 2^63, the decoded length is
    at most the announced length and the codecs return [uint32] values,
    [fill] does not panic at all, and all of this holds again when it
    returns: the overflow guard of [fill] cannot fire. *)
Theorem fill_never_panics fuel d :
  typedCodecs -> sound d ->
  sound (snd (fill fuel d)) /\
  (forall msg, fst (fill fuel d) <> Some (Panic msg)).
Proof. apply fill_sound. Qed.

(** X5.  When [fill] returns nil, the dictionary is at its end ([eof] is
    set) or holds at least the [b] readable bytes asked for. *)
Theorem fill_nil_means_ready fuel d :
  fst (fill fuel d) = Some (Ret tt) ->
  eof (dict (snd (fill fuel d))) = true \/
  b (dict (snd (fill fuel d))) <= readable (dict (snd (fill fuel d))).
Proof.
  unfold fill. destruct (eof (dict d)) eqn:E.
  - intros _. left. exact E.
  - apply fillLoop_nil.
Qed.

(** X6.  When the dictionary's [Read] copies no more bytes than the
    slice it is given holds, [Read] on a well-formed decoder returns at
    most [len(p)] bytes, its slice expression [p[n:]] is always in
    bounds, and the only panic that can come out of it is the overflow
    guard of [fill].  The decoder stays well formed. *)
Theorem Read_within_buffer fuel turns lenp d :
  readsWithinBounds -> wellFormed d -> 0 <= lenp ->
  wellFormed (snd (Read fuel turns lenp d)) /\
  (forall data err,
     fst (Read fuel turns lenp d) = Some (Returned data err) ->
     Z.of_nat (length data) <= lenp) /\
  (forall msg,
     fst (Read fuel turns lenp d) = Some (Panicked msg) ->
     msg = overflowMsg).
Proof.
  intros Hc W Hl. unfold Read.
  destruct (readLoop_wellFormed fuel turns lenp [] d Hc W Hl) as (W' & P).
  split; [exact W'|]. split; [|exact P].
  intros data err E.
  destruct (readLoop fuel turns lenp [] d) as [r d'] eqn:ER.
  simpl in E. subst r.
  exact (readLoop_kept fuel turns lenp [] d _ d' Hc Hl ER).
Qed.

(** X7.  For a stream whose announced length is below 2^63, with codecs
    that return [uint32] values and a dictionary whose [Read] copies no
    more than it is given room for, [Read] never panics, and the decoded
    length stays at most the announced length. *)
Theorem Read_never_panics fuel turns lenp d :
  typedCodecs -> readsWithinBounds -> sound d -> 0 <= lenp ->
  sound (snd (Read fuel turns lenp d)) /\
  (forall msg, fst (Read fuel turns lenp d) <> Some (Panicked msg)).
Proof.
  intros Ty Hc S Hl. unfold Read. now apply readLoop_sound.
Qed.

End DecoderRuns.

(** ** Construction and the little-endian length *)

Lemma byteZ_range (c : byte) : 0 <= byteZ c < 256.
Proof.
  unfold byteZ. pose proof (Byte.to_N_bounded c) as Hb.
  lia.
Qed.

Lemma byteZ_inj (c c' : byte) : byteZ c = byteZ c' -> c = c'.
Proof.
  unfold byteZ. intros E. apply N2Z.inj in E.
  pose proof (Byte.of_to_N c) as Hc. rewrite E, Byte.of_to_N in Hc.
  congruence.
Qed.

Lemma leValue_range (l : list byte) :
  0 <= leValue l < 256 ^ Z.of_nat (length l).
Proof.
  induction l as [|c rest IH].
  - simpl. lia.
  - cbn [leValue length]. pose proof (byteZ_range c).
    rewrite Nat2Z.inj_succ, Z.pow_succ_r by lia. lia.
Qed.

Lemma shl64_byte (c : byte) (n : Z) :
  0 <= n <= 56 -> shl64 (byteZ c) n = byteZ c * 2 ^ n.
Proof.
  intros Hn. unfold shl64, u64. rewrite Z.shiftl_mul_pow2 by lia.
  apply Z.mod_small. pose proof (byteZ_range c).
  assert (2 ^ n <= 2 ^ 56) by (apply Z.pow_le_mono_r; lia).
  assert (0 < 2 ^ n) by (apply Z.pow_pos_nonneg; lia).
  nia.
Qed.

Lemma getUint64LE_leValue (b0 b1 b2 b3 b4 b5 b6 b7 : byte) (rest : list byte) :
  getUint64LE (b0 :: b1 :: b2 :: b3 :: b4 :: b5 :: b6 :: b7 :: rest)
  = Ret (leValue [b0; b1; b2; b3; b4; b5; b6; b7]).
Proof.
  unfold getUint64LE, index, andThen. cbn [lookup list_lookup leValue].
  rewrite !shl64_byte by lia.
  pose proof (byteZ_range b0). pose proof (byteZ_range b1).
  pose proof (byteZ_range b2). pose proof (byteZ_range b3).
  pose proof (byteZ_range b4). pose proof (byteZ_range b5).
  pose proof (byteZ_range b6). pose proof (byteZ_range b7).
  f_equal.
  set (v7 := byteZ b7) in *. set (v6 := byteZ b6) in *.
  set (v5 := byteZ b5) in *. set (v4 := byteZ b4) in *.
  set (v3 := byteZ b3) in *. set (v2 := byteZ b2) in *.
  set (v1 := byteZ b1) in *. set (v0 := byteZ b0) in *.
  rewrite lor_disjoint_add by lia.
  replace (v7 * 2 ^ 56 + v6 * 2 ^ 48)
    with ((v7 * 2 ^ 8 + v6) * 2 ^ 48) by lia.
  rewrite lor_disjoint_add by lia.
  replace ((v7 * 2 ^ 8 + v6) * 2 ^ 48 + v5 * 2 ^ 40)
    with ((v7 * 2 ^ 16 + v6 * 2 ^ 8 + v5) * 2 ^ 40) by lia.
  rewrite lor_disjoint_add by lia.
  replace ((v7 * 2 ^ 16 + v6 * 2 ^ 8 + v5) * 2 ^ 40 + v4 * 2 ^ 32)
    with ((v7 * 2 ^ 24 + v6 * 2 ^ 16 + v5 * 2 ^ 8 + v4) * 2 ^ 32) by lia.
  rewrite lor_disjoint_add by lia.
  replace ((v7 * 2 ^ 24 + v6 * 2 ^ 16 + v5 * 2 ^ 8 + v4) * 2 ^ 32
           + v3 * 2 ^ 24)
    with ((v7 * 2 ^ 32 + v6 * 2 ^ 24 + v5 * 2 ^ 16 + v4 * 2 ^ 8 + v3)
          * 2 ^ 24) by lia.
  rewrite lor_disjoint_add by lia.
  replace ((v7 * 2 ^ 32 + v6 * 2 ^ 24 + v5 * 2 ^ 16 + v4 * 2 ^ 8 + v3)
           * 2 ^ 24 + v2 * 2 ^ 16)
    with ((v7 * 2 ^ 40 + v6 * 2 ^ 32 + v5 * 2 ^ 24 + v4 * 2 ^ 16
           + v3 * 2 ^ 8 + v2) * 2 ^ 16) by lia.
  rewrite lor_disjoint_add by lia.
  replace ((v7 * 2 ^ 40 + v6 * 2 ^ 32 + v5 * 2 ^ 24 + v4 * 2 ^ 16
            + v3 * 2 ^ 8 + v2) * 2 ^ 16 + v1 * 2 ^ 8)
    with ((v7 * 2 ^ 48 + v6 * 2 ^ 40 + v5 * 2 ^ 32 + v4 * 2 ^ 24
           + v3 * 2 ^ 16 + v2 * 2 ^ 8 + v1) * 2 ^ 8) by lia.
  rewrite lor_disjoint_add by lia.
  lia.
Qed.

Lemma leValue_inj (l l' : list byte) :
  length l = length l' -> leValue l = leValue l' -> l = l'.
Proof.
  revert l'. induction l as [|c rest IH]; intros [|c' rest']; simpl;
    try discriminate; trivial.
  intros [= Hl] E.
  pose proof (byteZ_range c). pose proof (byteZ_range c').
  pose proof (leValue_range rest). pose proof (leValue_range rest').
  assert (byteZ c = byteZ c' /\ leValue rest = leValue rest') as [Ec Er]
    by lia.
  f_equal; [now apply byteZ_inj | now apply IH].
Qed.

Lemma getUint64LE_short (b : list byte) :
  (length b < 8)%nat -> getUint64LE b = Panic "index out of range".
Proof.
  intros Hl. unfold getUint64LE, index.
  rewrite (proj2 (lookup_ge_None b 7)) by lia. reflexivity.
Qed.

Lemma getUint64LE_take (b : list byte) :
  (8 <= length b)%nat -> getUint64LE b = Ret (leValue (take 8 b)).
Proof.
  intros Hl.
  do 8 (destruct b as [|? b]; [simpl in Hl; lia|]).
  apply getUint64LE_leValue.
Qed.

Lemma initProbSlice_repeat (init : prob) (p : list prob) :
  initProbSlice init p = repeat init (length p).
Proof.
  unfold initProbSlice.
  assert (G : forall k q,
    (k <= length q)%nat ->
    fold_left (fun q i => <[i := init]> q) (seq (length q - k) k) q
    = take (length q - k) q ++ repeat init k).
  { induction k as [|k IH]; intros q Hk.
    - simpl. rewrite Nat.sub_0_r, firstn_all, app_nil_r. reflexivity.
    - cbn [seq fold_left].
      replace (S (length q - S k))
        with (length (<[(length q - S k)%nat := init]> q) - k)%nat
        by (rewrite length_insert; lia).
      rewrite IH by (rewrite length_insert; lia).
      rewrite length_insert.
      replace (length q - k)%nat with (S (length q - S k)) by lia.
      rewrite (take_S_r _ _ init).
      + rewrite take_insert_ge by lia. rewrite <- app_assoc. reflexivity.
      + apply list_lookup_insert_eq. lia. }
  specialize (G (length p) p (Nat.le_refl _)).
  rewrite Nat.sub_diag in G. exact G.
Qed.

(** X8.  [getUint64LE] of a slice of at least eight bytes is the number
    its first eight bytes stand for, least significant byte first, a
    value below 2^64; on a shorter slice it panics at [b[7]]. *)
Theorem getUint64LE_little_endian (b : list byte) :
  ((8 <= length b)%nat ->
   getUint64LE b = Ret (leValue (take 8 b)) /\
   0 <= leValue (take 8 b) < 2 ^ 64) /\
  ((length b < 8)%nat -> getUint64LE b = Panic "index out of range").
Proof.
  split.
  - intros Hl. split; [now apply getUint64LE_take|].
    pose proof (leValue_range (take 8 b)) as R.
    rewrite length_take, Nat.min_l in R by lia. exact R.
  - apply getUint64LE_short.
Qed.

(** X9.  [getUint64LE] loses nothing: two slices of eight bytes with the
    same value are the same bytes. *)
Theorem getUint64LE_injective (b b' : list byte) :
  length b = 8%nat -> length b' = 8%nat ->
  getUint64LE b = getUint64LE b' -> b = b'.
Proof.
  intros Hl Hl' E.
  rewrite !getUint64LE_take in E by lia.
  rewrite !take_ge in E by lia.
  injection E as E. apply leValue_inj; congruence.
Qed.

(** X10.  [initProbSlice] keeps the length of the slice and leaves every
    element at the initial probability. *)
Theorem initProbSlice_sets_all (init : prob) (p : list prob) :
  length (initProbSlice init p) = length p /\
  forall i, (i < length p)%nat -> initProbSlice init p !! i = Some init.
Proof.
  rewrite initProbSlice_repeat. split.
  - apply repeat_length.
  - induction (length p) as [|n IH]; intros i Hi; [lia|].
    destruct i as [|i]; simpl; [reflexivity|]. apply IH. lia.
Qed.

Section ConstructionFacts.
Context {shapes : Shapes} {methods : Methods} {ctors : Constructors}.

Lemma readUint64LE_spec (r : list byte) :
  readUint64LE r =
    if (8 <=? length r)%nat then
      (Ret (leValue (take 8 r), None), drop 8 r)
    else
      (Ret (0, Some match r with [] => io_EOF | _ => io_ErrUnexpectedEOF end),
       []).
Proof.
  unfold readUint64LE, io_ReadFull.
  destruct (Nat.leb_spec 8 (length r)) as [Hl|Hl]; [|reflexivity].
  rewrite getUint64LE_take by (rewrite length_take; lia).
  simpl. rewrite take_take. reflexivity.
Qed.

Lemma posBitMask_value (pb : Z) :
  0 <= pb <= 4 -> u32 (shl32 1 (u64 pb) - 1) = 2 ^ pb - 1.
Proof.
  intros Hpb.
  assert (pb = 0 \/ pb = 1 \/ pb = 2 \/ pb = 3 \/ pb = 4) as Hc by lia.
  destruct Hc as [-> | [-> | [-> | [-> | ->]]]]; reflexivity.
Qed.

(** X11.  A decoder that [NewDecoder] returns has the properties read
    from the header, the announced length read from the eight bytes
    after them (least significant byte first), nothing decoded yet, state
    0, a rep history of zeros and every probability at its initial
    value.  For PB at most 4 the position mask is 2^PB - 1 and the
    decoder is well formed; when the announced length is below 2^63 it
    is sound as well. *)
Theorem NewDecoder_fresh (input : list byte) (d : Decoder) :
  NewDecoder input = Ret d ->
  exists rest,
    readProperties input = ((properties d, None), rest) /\
    (8 <= length rest)%nat /\
    unpackLen d = leValue (take 8 rest) /\
    0 <= unpackLen d < 2 ^ 64 /\
    decodedLen d = 0 /\
    state d = 0 /\
    reph d = mkReps 0 0 0 0 /\
    isMatch d = repeat probInit 192 /\
    isRep d = repeat probInit 12 /\
    isRepG0 d = repeat probInit 12 /\
    isRepG1 d = repeat probInit 12 /\
    isRepG2 d = repeat probInit 12 /\
    isRepG0Long d = repeat probInit 192 /\
    (0 <= PB (properties d) <= 4 ->
     posBitMask d = 2 ^ PB (properties d) - 1 /\
     wellFormed d /\
     (unpackLen d < 2 ^ 63 -> sound d)).
Proof.
  unfold NewDecoder.
  destruct (readProperties input) as [[props [e|]] rest] eqn:EP;
    [discriminate|].
  destruct (i64 (DictLen props) <? 0); [discriminate|].
  rewrite readUint64LE_spec.
  destruct (Nat.leb_spec 8 (length rest)) as [Hl|Hl]; [|discriminate].
  simpl.
  destruct (newDecoderDict _ _) as [dd [e|]]; [discriminate|].
  destruct (newRangeDecoder _) as [rdec [e|]]; [discriminate|].
  intros [= <-]. exists rest. simpl.
  rewrite !initProbSlice_repeat, ?repeat_length.
  assert (Hv : 0 <= leValue (take 8 rest) < 2 ^ 64).
  { pose proof (leValue_range (take 8 rest)) as R.
    rewrite length_take, Nat.min_l in R by lia. exact R. }
  repeat (split; [first [reflexivity | assumption | lia]|]).
  intros Hpb. rewrite posBitMask_value by exact Hpb.
  assert (W : 0 <= 2 ^ PB props - 1 <= 15).
  { assert (1 <= 2 ^ PB props <= 2 ^ 4); [|lia].
    split; [pose proof (Z.pow_pos_nonneg 2 (PB props)); lia|].
    apply Z.pow_le_mono_r; lia. }
  split; [reflexivity|].
  assert (Wf : wellFormed
    (mkDecoder props (leValue (take 8 rest)) 0 dd 0 (2 ^ PB props - 1) rdec
       (repeat probInit (Z.to_nat (Z.shiftl states maxPosBits)))
       (repeat probInit (Z.to_nat states)) (repeat probInit (Z.to_nat states))
       (repeat probInit (Z.to_nat states)) (repeat probInit (Z.to_nat states))
       (repeat probInit (Z.to_nat (Z.shiftl states maxPosBits)))
       (mkReps 0 0 0 0) (newLiteralCodec (LC props) (LP props))
       newLengthCodec newLengthCodec newDistCodec)).
  { unfold wellFormed. simpl. rewrite ?repeat_length.
    repeat split; try reflexivity; lia. }
  split; [exact Wf|].
  intros Hu. split; [exact Wf|]. simpl.
  unfold repsTyped, isUint32. simpl. lia.
Qed.

(** X12.  When the input ends inside the eight bytes of the announced
    length, [NewDecoder] returns the error of [io.ReadFull]: [io.EOF] when
    no byte of the length is there, [io.ErrUnexpectedEOF] otherwise. *)
Theorem NewDecoder_truncated (input rest : list byte) (props : Properties) :
  readProperties input = ((props, None), rest) ->
  0 <= i64 (DictLen props) ->
  (length rest < 8)%nat ->
  NewDecoder input =
    Fail match rest with [] => io_EOF | _ => io_ErrUnexpectedEOF end.
Proof.
  intros EP Hd Hl. unfold NewDecoder. rewrite EP.
  destruct (Z.ltb_spec (i64 (DictLen props)) 0); [lia|].
  rewrite readUint64LE_spec.
  destruct (Nat.leb_spec 8 (length rest)); [lia|]. reflexivity.
Qed.

End ConstructionFacts.

(** ** The older encoder dictionary *)

Section OldDictMore.
Context {ops : encoderDict.BufferOps} {lim : Limits}
        {more : encoderDict.MoreOps}.
Import encoderDict.

Lemma Len_bounds (e : t) : Len e <= capacity e /\ Len e <= head e.
Proof.
  unfold Len. destruct (head e >=? capacity e) eqn:E.
  - apply Z.geb_le in E. lia.
  - rewrite Z.geb_leb in E. apply Z.leb_gt in E. lia.
Qed.

Lemma empty_dict (bf : encoderBuffer) (cap : Z) :
  0 <= cap ->
  let e := mk bf 0 (buf_Pos bf) cap in
  Len e = 0 /\ Buffered e = 0 /\
  (forall d, ByteAt e d = Ret x00) /\
  (forall d, MatchLen e d = 0).
Proof.
  intros Hc e.
  assert (HL : Len e = 0).
  { unfold Len, e. simpl. destruct (0 >=? cap) eqn:E; [|reflexivity].
    apply Z.geb_le in E. lia. }
  split; [exact HL|]. split.
  - unfold Buffered, Pos, e. simpl. rewrite Z.add_0_r. apply i64_sub_self.
  - split; intros d.
    + apply encoderDict_ByteAt_outside. lia.
    + unfold MatchLen. rewrite HL.
      destruct (Z.ltb_spec 0 d); destruct (Z.leb_spec d 0); simpl; trivial; lia.
Qed.

(** X13.  [initEncoderDict] succeeds exactly when the capacity is within
    [minDictCap] and [maxDictCap] and leaves room for [maxMatchLen] bytes
    in the buffer.  The dictionary it makes is empty: length 0, nothing
    buffered ahead of the head, [ByteAt] 0 and [MatchLen] 0 at every
    distance.  [Reset] brings any dictionary back to that, keeping its
    capacity. *)
Theorem initEncoderDict_empty (dictCap : Z) (bf : encoderBuffer) :
  0 <= minDictCap ->
  (forall e, initEncoderDict dictCap bf = Ret e ->
     minDictCap <= dictCap <= maxDictCap /\
     dictCap <= i64 (buf_Cap bf - maxMatchLen) /\
     buf e = bf /\ capacity e = dictCap /\
     Len e = 0 /\ Buffered e = 0 /\
     (forall d, ByteAt e d = Ret x00) /\
     (forall d, MatchLen e d = 0)) /\
  (minDictCap <= dictCap <= maxDictCap ->
   dictCap <= i64 (buf_Cap bf - maxMatchLen) ->
   exists e, initEncoderDict dictCap bf = Ret e) /\
  (forall e, 0 <= capacity e ->
     Len (Reset e) = 0 /\ Buffered (Reset e) = 0 /\
     capacity (Reset e) = capacity e /\
     (forall d, ByteAt (Reset e) d = Ret x00) /\
     (forall d, MatchLen (Reset e) d = 0)).
Proof.
  intros Hmin. split; [|split].
  - intros e. unfold initEncoderDict.
    destruct (Z.leb_spec minDictCap dictCap);
      destruct (Z.leb_spec dictCap maxDictCap); simpl; try discriminate.
    destruct (Z.leb_spec dictCap (i64 (buf_Cap bf - maxMatchLen))); simpl;
      [|discriminate].
    intros [= <-].
    destruct (empty_dict bf dictCap ltac:(lia)) as (E1 & E2 & E3 & E4).
    repeat split; trivial; lia.
  - intros [H1 H2] H3. unfold initEncoderDict.
    apply Z.leb_le in H1, H2, H3. rewrite H1, H2, H3. simpl. eauto.
  - intros e Hc.
    destruct (empty_dict (buf e) (capacity e) Hc) as (E1 & E2 & E3 & E4).
    unfold Reset. repeat split; trivial.
Qed.

Lemma inBounds_Pos (e : t) : inBounds e -> Pos e = zero e + head e.
Proof. intros (?&?&?&?&?). unfold Pos. apply i64_small. lia. Qed.

Lemma inBounds_Buffered (e : t) :
  inBounds e -> Buffered e = buf_Pos (buf e) - (zero e + head e).
Proof.
  intros B. unfold Buffered. rewrite (inBounds_Pos e B).
  destruct B as (?&?&?&?&?). apply i64_small. lia.
Qed.

Lemma Advance_step (e : t) (k : Z) :
  inBounds e -> 0 < k <= Buffered e ->
  Advance e k = Ret (mk (buf e) (head e + k) (zero e) (capacity e)) /\
  inBounds (mk (buf e) (head e + k) (zero e) (capacity e)).
Proof.
  intros B Hk. pose proof (inBounds_Buffered e B) as HB.
  unfold Advance.
  destruct (Z.ltb_spec 0 k); destruct (Z.leb_spec k (Buffered e)); simpl;
    try lia.
  destruct B as (?&?&?&?&?).
  rewrite i64_small by lia. split; [reflexivity|].
  unfold inBounds. simpl. lia.
Qed.

Lemma Advance_inv (e e' : t) (n : Z) :
  Advance e n = Ret e' -> 0 < n <= Buffered e.
Proof.
  unfold Advance.
  destruct (Z.ltb_spec 0 n); destruct (Z.leb_spec n (Buffered e)); simpl;
    try discriminate. lia.
Qed.

Lemma Advance_effect (e : t) (n : Z) :
  inBounds e -> 0 < n <= Buffered e ->
  exists e',
    Advance e n = Ret e' /\
    inBounds e' /\
    buf e' = buf e /\ capacity e' = capacity e /\
    Pos e' = Pos e + n /\
    Buffered e' = Buffered e - n /\
    Len e' = Z.min (capacity e) (head e + n) /\
    Len e <= Len e' <= capacity e.
Proof.
  intros B Hn. pose proof (inBounds_Buffered e B) as HB.
  pose proof (inBounds_Pos e B) as HP.
  destruct (Advance_step e n B Hn) as (E & B').
  eexists. split; [exact E|]. split; [exact B'|].
  rewrite (inBounds_Pos _ B'), (inBounds_Buffered _ B'), HP, HB. simpl.
  pose proof (Len_bounds e).
  assert (HL : Len (mk (buf e) (head e + n) (zero e) (capacity e))
               = Z.min (capacity e) (head e + n)).
  { unfold Len. simpl. destruct (head e + n >=? capacity e) eqn:E';
      [apply Z.geb_le in E' | rewrite Z.geb_leb in E'; apply Z.leb_gt in E'];
      lia. }
  rewrite HL. destruct B as (?&?&?&?&?).
  repeat split; try reflexivity; lia.
Qed.

(** X14.  On a dictionary whose positions do not wrap, [Advance(n)]
    succeeds exactly for 0 < n <= [Buffered()] and panics otherwise.  It
    moves [Pos()] on by [n], takes [n] from [Buffered()], leaves buffer
    and capacity alone, and the length grows by [n] up to the capacity.
    Two advances in a row are one advance by the sum. *)
Theorem Advance_moves_head (e : t) (n : Z) :
  inBounds e ->
  (0 < n <= Buffered e ->
   exists e',
     Advance e n = Ret e' /\
     inBounds e' /\
     buf e' = buf e /\ capacity e' = capacity e /\
     Pos e' = Pos e + n /\
     Buffered e' = Buffered e - n /\
     Len e' = Z.min (capacity e) (head e + n) /\
     Len e <= Len e' <= capacity e) /\
  (n <= 0 \/ Buffered e < n ->
   Advance e n = Panic "Advance: n out of range") /\
  (forall a b e1 e2,
     Advance e a = Ret e1 -> Advance e1 b = Ret e2 ->
     Advance e (a + b) = Ret e2).
Proof.
  intros B. pose proof (inBounds_Buffered e B) as HB.
  split; [|split].
  - now apply Advance_effect.
  - intros Hn. unfold Advance.
    destruct (Z.ltb_spec 0 n); destruct (Z.leb_spec n (Buffered e)); simpl;
      trivial; lia.
  - intros a b e1 e2 E1 E2.
    pose proof (Advance_inv _ _ _ E1) as Ha.
    destruct (Advance_step e a B Ha) as (E1' & B1). rewrite E1' in E1.
    injection E1 as <-.
    pose proof (Advance_inv _ _ _ E2) as Hb.
    rewrite (inBounds_Buffered _ B1) in Hb. simpl in Hb.
    destruct (Advance_step e (a + b) B ltac:(lia)) as (E12 & _).
    rewrite E12.
    destruct (Advance_step _ b B1) as (E2' & _).
    { rewrite (inBounds_Buffered _ B1). simpl. lia. }
    rewrite E2' in E2. injection E2 as <-. simpl.
    f_equal. f_equal. lia.
Qed.

(** X15.  Advancing the head by [n] shifts every distance by [n]: the
    byte that was [d] behind the head is [d + n] behind it afterwards, as
    long as the capacity reaches that far, and beyond the capacity
    [ByteAt] returns 0.  After an advance by one, [ByteAt(1)] is the byte
    [Literal()] returned before it. *)
Theorem ByteAt_after_Advance (e e' : t) (n : Z) :
  inBounds e ->
  Advance e n = Ret e' ->
  (forall d,
     0 < d <= Len e -> d + n <= capacity e ->
     ByteAt e' (d + n) = ByteAt e d) /\
  (forall d,
     0 < d -> capacity e < d + n ->
     ByteAt e' (d + n) = Ret x00) /\
  (forall c,
     n = 1 -> 1 <= capacity e -> Literal e = Ret c ->
     ByteAt e' 1 = Ret c).
Proof.
  intros B E.
  pose proof (Advance_inv _ _ _ E) as Hn.
  destruct (Advance_effect e n B Hn)
    as (e2 & E2 & B' & Hbuf & Hcap & HP & _ & HL & _).
  rewrite E in E2. injection E2 as <-.
  pose proof (inBounds_Pos e B) as HPe.
  pose proof (inBounds_Buffered e B) as HBe.
  pose proof (Len_bounds e) as [Hlc Hlh].
  destruct B as (Hz & Hh & Hzh & Hbp & Hc).
  split; [|split].
  - intros d Hd Hdn.
    rewrite (encoderDict_ByteAt_in_range e' (d + n)) by lia.
    rewrite (encoderDict_ByteAt_in_range e d) by lia.
    rewrite Hbuf, HP.
    replace (Pos e + n - (d + n)) with (Pos e - d) by lia. reflexivity.
  - intros d Hd Hdn. apply encoderDict_ByteAt_outside. lia.
  - intros c -> Hc1 EL.
    rewrite (encoderDict_ByteAt_in_range e' 1) by lia.
    rewrite Hbuf, HP. revert EL. unfold Literal.
    replace (i64 (Pos e + 1 - 1)) with (Pos e)
      by (rewrite i64_small; lia).
    destruct (buf_ReadByteAt (buf e) (Pos e)) as [c0 [err|]];
      [discriminate|]. trivial.
Qed.

(** X16.  Every distance that [Matches] returns is one [MatchLen]
    accepts: it is positive, at most the capacity and at most the number
    of bytes the head has moved over, so that [MatchLen] goes on to
    compare the bytes instead of returning 0 for it. *)
Theorem Matches_fit_MatchLen (e : t) (ds : list Z) :
  Matches e = Ret ds ->
  Forall
    (fun d =>
       0 < d /\ d <= capacity e /\ d <= head e /\
       MatchLen e d =
         buf_EqualBytes (buf e) (i64 (Buffered e + d)) (Buffered e)
           maxMatchLen)
    ds.
Proof.
  intros E.
  assert (R : Forall (fun d => 0 < d <= Len e) ds).
  { revert E. unfold Matches.
    destruct (_ <? _); [intros [= <-]; constructor|].
    destruct (_ <? 0); [discriminate|].
    destruct (buf_ReadAt _ _ _) as [p [err|]];
      intros [= <-]; [constructor|].
    apply encoderDict_filterDistances_range. }
  pose proof (Len_bounds e) as [Hlc Hlh].
  eapply Forall_impl; [exact R|].
  intros d [H1 H2]. simpl. repeat split; try lia.
  unfold MatchLen. apply Z.ltb_lt in H1. apply Z.leb_le in H2.
  now rewrite H1, H2.
Qed.

End OldDictMore.

(** ** The newer encoder dictionary *)

Section NewDictMore.
Context {ops : EncoderDict.BufferOps} {T : Type} {mt : EncoderDict.matcher T}
        {lim : Limits} {more : EncoderDict.MoreOps (T:=T)}.
Import EncoderDict.

(** The slot of the circular buffer [d] places behind [rear]. *)
Lemma behind_rear (ed : EncoderDict.t (T:=T)) (d : Z) :
  ringOk ed -> 0 < d <= Len ed ->
  let len := Z.of_nat (length (data (buf ed))) in
  let i := i64 (rear (buf ed) - d) in
  let i := if i <? 0 then i64 (i + len) else i in
  i = (rear (buf ed) - d) mod len /\ 0 <= i < len.
Proof.
  intros (Hr & Hl & Hb) Hd len. simpl.
  fold len in Hr, Hl, Hb.
  rewrite (i64_small (rear (buf ed) - d)) by lia.
  destruct (Z.ltb_spec (rear (buf ed) - d) 0).
  - rewrite i64_small by lia.
    split; [|lia].
    apply Z.mod_unique with (q := -1); lia.
  - split; [|lia]. symmetry. apply Z.mod_small. lia.
Qed.

Lemma ByteAt_ring (ed : EncoderDict.t (T:=T)) (d : Z) :
  ringOk ed -> 0 < d < Len ed ->
  exists c,
    ByteAt ed d = Ret c /\
    data (buf ed)
      !! Z.to_nat ((rear (buf ed) - d)
                   mod Z.of_nat (length (data (buf ed))))
    = Some c.
Proof.
  intros R Hd. unfold ByteAt.
  destruct (Z.ltb_spec 0 d); [|lia].
  destruct (Z.ltb_spec d (Len ed)); [|lia]. simpl.
  destruct (behind_rear ed d R ltac:(lia)) as [Ei Hi]. simpl in Ei, Hi.
  set (i := if i64 (rear (buf ed) - d) <? 0
            then i64 (i64 (rear (buf ed) - d)
                      + Z.of_nat (length (data (buf ed))))
            else i64 (rear (buf ed) - d)) in *.
  destruct (Z.ltb_spec i 0); [lia|].
  destruct (lookup_lt_is_Some_2 (data (buf ed)) (Z.to_nat i) ltac:(lia))
    as [c Hc].
  exists c. rewrite Hc. split; [reflexivity|].
  rewrite <- Ei. exact Hc.
Qed.

(** X17.  On a circular buffer that is in order ([rear] a position of
    [data], [Len()] at most the size of [data]) [ByteAt] never panics.
    For 0 < distance < [Len()] it returns the byte stored [distance]
    slots behind [rear], counted round the end of [data]; for every
    other distance it returns 0. *)
Theorem ByteAt_never_panics (ed : EncoderDict.t (T:=T)) (d : Z) :
  ringOk ed ->
  (0 < d < Len ed ->
   exists c,
     ByteAt ed d = Ret c /\
     data (buf ed)
       !! Z.to_nat ((rear (buf ed) - d)
                    mod Z.of_nat (length (data (buf ed))))
     = Some c) /\
  (d <= 0 \/ Len ed <= d -> ByteAt ed d = Ret x00) /\
  (forall msg, ByteAt ed d <> Panic msg).
Proof.
  intros R. split; [|split].
  - now apply ByteAt_ring.
  - intros Hd. apply EncoderDict_ByteAt_outside. lia.
  - intros msg.
    destruct (Z.lt_ge_cases 0 d) as [H0|H0];
      [destruct (Z.lt_ge_cases d (Len ed)) as [H1|H1]|].
    + destruct (ByteAt_ring ed d R ltac:(lia)) as (c & -> & _).
      discriminate.
    + rewrite EncoderDict_ByteAt_outside by lia. discriminate.
    + rewrite EncoderDict_ByteAt_outside by lia. discriminate.
Qed.

Lemma slice_spec (p : list byte) (i j : Z) :
  0 <= i <= j -> j <= Z.of_nat (length p) ->
  exists q,
    slice p i j = Ret q /\
    Z.of_nat (length q) = j - i /\
    (forall k, 0 <= k < j - i ->
               q !! Z.to_nat k = p !! Z.to_nat (i + k)).
Proof.
  intros Hi Hj. unfold slice.
  destruct (Z.leb_spec 0 i); [|lia].
  destruct (Z.leb_spec i j); [|lia].
  destruct (Z.leb_spec j (Z.of_nat (length p))); [|lia]. simpl.
  eexists. split; [reflexivity|]. split.
  - rewrite length_take, length_drop. lia.
  - intros k Hk. rewrite lookup_take_lt by lia.
    rewrite lookup_drop. f_equal. lia.
Qed.

(** X18.  Into a writer that takes all it is given, [CopyN(w, n)] on a
    buffer in order writes exactly min(n, [Len()]) bytes (none for n <=
    0) and returns that count with a nil error.  The bytes are the ones
    that lie just behind [rear], oldest first, also when they wrap round
    the end of [data]; the byte [ByteAt(d)] returns is the [d]-th from
    the end of what was written. *)
Theorem CopyN_copies_tail {W : Type} `{Writer W} (contents : W -> list byte)
    (ed : EncoderDict.t (T:=T)) (w : W) (n : Z) :
  ringOk ed -> accepting contents ->
  let len := Z.of_nat (length (data (buf ed))) in
  let k := Z.max 0 (Z.min n (Len ed)) in
  exists out w',
    CopyN ed w n = (Ret (k, None), w') /\
    contents w' = contents w ++ out /\
    Z.of_nat (length out) = k /\
    (forall j, 0 <= j < k ->
       out !! Z.to_nat j
       = data (buf ed) !! Z.to_nat ((rear (buf ed) - k + j) mod len)) /\
    (forall d c, 0 < d < Len ed -> d <= k -> ByteAt ed d = Ret c ->
       out !! Z.to_nat (k - d) = Some c).
Proof.
  intros R Acc len k.
  assert (Main : exists out w',
    CopyN ed w n = (Ret (k, None), w') /\
    contents w' = contents w ++ out /\
    Z.of_nat (length out) = k /\
    (forall j, 0 <= j < k ->
       out !! Z.to_nat j
       = data (buf ed) !! Z.to_nat ((rear (buf ed) - k + j) mod len))).
  { pose proof R as (Hr & Hl & Hb). fold len in Hr, Hl, Hb.
    unfold CopyN.
    set (n0 := if n >? Len ed then Len ed else n).
    assert (Hn0 : n0 = Z.min n (Len ed)).
    { subst n0. destruct (n >? Len ed) eqn:E;
        [apply Z.gtb_gt in E | rewrite Z.gtb_ltb in E; apply Z.ltb_ge in E];
        lia. }
    destruct (Z.leb_spec n0 0).
    { assert (Hk0 : k = 0) by lia.
      exists [], w. rewrite app_nil_r, Hk0.
      split; [reflexivity|]. split; [reflexivity|].
      split; [reflexivity|]. intros j Hj. lia. }
    assert (Hk : k = n0) by lia.
    rewrite (i64_small n0) by lia.
    rewrite (i64_small (rear (buf ed) - n0)) by lia.
    destruct (rear (buf ed) - n0 >=? 0) eqn:Ei.
    - apply Z.geb_le in Ei.
      destruct (slice_spec (data (buf ed)) (rear (buf ed) - n0)
                  (rear (buf ed)) ltac:(lia) ltac:(lia)) as (q & Eq & Lq & Sq).
      rewrite Eq.
      destruct (Acc w q) as [A1 A2].
      destruct (w_Write w q) as [[k1 e1] w1]. simpl in A1, A2.
      injection A1 as -> ->.
      exists q, w1. rewrite Hk.
      split; [f_equal; f_equal; f_equal; lia|].
      split; [exact A2|]. split; [lia|].
      intros j Hj. rewrite Sq by lia. f_equal. f_equal.
      symmetry. apply Z.mod_small. lia.
    - rewrite Z.geb_leb in Ei. apply Z.leb_gt in Ei.
      fold len. rewrite (i64_small (rear (buf ed) - n0 + len)) by lia.
      destruct (slice_spec (data (buf ed)) (rear (buf ed) - n0 + len) len
                  ltac:(lia) ltac:(lia)) as (q1 & Eq1 & Lq1 & Sq1).
      rewrite Eq1.
      destruct (Acc w q1) as [A1 A2].
      destruct (w_Write w q1) as [[k1 e1] w1]. simpl in A1, A2.
      injection A1 as -> ->.
      destruct (slice_spec (data (buf ed)) 0 (rear (buf ed))
                  ltac:(lia) ltac:(lia)) as (q2 & Eq2 & Lq2 & Sq2).
      rewrite Eq2.
      destruct (Acc w1 q2) as [A3 A4].
      destruct (w_Write w1 q2) as [[k2 e2] w2]. simpl in A3, A4.
      injection A3 as -> ->.
      exists (q1 ++ q2), w2. rewrite Hk.
      split.
      { rewrite i64_small by lia. f_equal. f_equal. f_equal. lia. }
      split; [rewrite A4, A2, app_assoc; reflexivity|].
      split; [rewrite length_app; lia|].
      intros j Hj.
      destruct (Z.lt_ge_cases j (n0 - rear (buf ed))) as [Hlt | Hge].
      + rewrite lookup_app_l by lia. rewrite Sq1 by lia.
        f_equal. f_equal.
        apply Z.mod_unique with (q := -1); lia.
      + rewrite lookup_app_r by lia.
        replace (Z.to_nat j - length q1)%nat
          with (Z.to_nat (j - (n0 - rear (buf ed)))) by lia.
        rewrite Sq2 by lia. f_equal. f_equal.
        rewrite Z.mod_small by lia. lia. }
  destruct Main as (out & w' & E & C & L & S).
  exists out, w'. repeat split; trivial.
  intros d c Hd Hdk EB.
  destruct (ByteAt_ring ed d R Hd) as (c' & EB' & Hc').
  rewrite EB in EB'. injection EB' as <-.
  rewrite S by lia. rewrite <- Hc'. f_equal. f_equal. f_equal. lia.
Qed.

(** X19.  [Write] hands the buffer at most [Available()] bytes: the
    whole of [p] when it fits, else its first [Available()] bytes, and
    then the error is [errNoSpace] unless the buffer's own write reports
    one.  Matcher and capacity are left alone.  With a negative
    [Available()] the slice expression [p[:m]] panics. *)
Theorem Write_within_Available (ed : EncoderDict.t (T:=T)) (p : list byte) :
  (0 <= Available ed ->
   let q := take (Z.to_nat (Available ed)) p in
   Z.of_nat (length q) <= Available ed /\
   Write ed p =
     (Ret (fst (fst (buf_Write (buf ed) q)),
           match snd (fst (buf_Write (buf ed) q)) with
           | Some e => Some e
           | None =>
               if Available ed <? Z.of_nat (length p)
               then Some errNoSpace else None
           end),
      mk (snd (buf_Write (buf ed) q)) (m ed) (capacity ed))) /\
  (Available ed < 0 ->
   Write ed p = (Panic "slice bounds out of range", ed)).
Proof.
  split.
  - intros Ha q. split.
    { subst q. rewrite length_take. lia. }
    unfold Write.
    destruct (Z.of_nat (length p) >? Available ed) eqn:E.
    + apply Z.gtb_gt in E.
      destruct (Z.ltb_spec (Available ed) (Z.of_nat (length p))); [|lia].
      unfold slice.
      destruct (Z.leb_spec 0 (Available ed)); [|lia].
      destruct (Z.leb_spec (Available ed) (Z.of_nat (length p))); [|lia].
      change (0 <=? 0) with true. cbn [andb andThen]. rewrite Z.sub_0_r.
      change (Z.to_nat 0) with 0%nat. rewrite drop_0. subst q.
      destruct (buf_Write (buf ed) (take (Z.to_nat (Available ed)) p))
        as [[n werr] bf]. simpl.
      destruct werr; reflexivity.
    + rewrite Z.gtb_ltb in E. rewrite E. apply Z.ltb_ge in E.
      assert (Eq : q = p) by (subst q; apply take_ge; lia).
      subst q. rewrite Eq.
      destruct (buf_Write (buf ed) p) as [[n werr] bf]. simpl.
      destruct werr; reflexivity.
  - intros Ha. unfold Write.
    destruct (Z.of_nat (length p) >? Available ed) eqn:E.
    + unfold slice. change (0 <=? 0) with true.
      destruct (Z.leb_spec 0 (Available ed)); [lia|]. reflexivity.
    + rewrite Z.gtb_ltb in E. apply Z.ltb_ge in E. lia.
Qed.

Lemma DictLen_bounds (ed : EncoderDict.t (T:=T)) :
  DictLen ed <= capacity ed /\ DictLen ed <= m_Pos (m ed).
Proof.
  unfold DictLen. destruct (m_Pos (m ed) >? capacity ed) eqn:E;
    [apply Z.gtb_gt in E | rewrite Z.gtb_ltb in E; apply Z.ltb_ge in E]; lia.
Qed.

(** X20.  Every distance that [Matches] of the newer dictionary returns
    is one its [MatchLen] accepts: it is positive, at most the capacity
    and at most the position of the head, so that [MatchLen] goes on to
    compare the bytes instead of returning 0 for it. *)
Theorem EncoderDict_Matches_fit_MatchLen (ed : EncoderDict.t (T:=T))
    (ds : list Z) :
  Matches ed = Ret ds ->
  Forall
    (fun d =>
       0 < d /\ d <= capacity ed /\ d <= Pos ed /\
       MatchLen ed d =
         buf_EqualBytes (buf ed) (i64 (Buffered ed + d)) (Buffered ed)
           maxMatchLen)
    ds.
Proof.
  intros E.
  assert (R : Forall (fun d => 0 < d <= DictLen ed) ds).
  { revert E. unfold Matches.
    destruct (_ <? _); [intros [= <-]; constructor|].
    destruct (_ <? 0); [discriminate|].
    intros [= <-]. apply EncoderDict_filterDistances_range. }
  pose proof (DictLen_bounds ed) as [Hc Hp].
  eapply Forall_impl; [exact R|].
  intros d [H1 H2]. simpl. unfold Pos. repeat split; try lia.
  unfold MatchLen. apply Z.ltb_lt in H1. apply Z.leb_le in H2.
  now rewrite H1, H2.
Qed.

End NewDictMore.

(** * The theorems at work on concrete decoders and dictionaries *)

#[local] Existing Instance Scripted.shapes.
#[local] Existing Instance Scripted.methods.

Lemma eos_marker_handling_witness :
  fst (fill (methods:=Scripted.methods) 1 Scripted.atMarker)
    = Some (Fail errUnexpectedEOS).
Proof.
  edestruct (eos_marker_handling (methods:=Scripted.methods) 0%nat
               Scripted.atMarker) as [_ W].
  - reflexivity.
  - reflexivity.
  - eexists _, _. split; [cbv; reflexivity|].
    split; [discriminate | cbv; reflexivity].
  - cbv. reflexivity.
  - cbv. reflexivity.
  - destruct (W eq_refl) as (_ & W1 & _).
    rewrite W1; [reflexivity | discriminate | discriminate].
Defined.

Lemma state_transitions_witness :
  state (updateStateLiteral Scripted.onLiteral) = 2 /\
  state (updateStateMatch Scripted.onLiteral) = 7.
Proof.
  destruct (state_transitions Scripted.onLiteral Scripted.onLiteral)
    as (_ & W1 & _ & W2 & _).
  - simpl. lia.
  - split.
    + rewrite W1; [reflexivity | simpl; lia].
    + apply W2. simpl. lia.
Defined.

(** At the rep1 path the code leaves [rep[2]] as it was, where the shift
    [rep[2] <- rep[1]] would have put 20 in it. *)
Lemma rep1_case_keeps_rep2 :
  (exists d2 b0 d3 d4,
     pastIsRep (methods:=Scripted.methods) Scripted.onRep1 1 d2 /\
     decodeBit isRepG0 set_isRepG0 (state d2) d2 = (Ret b0, d3) /\
     b0 <> 0 /\
     decodeBit isRepG1 set_isRepG1 (state d3) d3 = (Ret 0, d4)) /\
  fst (decodeOp (methods:=Scripted.methods) Scripted.onRep1)
    = Ret (rep 5 21) /\
  reph (snd (decodeOp (methods:=Scripted.methods) Scripted.onRep1))
    = mkReps 20 10 30 40 /\
  reph (snd (decodeOp (methods:=Scripted.methods) Scripted.onRep1))
    <> spec_shift (rep1 (reph Scripted.onRep1)) (reph Scripted.onRep1).
Proof.
  split; [|split; [|split]].
  - eexists _, _, _, _. split; [|split; [|split]].
    + eexists _, _. split; [cbv; reflexivity|].
      split; [discriminate | cbv; reflexivity].
    + cbv. reflexivity.
    + discriminate.
    + cbv. reflexivity.
  - reflexivity.
  - reflexivity.
  - discriminate.
Qed.

Lemma rep_history_update_witness :
  reph (snd (decodeOp (methods:=Scripted.methods) Scripted.onRep1))
    = mkReps 20 10 30 40.
Proof.
  edestruct (rep_history_update (methods:=Scripted.methods)
               Scripted.onRep1) as [_ W].
  - eexists _, _. split; [cbv; reflexivity|].
    split; [discriminate | cbv; reflexivity].
  - edestruct W as [_ W1]; [discriminate | cbv; reflexivity |].
    edestruct W1 as [W2 _]; [discriminate | cbv; reflexivity |].
    exact (W2 eq_refl).
Defined.

Lemma decodedLen_monotone_bounded_witness :
  fst (fill (methods:=Scripted.methods) 1 Scripted.overlong)
    = Some (Fail tooLong).
Proof.
  destruct (decodedLen_monotone_bounded (methods:=Scripted.methods) 0%nat
              Scripted.overlong) as (_ & W & _).
  - simpl. lia.
  - edestruct W as (_ & W1 & _);
      [reflexivity | reflexivity | cbv; reflexivity |].
    apply W1. reflexivity.
Defined.

(** The total reaches [unpackLen] and the [eof] flag is not set: two
    bytes are announced, the first op has length 2, and applying it to
    the dictionary fails.  [fill] has stored the new total before the
    call and returns the error before its test [n == d.unpackLen]. *)
Lemma reaches_unpackLen_without_eof :
  let d := Samples.refusedAtEnd in
  let r := fill (methods:=Scripted.methods) 1 d in
  unpackLen d = 2 /\ unpackLen d <> noUnpackLen /\
  decodedLen d = 0 /\ eof (dict d) = false /\
  fst (decodeOp (methods:=Scripted.methods) d) = Ret (rep 2 1) /\
  fst r = Some (Fail (errors_New "invalid distance")) /\
  decodedLen (snd r) = 2 /\
  decodedLen (snd r) = unpackLen (snd r) /\
  eof (dict (snd r)) = false.
Proof.
  repeat split. discriminate.
Qed.

Lemma decodeLiteral_context_witness :
  decodeLiteral (methods:=Scripted.methods) Scripted.onLiteral
    = (Ret (lit "c"%byte),
       set_rd (mkRangeDecoder [] 4294967295 0)
         (set_litDecoder tt Scripted.onLiteral)).
Proof.
  rewrite (decodeLiteral_context (methods:=Scripted.methods)
             Scripted.onLiteral).
  - reflexivity.
  - simpl. lia.
  - simpl. lia.
  - simpl. lia.
Defined.

Lemma Read_error_discipline_witness :
  fst (Read (methods:=Scripted.methods) 1 1 4 Scripted.overlong)
    = Some (Returned [] (Some (Errorf_LZMA tooLong))).
Proof.
  destruct (Read_error_discipline (methods:=Scripted.methods) 1%nat 4)
    as (_ & _ & _ & W).
  unfold Read.
  erewrite (W 0%nat [] [] Scripted.overlong).
  - reflexivity.
  - simpl. lia.
  - cbv. reflexivity.
  - discriminate.
  - cbv. reflexivity.
Defined.

(** A second [Read] after "decoded stream too long" returns [io.EOF],
    not the error of the first. *)
Lemma Read_forgets_error :
  let first := Read (methods:=Scripted.methods) 1 2 4 Scripted.overlong in
  let second := Read (methods:=Scripted.methods) 1 2 4 (snd first) in
  fst first = Some (Returned [] (Some (Errorf_LZMA tooLong))) /\
  Error (Errorf_LZMA tooLong) = "LZMA - decoded stream too long"%string /\
  fst second = Some (Returned [] (Some io_EOF)) /\
  fst second <> fst first.
Proof.
  repeat split. discriminate.
Qed.

(** Nor is [errUnexpectedEOS] repeated: the next [Read] decodes on, here
    into the end of the compressed input. *)
Lemma Read_after_unexpected_marker :
  let first := Read (methods:=Scripted.methods) 1 2 4 Scripted.atMarker in
  let second := Read (methods:=Scripted.methods) 1 2 4 (snd first) in
  fst first = Some (Returned [] (Some (Errorf_LZMA errUnexpectedEOS))) /\
  fst second =
    Some (Returned []
            (Some (Errorf_LZMA
                     (errors_New "unexpected end of compressed stream")))).
Proof.
  split; reflexivity.
Qed.

Lemma Read_after_rejection_witness :
  fst (Read (methods:=Scripted.methods) 1 1 4
         (snd (fill (methods:=Scripted.methods) 1 Scripted.overlong)))
    = Some (Returned [] (Some io_EOF)).
Proof.
  edestruct (Read_after_rejection (methods:=Scripted.methods) 0%nat
               Scripted.overlong) as (_ & _ & _ & W).
  - reflexivity.
  - reflexivity.
  - simpl. lia.
  - cbv. reflexivity.
  - reflexivity.
  - erewrite (W 1%nat 0%nat 4 []); [reflexivity | lia | cbv; reflexivity].
Defined.

Lemma Matches_distances_in_range_witness :
  EncoderDict.Matches (ops:=Plain.ringOps) (mt:=Plain.tableMatcher)
    Plain.oneByte = Ret [] /\
  Forall
    (fun d => 0 < d <= EncoderDict.DictLen (mt:=Plain.tableMatcher) Plain.abcd)
    [8; 4] /\
  Forall
    (fun d => 0 < d <= encoderDict.Len (ops:=Plain.encOps) Plain.abcdOld)
    [8; 4].
Proof.
  destruct Matches_distances_in_range as [Wold Wnew].
  split; [|split].
  - apply (Wnew Plain.ringOps Plain.table Plain.tableMatcher Plain.oneByte).
    reflexivity.
  - apply (Wnew Plain.ringOps Plain.table Plain.tableMatcher Plain.abcd).
    reflexivity.
  - apply (Wold Plain.encOps Plain.abcdOld). reflexivity.
Defined.

Lemma rejected_op_not_applied_witness :
  dict (snd (fill (methods:=Scripted.methods) 1 Scripted.overlong))
    = set_eof true (dict Scripted.overlong).
Proof.
  edestruct (rejected_op_not_applied (methods:=Scripted.methods) 0%nat
               Scripted.overlong) as (_ & _ & W & _).
  - reflexivity.
  - reflexivity.
  - simpl. lia.
  - cbv. reflexivity.
  - reflexivity.
  - exact W.
Defined.

(** * The further properties at work on concrete inputs *)

#[local] Existing Instance Samples.ctors.
#[local] Existing Instance Samples.limits.
#[local] Existing Instance Samples.encMore.
#[local] Existing Instance Samples.ringMore.
#[local] Existing Instance Samples.sink.

(** The scripted codecs return a byte or 0xFFFFFFFF. *)
Lemma Scripted_typedCodecs : typedCodecs (methods:=Scripted.methods).
Proof.
  split.
  - intros c r ps. simpl. unfold Scripted.lenDecode.
    destruct (Scripted.next r) as [[s r']|]; simpl; unfold isUint32.
    + pose proof (byteZ_range s). lia.
    + lia.
  - intros c l r. simpl. unfold Scripted.distDecode.
    destruct (Scripted.next r) as [[s r']|]; simpl; unfold isUint32.
    + pose proof (byteZ_range s). destruct (byteZ s =? 255); lia.
    + lia.
Qed.

(** The dictionary store hands out a prefix of what is pending. *)
Lemma Scripted_readsWithinBounds :
  readsWithinBounds (methods:=Scripted.methods).
Proof.
  intros dd k Hk. simpl. rewrite length_take. lia.
Qed.

Lemma sink_accepting :
  EncoderDict.accepting (W:=list byte) (fun w => w).
Proof. intros w p. split; reflexivity. Qed.

Lemma onRep1_wellFormed : wellFormed Scripted.onRep1.
Proof. unfold wellFormed. simpl. repeat split; first [lia | reflexivity]. Qed.

Lemma oneLiteral_sound : sound Samples.oneLiteral.
Proof.
  unfold sound, wellFormed, repsTyped, isUint32. simpl.
  repeat split; first [lia | reflexivity].
Qed.

Lemma abcdOld_inBounds : encoderDict.inBounds Plain.abcdOld.
Proof. unfold encoderDict.inBounds. simpl. lia. Qed.

Lemma abcd_ringOk :
  EncoderDict.ringOk (ops:=Plain.ringOps) (mt:=Plain.tableMatcher) Plain.abcd.
Proof.
  vm_compute. repeat split; first [discriminate | reflexivity].
Qed.

Lemma decodeOp_never_panics_witness :
  wellFormed (snd (decodeOp (methods:=Scripted.methods) Scripted.onRep1)) /\
  forall msg,
    fst (decodeOp (methods:=Scripted.methods) Scripted.onRep1) <> Panic msg.
Proof.
  apply (decodeOp_never_panics (methods:=Scripted.methods) Scripted.onRep1).
  - apply onRep1_wellFormed.
  - vm_compute. reflexivity.
Defined.

Lemma decodeOp_op_in_range_witness :
  repsTyped
    (reph (snd (decodeOp (methods:=Scripted.methods) Scripted.onRep1))) /\
  (1 <= 5 <= 2 ^ 32 + 1 /\ 1 <= 21 <= 2 ^ 32 /\
   7 <= state (snd (decodeOp (methods:=Scripted.methods) Scripted.onRep1))).
Proof.
  apply (decodeOp_op_in_range (methods:=Scripted.methods) Scripted.onRep1
           (Ret (rep 5 21))
           (snd (decodeOp (methods:=Scripted.methods) Scripted.onRep1))).
  - apply Scripted_typedCodecs.
  - apply onRep1_wellFormed.
  - unfold repsTyped, isUint32. simpl. lia.
  - vm_compute. reflexivity.
Defined.

Lemma fill_panics_only_on_overflow_witness :
  wellFormed (snd (fill (methods:=Scripted.methods) 1 Scripted.onRep1)) /\
  (forall msg,
     fst (fill (methods:=Scripted.methods) 1 Scripted.onRep1)
       = Some (Panic msg) ->
     msg = overflowMsg).
Proof.
  apply (fill_panics_only_on_overflow (methods:=Scripted.methods) 1%nat
           Scripted.onRep1).
  apply onRep1_wellFormed.
Defined.

Lemma fill_never_panics_witness :
  sound (snd (fill (methods:=Scripted.methods) 1 Samples.oneLiteral)) /\
  (forall msg,
     fst (fill (methods:=Scripted.methods) 1 Samples.oneLiteral)
       <> Some (Panic msg)).
Proof.
  apply (fill_never_panics (methods:=Scripted.methods) 1%nat
           Samples.oneLiteral).
  - apply Scripted_typedCodecs.
  - apply oneLiteral_sound.
Defined.

Lemma fill_nil_means_ready_witness :
  eof (dict (snd (fill (methods:=Scripted.methods) 1 Samples.oneLiteral)))
    = true \/
  b (dict (snd (fill (methods:=Scripted.methods) 1 Samples.oneLiteral)))
    <= readable
         (dict (snd (fill (methods:=Scripted.methods) 1 Samples.oneLiteral))).
Proof.
  apply (fill_nil_means_ready (methods:=Scripted.methods) 1%nat
           Samples.oneLiteral).
  reflexivity.
Defined.

Lemma Read_within_buffer_witness :
  fst (Read (methods:=Scripted.methods) 1 3 4 Samples.oneLiteral)
    = Some (Returned ["a"%byte] None) /\
  Z.of_nat (length ["a"%byte]) <= 4.
Proof.
  destruct (Read_within_buffer (methods:=Scripted.methods) 1%nat 3%nat 4
              Samples.oneLiteral) as (_ & W & _).
  - apply Scripted_readsWithinBounds.
  - apply oneLiteral_sound.
  - lia.
  - split; [reflexivity|]. apply (W ["a"%byte] None). reflexivity.
Defined.

Lemma Read_never_panics_witness :
  sound (snd (Read (methods:=Scripted.methods) 1 3 4 Samples.oneLiteral)) /\
  (forall msg,
     fst (Read (methods:=Scripted.methods) 1 3 4 Samples.oneLiteral)
       <> Some (Panicked msg)).
Proof.
  apply (Read_never_panics (methods:=Scripted.methods) 1%nat 3%nat 4
           Samples.oneLiteral).
  - apply Scripted_typedCodecs.
  - apply Scripted_readsWithinBounds.
  - apply oneLiteral_sound.
  - lia.
Defined.

Lemma getUint64LE_little_endian_witness :
  (getUint64LE [x05; x01; x00; x00; x00; x00; x00; x00; xff] = Ret 261 /\
   0 <= 261 < 2 ^ 64) /\
  getUint64LE [x05; x01] = Panic "index out of range".
Proof.
  split.
  - apply (getUint64LE_little_endian
             [x05; x01; x00; x00; x00; x00; x00; x00; xff]).
    simpl. lia.
  - apply (getUint64LE_little_endian [x05; x01]). simpl. lia.
Defined.

Lemma getUint64LE_injective_witness :
  x05 :: x01 :: repeat x00 6 = [x05; x01; x00; x00; x00; x00; x00; x00].
Proof.
  apply getUint64LE_injective; reflexivity.
Defined.

Lemma initProbSlice_sets_all_witness :
  initProbSlice 1024 [0; 7; 2048] !! 1%nat = Some 1024.
Proof.
  apply (initProbSlice_sets_all 1024 [0; 7; 2048]). simpl. lia.
Defined.

Lemma NewDecoder_fresh_witness :
  exists d,
    NewDecoder (ctors:=Samples.ctors) Samples.classic = Ret d /\
    unpackLen d = 5 /\ decodedLen d = 0 /\ posBitMask d = 3 /\ sound d.
Proof.
  assert (E : exists d,
             NewDecoder (ctors:=Samples.ctors) Samples.classic = Ret d)
    by (eexists; reflexivity).
  destruct E as [d E]. exists d. split; [exact E|].
  destruct (NewDecoder_fresh (ctors:=Samples.ctors) Samples.classic d E)
    as (rest & EP & _ & Hu & _ & Hd & _ & _ & _ & _ & _ & _ & _ & _ & K).
  assert (EP' : readProperties (Constructors:=Samples.ctors) Samples.classic
               = ((mkProperties 3 0 2 4096, None),
                  drop 5 Samples.classic)) by reflexivity.
  rewrite EP' in EP. injection EP as Hp Hr.
  rewrite <- Hp in K. rewrite <- Hr in Hu.
  destruct K as (Hm & _ & Hs); [simpl; lia|].
  split; [exact Hu|]. split; [exact Hd|]. split; [exact Hm|].
  apply Hs. rewrite Hu. reflexivity.
Defined.

Lemma NewDecoder_truncated_witness :
  NewDecoder (ctors:=Samples.ctors) Samples.cutShort
    = Fail (io_ErrUnexpectedEOF (Constructors:=Samples.ctors)).
Proof.
  apply (NewDecoder_truncated (ctors:=Samples.ctors) Samples.cutShort
           [x05; x00; x00] (mkProperties 3 0 2 4096)).
  - reflexivity.
  - vm_compute. discriminate.
  - simpl. lia.
Defined.

Lemma initEncoderDict_empty_witness :
  (exists e,
     encoderDict.initEncoderDict (more:=Samples.encMore) 4096
       (Plain.mkEnc [] []) = Ret e) /\
  encoderDict.Len (encoderDict.Reset Plain.abcdOld) = 0 /\
  encoderDict.Buffered (encoderDict.Reset Plain.abcdOld) = 0.
Proof.
  destruct (initEncoderDict_empty (more:=Samples.encMore) 4096
              (Plain.mkEnc [] [])) as (_ & W2 & W3).
  - simpl. lia.
  - split.
    + apply W2.
      * simpl. lia.
      * vm_compute. discriminate.
    + destruct (W3 Plain.abcdOld) as (H1 & H2 & _).
      * simpl. lia.
      * split; assumption.
Defined.

Lemma Advance_moves_head_witness :
  exists e',
    encoderDict.Advance Plain.abcdOld 2 = Ret e' /\
    encoderDict.Pos e' = 10 /\
    encoderDict.Buffered e' = 2 /\
    encoderDict.Len e' = 8.
Proof.
  destruct (Advance_moves_head Plain.abcdOld 2 abcdOld_inBounds)
    as (W & _ & _).
  destruct W as (e' & E & _ & _ & _ & HP & HB & HL & _).
  - vm_compute. split; [reflexivity | discriminate].
  - exists e'. split; [exact E|]. split; [exact HP|].
    split; [exact HB | exact HL].
Defined.

Lemma ByteAt_after_Advance_witness :
  encoderDict.ByteAt
    (encoderDict.mk (encoderDict.buf Plain.abcdOld) 10 0 8) 6
  = encoderDict.ByteAt Plain.abcdOld 4.
Proof.
  destruct (ByteAt_after_Advance Plain.abcdOld
              (encoderDict.mk (encoderDict.buf Plain.abcdOld) 10 0 8) 2
              abcdOld_inBounds) as (W & _ & _).
  - reflexivity.
  - apply (W 4).
    + vm_compute. split; [reflexivity | discriminate].
    + simpl. lia.
Defined.

Lemma Matches_fit_MatchLen_witness :
  Forall
    (fun d =>
       0 < d /\ d <= encoderDict.capacity Plain.abcdOld /\
       d <= encoderDict.head Plain.abcdOld /\
       encoderDict.MatchLen (more:=Samples.encMore) Plain.abcdOld d =
         encoderDict.buf_EqualBytes (encoderDict.buf Plain.abcdOld)
           (i64 (encoderDict.Buffered Plain.abcdOld + d))
           (encoderDict.Buffered Plain.abcdOld) maxMatchLen)
    [8; 4].
Proof.
  apply (Matches_fit_MatchLen (more:=Samples.encMore) Plain.abcdOld [8; 4]).
  reflexivity.
Defined.

Lemma ByteAt_never_panics_witness :
  EncoderDict.ByteAt (ops:=Plain.ringOps) (mt:=Plain.tableMatcher)
    Plain.abcd 3 = Ret "b"%byte /\
  EncoderDict.ByteAt (ops:=Plain.ringOps) (mt:=Plain.tableMatcher)
    Plain.abcd 8 = Ret x00.
Proof.
  destruct (ByteAt_never_panics (ops:=Plain.ringOps) (mt:=Plain.tableMatcher)
              Plain.abcd 3 abcd_ringOk) as (W & _ & _).
  destruct (ByteAt_never_panics (ops:=Plain.ringOps) (mt:=Plain.tableMatcher)
              Plain.abcd 8 abcd_ringOk) as (_ & W' & _).
  split.
  - destruct W as (c & E & L).
    + vm_compute. split; reflexivity.
    + rewrite E. vm_compute in L. injection L as <-. reflexivity.
  - apply W'. right. vm_compute. discriminate.
Defined.

Lemma CopyN_copies_tail_witness :
  exists out w',
    EncoderDict.CopyN (ops:=Plain.ringOps) (mt:=Plain.tableMatcher)
      Plain.abcd [] 5 = (Ret (5, None), w') /\
    w' = out /\ Z.of_nat (length out) = 5.
Proof.
  destruct (CopyN_copies_tail (ops:=Plain.ringOps) (mt:=Plain.tableMatcher)
              (fun w => w) Plain.abcd [] 5 abcd_ringOk sink_accepting)
    as (out & w' & E & C & L & _).
  exists out, w'. split; [exact E|]. split; [exact C | exact L].
Defined.

Lemma Write_within_Available_witness :
  fst (EncoderDict.Write (ops:=Plain.ringOps) (mt:=Plain.tableMatcher)
         (more:=Samples.ringMore) Plain.abcd
         ["w"; "x"; "y"; "z"]%byte)
    = Ret (3, Some Samples.noSpace).
Proof.
  destruct (Write_within_Available (ops:=Plain.ringOps)
              (mt:=Plain.tableMatcher) (more:=Samples.ringMore) Plain.abcd
              ["w"; "x"; "y"; "z"]%byte) as (W & _).
  destruct W as (_ & E).
  - vm_compute. discriminate.
  - rewrite E. reflexivity.
Defined.

Lemma EncoderDict_Matches_fit_MatchLen_witness :
  Forall
    (fun d =>
       0 < d /\ d <= EncoderDict.capacity Plain.abcd /\
       d <= EncoderDict.Pos (mt:=Plain.tableMatcher) Plain.abcd /\
       EncoderDict.MatchLen (ops:=Plain.ringOps) (mt:=Plain.tableMatcher)
         (more:=Samples.ringMore) Plain.abcd d =
         EncoderDict.buf_EqualBytes (EncoderDict.buf Plain.abcd)
           (i64 (EncoderDict.Buffered (ops:=Plain.ringOps) Plain.abcd + d))
           (EncoderDict.Buffered (ops:=Plain.ringOps) Plain.abcd)
           maxMatchLen)
    [8; 4].
Proof.
  apply (EncoderDict_Matches_fit_MatchLen (ops:=Plain.ringOps)
           (mt:=Plain.tableMatcher) (more:=Samples.ringMore) Plain.abcd
           [8; 4]).
  reflexivity.
Defined.
